(** * Region forest: heading parser, name normaliser and hierarchical linker

    A shallow embedding of [parse_markdown], [normalize_name] and
    [link_data] of [V10.PY], followed by the properties established about
    them.

    Conventions of the embedding:
    - a Python [str] is the list of its Unicode code points ([N]);
      [lit "..."] decodes the UTF-8 bytes of a literal of this file;
    - the dicts that [parse_markdown] builds and mutates through several
      variables ([current_province], [current_city], [active_entity], ...)
      live in an explicit store, addressed by their allocation index;
      [parse_markdown] works on the lines that the iteration over the open
      file yields, and its value is the forest that [processed_data] stands
      for when the function returns;
    - in that forest every record is created once and appended to one
      parent ([single_owner_run] below), so [link_data] receives a tree,
      and its in-place assignments are written as rebuilding the record
      they assign to. *)

From Stdlib Require Import NArith ZArith Lia Ascii String.
From stdpp Require Import base option list strings gmap.

Local Open Scope N_scope.

(** ** Python strings *)

Definition char : Type := N.
Definition str : Type := list char.

(** Decoding of UTF-8, used for the literals of the source only. *)
Fixpoint utf8 (bs : list N) : str :=
  match bs with
  | [] => []
  | b0 :: t0 =>
    if b0 <? 0x80 then b0 :: utf8 t0
    else match t0 with
    | [] => [b0]
    | b1 :: t1 =>
      if b0 <? 0xE0
      then N.lor (N.shiftl (N.land b0 0x1F) 6) (N.land b1 0x3F) :: utf8 t1
      else match t1 with
      | [] => [b0; b1]
      | b2 :: t2 =>
        if b0 <? 0xF0
        then N.lor (N.shiftl (N.land b0 0x0F) 12)
               (N.lor (N.shiftl (N.land b1 0x3F) 6) (N.land b2 0x3F)) :: utf8 t2
        else match t2 with
        | [] => [b0; b1; b2]
        | b3 :: t3 =>
          N.lor (N.shiftl (N.land b0 0x07) 18)
            (N.lor (N.shiftl (N.land b1 0x3F) 12)
               (N.lor (N.shiftl (N.land b2 0x3F) 6) (N.land b3 0x3F))) :: utf8 t3
        end
      end
    end
  end.

Definition lit (s : string) : str :=
  utf8 (map N_of_ascii (list_ascii_of_string s)).

(** [str.isspace] on one character: the code points CPython's
    [_PyUnicode_IsWhitespace] accepts; [\s] of a [str] pattern is the same
    class. *)
Definition isspace (c : char) : bool :=
  ((0x09 <=? c) && (c <=? 0x0D)) || ((0x1C <=? c) && (c <=? 0x20))
  || (c =? 0x85) || (c =? 0xA0) || (c =? 0x1680)
  || ((0x2000 <=? c) && (c <=? 0x200A))
  || (c =? 0x2028) || (c =? 0x2029) || (c =? 0x202F) || (c =? 0x205F)
  || (c =? 0x3000).

Definition is_newline (c : char) : bool := c =? 0x0A.

Fixpoint lstrip_by (p : char -> bool) (s : str) : str :=
  match s with
  | [] => []
  | c :: s' => if p c then lstrip_by p s' else s
  end.

Fixpoint rstrip_by (p : char -> bool) (s : str) : str :=
  match s with
  | [] => []
  | c :: s' =>
    match rstrip_by p s' with
    | [] => if p c then [] else [c]
    | t => c :: t
    end
  end.

Definition strip_by (p : char -> bool) (s : str) : str :=
  rstrip_by p (lstrip_by p s).

(** [s.strip()] *)
Definition strip (s : str) : str := strip_by isspace s.

(** [s.strip('\n')] *)
Definition strip_newlines (s : str) : str := strip_by is_newline s.

(** [s.endswith(suffix)] *)
Definition endswith (s suffix : str) : bool :=
  bool_decide (suffix `suffix_of` s).

(** [s[:-n]] *)
Definition slice_until_neg (s : str) (n : nat) : str :=
  match n with
  | O => []
  | _ => take (length s - n)%nat s
  end.

(** ["\n".join(parts)] *)
Fixpoint join_lines (parts : list str) : str :=
  match parts with
  | [] => []
  | [p] => p
  | p :: rest => p ++ 0x0A :: join_lines rest
  end.

(** ** normalize_name *)

Definition suffixes_to_remove : list str :=
  [lit "省"; lit "市"; lit "区"; lit "县";
   lit "自治州"; lit "自治县"; lit "地区"; lit "盟"].

(** The body of the [for suffix in suffixes_to_remove] loop. *)
Definition remove_suffix (name suffix : str) : str :=
  if endswith name suffix && (length suffix <? length name)%nat
  then slice_until_neg name (length suffix)
  else name.

Definition normalize_name (name : option str) : str :=
  match name with
  | None => []
  | Some name => foldl remove_suffix (strip name) suffixes_to_remove
  end.

(** ** Regular expressions

    The fragment of Python's [re] that the five heading patterns use, with
    the matcher's backtracking semantics: alternatives are tried in order,
    repetitions are greedy, and a later failure re-enters the most recent
    choice.  [re.match] anchors at the start of the line, where [^] holds. *)

Inductive regex : Type :=
  | Lit (s : str)                 (* literal text *)
  | Cls (p : char -> bool)        (* one character of a class *)
  | Star (p : char -> bool)       (* class*, greedy *)
  | Plus (p : char -> bool)       (* class+, greedy *)
  | Alt (r1 r2 : regex)           (* r1|r2 *)
  | Seq (r1 r2 : regex)           (* r1 r2 *)
  | Group (r : regex)             (* (r), capturing *)
  | Eos.                          (* $ *)

(** Captured groups, in the order of their closing parenthesis; no group
    of the five patterns contains another, so this is the order of their
    numbers, last group first. *)
Definition captures : Type := list str.

Fixpoint star {A : Type} (p : char -> bool) (k : str -> option A) (s : str)
    : option A :=
  match s with
  | [] => k []
  | c :: s' =>
    if p c
    then match star p k s' with
         | Some m => Some m
         | None => k s
         end
    else k s
  end.

Fixpoint rmatch (r : regex) (s : str) (caps : captures)
    (k : str -> captures -> option captures) : option captures :=
  match r with
  | Lit l =>
    if bool_decide (l `prefix_of` s) then k (drop (length l) s) caps else None
  | Cls p =>
    match s with
    | c :: s' => if p c then k s' caps else None
    | [] => None
    end
  | Star p => star p (fun s' => k s' caps) s
  | Plus p =>
    match s with
    | c :: s' => if p c then star p (fun s' => k s' caps) s' else None
    | [] => None
    end
  | Alt r1 r2 =>
    match rmatch r1 s caps k with
    | Some m => Some m
    | None => rmatch r2 s caps k
    end
  | Seq r1 r2 => rmatch r1 s caps (fun s' caps' => rmatch r2 s' caps' k)
  | Group r1 =>
    rmatch r1 s caps
      (fun s' caps' => k s' (take (length s - length s')%nat s :: caps'))
  | Eos =>
    if bool_decide (s = []) || bool_decide (s = [0x0A]) then k s caps else None
  end.

(** [pattern.match(line)]: [None], or the groups of the match. *)
Definition re_match (r : regex) (line : str) : option captures :=
  reverse <$> rmatch r line [] (fun _ caps => Some caps).

(** [m.group(n)] for [n >= 1]. *)
Definition group (m : captures) (n : nat) : str :=
  default [] (m !! pred n).

Definition seq_of (rs : list regex) : regex := foldr Seq (Lit []) rs.
Fixpoint alt_of (rs : list regex) : regex :=
  match rs with
  | [] => Cls (fun _ => false)
  | [r] => r
  | r :: rs' => Alt r (alt_of rs')
  end.

(** [.] (without DOTALL), [[0-9]], [[a-b]] *)
Definition dot (c : char) : bool := negb (c =? 0x0A).
Definition in_range (a b : string) (c : char) : bool :=
  match lit a, lit b with
  | [lo], [hi] => (lo <=? c) && (c <=? hi)
  | _, _ => false
  end.

Definition H1_MD_PATTERN : regex :=
  seq_of [Lit (lit "#"); Plus isspace; Lit (lit "第"); Plus (in_range "0" "9");
          Lit (lit "章"); Star isspace; Group (Plus dot); Eos].

Definition H2_SPECIAL_ZERO_PATTERN : regex :=
  seq_of [Lit (lit "##"); Plus isspace; Lit (lit "零、上位类说明"); Eos].

Definition H2_ORDINALS : list string :=
  ["一"; "二"; "三"; "四"; "五"; "六"; "七"; "八"; "九"; "十";
   "十一"; "十二"; "十三"; "十四"; "十五"; "十六"; "十七"; "十八"; "十九";
   "二十"; "二十一"; "二十二"; "二十三"; "二十四"; "二十五"; "二十六";
   "二十七"; "二十八"; "二十九"; "三十"; "三十一"; "三十二"; "三十三";
   "三十四"; "三十五"; "三十六"; "三十七"; " ৩৮"]%string.

Definition H2_MD_PATTERN : regex :=
  seq_of [Lit (lit "##"); Plus isspace;
          alt_of (map (fun w => Lit (lit w)) H2_ORDINALS);
          Lit (lit "、"); Star isspace; Group (Plus dot); Eos].

Definition H3_SPECIAL_ZERO_PATTERN : regex :=
  seq_of [Lit (lit "###"); Plus isspace; Lit (lit "0.上位类说明"); Eos].

Definition H3_MD_PATTERN : regex :=
  seq_of [Lit (lit "###"); Star isspace;
          Group (alt_of [Cls (in_range "1" "9");
                         Seq (Lit (lit "1")) (Cls (in_range "0" "9"));
                         Seq (Lit (lit "2")) (Cls (in_range "0" "5"))]);
          Lit (lit "."); Star isspace; Group (Plus dot); Eos].

(** ** Records

    [attrs] holds the scalar entries of an [AdministrativeRegion] dict.
    An absent key and a [None] value are both [None]; a level-1 dict has no
    parent keys.  [code] is the type of the identifiers of the reference
    tables and [geom] the type of their boundaries. *)

Inductive field_key : Type := text_general_key | text_detail_key.

Record attrs {code geom : Type} : Type := Attrs {
  name : str;
  level : Z;
  adcode : option code;
  parent_name : option str;
  parent_adcode : option code;
  text_general : str;
  text_detail : str;
  geometry : option geom
}.
Arguments attrs : clear implicits.
Arguments Attrs {code geom}.

(** A dict as [parse_markdown] holds it: ["children"] is a list of
    references into the store, or absent. *)
Record entity {code geom : Type} : Type := Entity {
  e_attrs : attrs code geom;
  e_children : option (list nat)
}.
Arguments entity : clear implicits.
Arguments Entity {code geom}.

(** The forest as a value. *)
#[warnings="-register-all"]
Inductive AdministrativeRegion {code geom : Type} : Type :=
  Region {
    fields : attrs code geom;
    children : option (list AdministrativeRegion)
  }.
Arguments AdministrativeRegion : clear implicits.
Arguments Region {code geom}.

#[warnings="-notation-for-abbreviation"]
Notation ProcessedData code geom := (list (AdministrativeRegion code geom))
  (only parsing).

(** ** parse_markdown *)

Section Parser.
Context {code geom : Type}.

Implicit Types (a : attrs code geom) (e : entity code geom).

(** The local variables of [parse_markdown] and the objects they refer to. *)
Record parser_state : Type := ParserState {
  store : list (entity code geom);
  processed_data : list nat;
  current_province : option nat;
  current_city : option nat;
  current_district : option nat;
  active_entity : option nat;
  active_field : field_key;
  current_text_buffer : list str
}.

Definition get_text (f : field_key) a : str :=
  match f with
  | text_general_key => text_general a
  | text_detail_key => text_detail a
  end.

Definition set_text (f : field_key) (v : str) a : attrs code geom :=
  match f with
  | text_general_key =>
    Attrs (name a) (level a) (adcode a) (parent_name a) (parent_adcode a)
      v (text_detail a) (geometry a)
  | text_detail_key =>
    Attrs (name a) (level a) (adcode a) (parent_name a) (parent_adcode a)
      (text_general a) v (geometry a)
  end.

(** [active_entity[active_field] += "\n" + text_to_add], or plain
    assignment when the field is still empty. *)
Definition add_text (f : field_key) (text_to_add : str) e : entity code geom :=
  let old := get_text f (e_attrs e) in
  let new :=
    match old with
    | [] => text_to_add
    | _ => old ++ 0x0A :: text_to_add
    end in
  Entity (set_text f new (e_attrs e)) (e_children e).

Definition flush_buffer (st : parser_state) : parser_state :=
  match active_entity st, current_text_buffer st with
  | Some r, _ :: _ =>
    let text_to_add := strip (join_lines (current_text_buffer st)) in
    let store' :=
      match text_to_add with
      | [] => store st
      | _ => alter (add_text (active_field st) text_to_add) r (store st)
      end in
    ParserState store' (processed_data st) (current_province st)
      (current_city st) (current_district st) (active_entity st)
      (active_field st) []
  | _, _ => st
  end.

(** [parent["children"].append(child)] for a level-1 parent, whose
    ["children"] key exists from creation. *)
Definition append_child (child : nat) e : entity code geom :=
  Entity (e_attrs e) ((fun l => l ++ [child]) <$> e_children e).

(** The same for a level-2 parent, preceded by
    [if "children" not in current_city: current_city["children"] = []]. *)
Definition append_child_default (child : nat) e : entity code geom :=
  Entity (e_attrs e) (Some (default [] (e_children e) ++ [child])).

Definition on_h1 (m : captures) (st0 : parser_state) : parser_state :=
  let st := flush_buffer st0 in
  let province_name := strip (group m 1) in
  let r := length (store st) in
  let current_province :=
    Entity (Attrs province_name 1 None None None [] [] None) (Some []) in
  ParserState (store st ++ [current_province]) (processed_data st ++ [r])
    (Some r) None None (Some r) text_detail_key (current_text_buffer st).

Definition on_h2_special_zero (p : nat) (st0 : parser_state) : parser_state :=
  let st := flush_buffer st0 in
  ParserState (store st) (processed_data st) (current_province st)
    (current_city st) (current_district st) (Some p) text_general_key
    (current_text_buffer st).

Definition on_h2 (p : nat) (m : captures) (st0 : parser_state) : parser_state :=
  let st := flush_buffer st0 in
  let city_name := strip (group m 1) in
  let parent := store st !! p in
  let r := length (store st) in
  let current_city :=
    Entity (Attrs city_name 2 None
              (name ∘ e_attrs <$> parent) (parent ≫= adcode ∘ e_attrs)
              [] [] None) (Some []) in
  ParserState (alter (append_child r) p (store st ++ [current_city]))
    (processed_data st) (current_province st) (Some r) None (Some r)
    text_detail_key (current_text_buffer st).

Definition on_h3_special_zero (c : nat) (st0 : parser_state) : parser_state :=
  let st := flush_buffer st0 in
  ParserState (store st) (processed_data st) (current_province st)
    (current_city st) (current_district st) (Some c) text_general_key
    (current_text_buffer st).

Definition on_h3 (c : nat) (m : captures) (st0 : parser_state) : parser_state :=
  let st := flush_buffer st0 in
  let h3_name := strip (group m 2) in
  let parent := store st !! c in
  let r := length (store st) in
  let current_district :=
    Entity (Attrs h3_name 3 None
              (name ∘ e_attrs <$> parent) (parent ≫= adcode ∘ e_attrs)
              [] [] None) None in
  ParserState (alter (append_child_default r) c (store st ++ [current_district]))
    (processed_data st) (current_province st) (current_city st) (Some r)
    (Some r) text_detail_key (current_text_buffer st).

Definition on_text (line_content : str) (st : parser_state) : parser_state :=
  ParserState (store st) (processed_data st) (current_province st)
    (current_city st) (current_district st) (active_entity st)
    (active_field st) (current_text_buffer st ++ [strip_newlines line_content]).

(** The body of [for line_content in f]. *)
Definition process_line (st : parser_state) (line_content : str) : parser_state :=
  let line := strip line_content in
  match line with
  | [] => st
  | _ =>
    match re_match H1_MD_PATTERN line with
    | Some match_h1 => on_h1 match_h1 st
    | None =>
      match current_province st, re_match H2_SPECIAL_ZERO_PATTERN line with
      | Some p, Some _ => on_h2_special_zero p st
      | _, _ =>
        match current_province st, re_match H2_MD_PATTERN line with
        | Some p, Some match_h2 => on_h2 p match_h2 st
        | _, _ =>
          match current_city st, re_match H3_SPECIAL_ZERO_PATTERN line with
          | Some c, Some _ => on_h3_special_zero c st
          | _, _ =>
            match current_city st, re_match H3_MD_PATTERN line with
            | Some c, Some match_h3 => on_h3 c match_h3 st
            | _, _ => on_text line_content st
            end
          end
        end
      end
    end
  end.

Definition initial_state : parser_state :=
  ParserState [] [] None None None None text_detail_key [].

(** The state when the file is exhausted and the last [flush_buffer] ran. *)
Definition run_parser (lines : list str) : parser_state :=
  flush_buffer (foldl process_line initial_state lines).

(** The value of the object at [r], down to [depth] levels; [None] when a
    reference is dangling or the nesting is deeper. *)
Fixpoint reify (depth : nat) (h : list (entity code geom)) (r : nat)
    : option (AdministrativeRegion code geom) :=
  match depth with
  | O => None
  | S d =>
    e ← h !! r;
    match e_children e with
    | None => Some (Region (e_attrs e) None)
    | Some l => cs ← mapM (reify d h) l; Some (Region (e_attrs e) (Some cs))
    end
  end.

(** [parse_markdown], on the lines of the file as its iteration yields
    them (each with its line terminator, the last one possibly without).
    The value is that of [processed_data] when the function returns. *)
Definition parse_markdown (lines : list str) : option (ProcessedData code geom) :=
  let st := run_parser lines in
  mapM (reify 3 (store st)) (processed_data st).

End Parser.

(** ** Reference tables

    A table is the list of its rows, in table order, together with the
    names of its columns.  The rows of a tier carry what [link_data] reads
    from it: the name (as [astype(str)] yields it), the identifier, the
    parent identifier for the two lower tiers, and the boundary.
    Identifier and boundary cells hold a value; [columns] is what the
    [in gdf.columns] tests of [link_data] look at. *)

Record province_row {code geom : Type} : Type := ProvinceRow {
  pr_name : str;
  pr_adcode : code;
  pr_geometry : geom
}.
Arguments province_row : clear implicits.
Arguments ProvinceRow {code geom}.

Record city_row {code geom : Type} : Type := CityRow {
  ct_name : str;
  ct_adcode : code;
  ct_pr_adcode : code;
  ct_geometry : geom
}.
Arguments city_row : clear implicits.
Arguments CityRow {code geom}.

Record district_row {code geom : Type} : Type := DistrictRow {
  dt_name : str;
  dt_adcode : code;
  dt_ct_adcode : code;
  dt_geometry : geom
}.
Arguments district_row : clear implicits.
Arguments DistrictRow {code geom}.

Record GeoDataFrame {row : Type} : Type := Frame {
  columns : list string;
  rows : list row
}.
Arguments GeoDataFrame : clear implicits.
Arguments Frame {row}.

(** [df.empty]: an axis of length zero. *)
Definition empty {row : Type} (df : GeoDataFrame row) : bool :=
  bool_decide (rows df = []) || bool_decide (columns df = []).

(** The entries of [shp_data] that [link_data] reads; an absent key and a
    [None] value are both [None]. *)
Record ShpData {code geom : Type} : Type := Shp {
  province : option (GeoDataFrame (province_row code geom));
  city : option (GeoDataFrame (city_row code geom));
  district : option (GeoDataFrame (district_row code geom))
}.
Arguments ShpData : clear implicits.
Arguments Shp {code geom}.

(** ** link_data *)

Section Linker.
Context {code geom : Type} `{!EqDecision code}.

Implicit Types (a : attrs code geom) (n : AdministrativeRegion code geom).

(** [node["adcode"] = c; node["geometry"] = g] *)
Definition assign a (c : code) (g : geom) : attrs code geom :=
  Attrs (name a) (level a) (Some c) (parent_name a) (parent_adcode a)
    (text_general a) (text_detail a) (Some g).

Definition has_column {row : Type} (c : string) (df : GeoDataFrame row) : bool :=
  bool_decide (c ∈ columns df).

(** The body of [for district_md in city_md.get("children", [])];
    [city_md] is the enclosing record after its own assignment. *)
Definition link_district (gdf_districts : GeoDataFrame (district_row code geom))
    (city_md : attrs code geom) n : AdministrativeRegion code geom :=
  let district_md := n in
  let dist_name_md_normalized := normalize_name (Some (name (fields district_md))) in
  if negb (has_column "dt_name" gdf_districts)
     || negb (has_column "ct_adcode" gdf_districts)
  then district_md
  else
    let potential_districts_shp :=
      filter (fun r => Some (dt_ct_adcode r) = adcode city_md)
        (rows gdf_districts) in
    let matched_district_shp :=
      filter (fun r => normalize_name (Some (dt_name r)) = dist_name_md_normalized)
        potential_districts_shp in
    match matched_district_shp with
    | [] => district_md
    | district_shp_row :: _ =>
      Region (assign (fields district_md) (dt_adcode district_shp_row)
                (dt_geometry district_shp_row))
        (children district_md)
    end.

(** The body of [for city_md in province_md.get("children", [])]. *)
Definition link_city (gdf_cities : GeoDataFrame (city_row code geom))
    (gdf_districts : GeoDataFrame (district_row code geom))
    (province_md : attrs code geom) n : AdministrativeRegion code geom :=
  let city_md := n in
  let city_name_md_normalized := normalize_name (Some (name (fields city_md))) in
  if negb (has_column "ct_name" gdf_cities)
     || negb (has_column "pr_adcode" gdf_cities)
  then city_md
  else
    let potential_cities_shp :=
      filter (fun r => Some (ct_pr_adcode r) = adcode province_md)
        (rows gdf_cities) in
    let matched_city_shp :=
      filter (fun r => normalize_name (Some (ct_name r)) = city_name_md_normalized)
        potential_cities_shp in
    match matched_city_shp with
    | [] => city_md
    | city_shp_row :: _ =>
      let city_attrs :=
        assign (fields city_md) (ct_adcode city_shp_row)
          (ct_geometry city_shp_row) in
      Region city_attrs
        (fmap (M:=list) (link_district gdf_districts city_attrs) <$> children city_md)
    end.

(** The body of [for province_md in md_data]. *)
Definition link_province (gdf_provinces : GeoDataFrame (province_row code geom))
    (gdf_cities : GeoDataFrame (city_row code geom))
    (gdf_districts : GeoDataFrame (district_row code geom))
    n : AdministrativeRegion code geom :=
  let province_md := n in
  let prov_name_md_normalized := normalize_name (Some (name (fields province_md))) in
  if negb (has_column "pr_name" gdf_provinces)
  then province_md
  else
    let matched_prov_shp :=
      filter (fun r => normalize_name (Some (pr_name r)) = prov_name_md_normalized)
        (rows gdf_provinces) in
    match matched_prov_shp with
    | [] => province_md
    | province_shp_row :: _ =>
      let province_attrs :=
        assign (fields province_md) (pr_adcode province_shp_row)
          (pr_geometry province_shp_row) in
      Region province_attrs
        (fmap (M:=list) (link_city gdf_cities gdf_districts province_attrs)
           <$> children province_md)
    end.

(** ["k" in shp_data and shp_data["k"] is not None and not shp_data["k"].empty] *)
Definition loaded_and_not_empty {row : Type} (t : option (GeoDataFrame row)) : bool :=
  match t with
  | Some df => negb (empty df)
  | None => false
  end.

Definition essential_shp_loaded_and_not_empty (shp_data : ShpData code geom) : bool :=
  loaded_and_not_empty (province shp_data)
  && loaded_and_not_empty (city shp_data)
  && loaded_and_not_empty (district shp_data).

Definition link_data (md_data : ProcessedData code geom)
    (shp_data : ShpData code geom) : ProcessedData code geom :=
  if bool_decide (md_data = [])
     || negb (essential_shp_loaded_and_not_empty shp_data)
  then md_data
  else
    match province shp_data, city shp_data, district shp_data with
    | Some gdf_provinces, Some gdf_cities, Some gdf_districts =>
      link_province gdf_provinces gdf_cities gdf_districts <$> md_data
    | _, _, _ => md_data
    end.

End Linker.

(** ** Vocabulary of the properties *)

(** [t] can be cut from the end of [s]: [s] ends with it and something is
    left. *)
Definition strippable (s t : str) : Prop :=
  t `suffix_of` s ∧ (length t < length s)%nat.

(** Nothing is left for [normalize_name] to do on [s]. *)
Definition settled (s : str) : Prop :=
  strip s = s ∧ Forall (fun t => ¬ strippable s t) suffixes_to_remove.

(** The suffixes that no earlier entry of [suffixes_to_remove] ends. *)
Definition effective_suffixes : list str :=
  [lit "省"; lit "市"; lit "区"; lit "县"; lit "自治州"; lit "盟"].

(** The records of a forest: each node with all its descendants, in
    document order. *)
Fixpoint subtrees {code geom : Type} (n : AdministrativeRegion code geom)
    : list (AdministrativeRegion code geom) :=
  match n with
  | Region _ None => [n]
  | Region _ (Some l) => n :: flat_map subtrees l
  end.

Definition nodes {code geom : Type} (md : ProcessedData code geom)
    : list (AdministrativeRegion code geom) :=
  flat_map subtrees md.

(** The record at the end of a path of child positions. *)
Fixpoint node_at {code geom : Type} (md : ProcessedData code geom)
    (path : list nat) : option (AdministrativeRegion code geom) :=
  match path with
  | [] => None
  | [i] => md !! i
  | i :: rest =>
    match md !! i with
    | Some (Region _ (Some l)) => node_at l rest
    | _ => None
    end
  end.

Definition unlinked {code geom : Type} (n : AdministrativeRegion code geom) : Prop :=
  adcode (fields n) = None ∧ geometry (fields n) = None.

Definition linked_together {code geom : Type}
    (n : AdministrativeRegion code geom) : Prop :=
  is_Some (adcode (fields n)) ↔ is_Some (geometry (fields n)).

(** [r] is the first row of the table, in table order, that satisfies [P]. *)
Definition first_row {row : Type} (P : row -> Prop) (l : list row) (r : row) : Prop :=
  ∃ i, l !! i = Some r ∧ P r
       ∧ ∀ j r', (j < i)%nat → l !! j = Some r' → ¬ P r'.

Definition no_row {row : Type} (P : row -> Prop) (l : list row) : Prop :=
  ∀ r, r ∈ l → ¬ P r.

(** What linking does to the entries [a] of a record, given the candidate
    rows: the identifier and boundary of the first candidate are assigned,
    and nothing changes when there is no candidate. *)
Definition resolves {code geom row : Type} (P : row -> Prop) (l : list row)
    (ident : row -> code) (bound : row -> geom) (a a' : attrs code geom) : Prop :=
  (∀ r, first_row P l r →
     a' = Attrs (name a) (level a) (Some (ident r)) (parent_name a)
            (parent_adcode a) (text_general a) (text_detail a) (Some (bound r)))
  ∧ (no_row P l → a' = a).

Definition same_normalized_name (x y : str) : Prop :=
  normalize_name (Some x) = normalize_name (Some y).

Definition province_row_matches {code geom : Type}
    (n : AdministrativeRegion code geom) (r : province_row code geom) : Prop :=
  same_normalized_name (pr_name r) (name (fields n)).

Definition city_row_matches {code geom : Type} (parent : code)
    (n : AdministrativeRegion code geom) (r : city_row code geom) : Prop :=
  ct_pr_adcode r = parent ∧ same_normalized_name (ct_name r) (name (fields n)).

Definition district_row_matches {code geom : Type} (parent : code)
    (n : AdministrativeRegion code geom) (r : district_row code geom) : Prop :=
  dt_ct_adcode r = parent ∧ same_normalized_name (dt_name r) (name (fields n)).

Typeclasses Opaque same_normalized_name province_row_matches
  city_row_matches district_row_matches.

#[global] Instance province_row_matches_dec {code geom : Type}
    (n : AdministrativeRegion code geom) (r : province_row code geom) :
    Decision (province_row_matches n r) :=
  decide (normalize_name (Some (pr_name r))
          = normalize_name (Some (name (fields n)))).

#[global] Instance city_row_matches_dec {code geom : Type} `{!EqDecision code}
    (x : code) (n : AdministrativeRegion code geom) (r : city_row code geom) :
    Decision (city_row_matches x n r) :=
  decide (ct_pr_adcode r = x
          ∧ normalize_name (Some (ct_name r))
            = normalize_name (Some (name (fields n)))).

#[global] Instance district_row_matches_dec {code geom : Type} `{!EqDecision code}
    (x : code) (n : AdministrativeRegion code geom) (r : district_row code geom) :
    Decision (district_row_matches x n r) :=
  decide (dt_ct_adcode r = x
          ∧ normalize_name (Some (dt_name r))
            = normalize_name (Some (name (fields n)))).

(** A required table is missing from the collection, or has no row or no
    column. *)
Definition absent_or_empty {row : Type} (t : option (GeoDataFrame row)) : Prop :=
  match t with
  | None => True
  | Some df => rows df = [] ∨ columns df = []
  end.

(** The three tables are there, not empty, and have the columns that
    [link_data] tests for. *)
Definition reference_tables {code geom : Type} (shp_data : ShpData code geom)
    (gp : GeoDataFrame (province_row code geom))
    (gc : GeoDataFrame (city_row code geom))
    (gd : GeoDataFrame (district_row code geom)) : Prop :=
  province shp_data = Some gp ∧ city shp_data = Some gc
  ∧ district shp_data = Some gd
  ∧ rows gp ≠ [] ∧ rows gc ≠ [] ∧ rows gd ≠ []
  ∧ "pr_name" ∈ columns gp
  ∧ "ct_name" ∈ columns gc ∧ "pr_adcode" ∈ columns gc
  ∧ "dt_name" ∈ columns gd ∧ "ct_adcode" ∈ columns gd.

(** The entries that [link_data] leaves alone are equal, and identifier
    and boundary either both stay or are both set afterwards. *)
Definition same_frame {code geom : Type} (a a' : attrs code geom) : Prop :=
  name a' = name a ∧ level a' = level a
  ∧ parent_name a' = parent_name a ∧ parent_adcode a' = parent_adcode a
  ∧ text_general a' = text_general a ∧ text_detail a' = text_detail a
  ∧ (adcode a' = adcode a ∧ geometry a' = geometry a
     ∨ is_Some (adcode a') ∧ is_Some (geometry a')).

(** How [link_data] may change a record: its own entries as [same_frame]
    says, its children the same in number and order, changed in this way
    themselves. *)
#[warnings="-register-all"]
Inductive evolves {code geom : Type}
    : AdministrativeRegion code geom -> AdministrativeRegion code geom -> Prop :=
  | evolves_leaf a a' :
      same_frame a a' → evolves (Region a None) (Region a' None)
  | evolves_node a a' l l' :
      same_frame a a' → Forall2 evolves l l' →
      evolves (Region a (Some l)) (Region a' (Some l')).

(** Below a record that has no identifier, nothing is linked. *)
Definition closed_downwards {code geom : Type}
    (n : AdministrativeRegion code geom) : Prop :=
  ∀ m, m ∈ subtrees n → adcode (fields m) = None →
       Forall unlinked (subtrees m).

(** ** Sample data

    A forest that already carries an identifier, two provinces, and three
    cities of one name of which the first belongs to the other province. *)

Definition sample_tables : ShpData Z Z :=
  Shp
    (Some (Frame ["pr_name"; "pr_adcode"; "geometry"]%string
             [ProvinceRow (lit "甲省") 1%Z 100%Z;
              ProvinceRow (lit "乙省") 2%Z 200%Z]))
    (Some (Frame ["ct_name"; "ct_adcode"; "pr_adcode"; "geometry"]%string
             [CityRow (lit "丙市") 21%Z 2%Z 210%Z;
              CityRow (lit "丙市") 11%Z 1%Z 110%Z;
              CityRow (lit "丙") 12%Z 1%Z 120%Z]))
    (Some (Frame ["dt_name"; "dt_adcode"; "ct_adcode"; "geometry"]%string
             [DistrictRow (lit "丁区") 211%Z 21%Z 2110%Z;
              DistrictRow (lit "丁区") 111%Z 11%Z 1110%Z])).

Definition sample_district (parent_code : option Z) (x : str)
    : AdministrativeRegion Z Z :=
  Region (Attrs x 3%Z None (Some (lit "丙")) parent_code [] [] None) None.

Definition sample_city (x : str) (ds : list (AdministrativeRegion Z Z))
    : AdministrativeRegion Z Z :=
  Region (Attrs x 2%Z None (Some (lit "甲")) None [] [] None) (Some ds).

Definition sample_province (code : option Z) (bound : option Z)
    (cs : list (AdministrativeRegion Z Z)) : AdministrativeRegion Z Z :=
  Region (Attrs (lit "甲") 1%Z code None None [] [] bound) (Some cs).

Definition sample_forest : ProcessedData Z Z :=
  [sample_province None None
     [sample_city (lit "丙") [sample_district None (lit "丁");
                              sample_district None (lit "戊")];
      sample_city (lit "己") [sample_district None (lit "丁")]]].


(** ** Vocabulary of the parser properties *)

(** A line that is not blank and that none of the five patterns matches:
    narrative text in every state. *)
Definition narrative_line (line_content : str) : Prop :=
  strip line_content ≠ []
  ∧ re_match H1_MD_PATTERN (strip line_content) = None
  ∧ re_match H2_SPECIAL_ZERO_PATTERN (strip line_content) = None
  ∧ re_match H2_MD_PATTERN (strip line_content) = None
  ∧ re_match H3_SPECIAL_ZERO_PATTERN (strip line_content) = None
  ∧ re_match H3_MD_PATTERN (strip line_content) = None.

Definition entity_at {code geom : Type} (h : list (entity code geom))
    (r : nat) (lv : Z) : Prop :=
  ∃ e, h !! r = Some e ∧ level (e_attrs e) = lv.

(** The objects of the store form three tiers: children of a level-1
    object are level-2 objects of the store, children of a level-2 object
    are level-3 objects, and no other object has children. *)
Definition well_shaped {code geom : Type} (h : list (entity code geom)) : Prop :=
  ∀ r e l, h !! r = Some e → e_children e = Some l →
    (level (e_attrs e) = 1%Z ∧ Forall (fun c => entity_at h c 2%Z) l)
    ∨ (level (e_attrs e) = 2%Z ∧ Forall (fun c => entity_at h c 3%Z) l).

Definition store_unlinked {code geom : Type} (h : list (entity code geom)) : Prop :=
  Forall (fun e => adcode (e_attrs e) = None ∧ geometry (e_attrs e) = None) h.

Record parser_inv {code geom : Type} (st : @parser_state code geom) : Prop :=
  ParserInv {
    inv_shape : well_shaped (store st);
    inv_roots : Forall (fun r => entity_at (store st) r 1%Z) (processed_data st);
    inv_province :
      ∀ p, current_province st = Some p → entity_at (store st) p 1%Z;
    inv_city : ∀ c, current_city st = Some c → entity_at (store st) c 2%Z;
    inv_unlinked : store_unlinked (store st)
  }.

(** The lines of the end-to-end scenario, as the iteration over the file
    yields them, and the forest they stand for. *)
Definition terminated (s : string) : str := lit s ++ [0x0A].

Definition scenario_lines : list str :=
  [terminated "# 第1章 Guangdong"; terminated "## 一、Guangzhou";
   terminated "overview line"; terminated "### 1. Yuexiu";
   terminated "detail line"].

Definition scenario_forest {code geom : Type} : ProcessedData code geom :=
  [Region (Attrs (lit "Guangdong") 1%Z None None None [] [] None)
     (Some
        [Region (Attrs (lit "Guangzhou") 2%Z None (Some (lit "Guangdong")) None
                   [] (lit "overview line") None)
           (Some
              [Region (Attrs (lit "Yuexiu") 3%Z None (Some (lit "Guangzhou"))
                         None [] (lit "detail line") None)
                 None])])].

(** A chapter with a thirty-eighth and with a thirty-seventh section. *)
Definition thirty_eighth_lines : list str :=
  [terminated "# 第1章 Guangdong"; terminated "## 三十八、Shenzhen"].

Definition thirty_seventh_lines : list str :=
  [terminated "# 第1章 Guangdong"; terminated "## 三十七、Shenzhen"].

(** A chapter whose first section was entered and has pending text, the
    top-tier general marker, and a line of narrative. *)
Definition descended_state : @parser_state Z Z :=
  foldl process_line initial_state
    [terminated "# 第1章 Guangdong"; terminated "## 一、Guangzhou";
     terminated "city text"].

(** [H2_MD_PATTERN] up to the separator, and from there on. *)
Definition h2_heading_prefix : regex :=
  Seq (Lit (lit "##")) (Seq (Plus isspace)
    (Seq (alt_of (map (fun w => Lit (lit w)) H2_ORDINALS)) (Lit (lit "、")))).

Definition h2_heading_tail : regex :=
  seq_of [Star isspace; Group (Plus dot); Eos].

(** The ordinal words of the alternation that are ordinal words. *)
Definition well_formed_ordinals : list string := take 37 H2_ORDINALS.

(** The references that the forest holds: the roots and the entries of
    all children lists.  Every object is referred to at most once, by an
    existing index. *)
Definition kids {code geom : Type} (e : entity code geom) : list nat :=
  default [] (e_children e).

Definition owned_refs {code geom : Type} (st : @parser_state code geom)
    : list nat :=
  processed_data st ++ concat (kids <$> store st).

Definition single_owner {code geom : Type} (st : @parser_state code geom) : Prop :=
  NoDup (owned_refs st)
  ∧ Forall (fun r => (r < length (store st))%nat) (owned_refs st).

(** While a chapter is open, some record is active. *)
Definition active_in_scope {code geom : Type} (st : @parser_state code geom)
    : Prop :=
  is_Some (current_province st) → is_Some (active_entity st).

(** ** The callers: search, result list, browse tree, data loading *)

(** [query in s] *)
Fixpoint contains (s query : str) : bool :=
  bool_decide (query `prefix_of` s)
  || match s with
     | [] => false
     | _ :: s' => contains s' query
     end.

(** A row of a [QStandardItemModel]: its text, what [setData] stored
    under [Qt.UserRole], and its child rows. *)
#[warnings="-register-all"]
Inductive QStandardItem (data : Type) : Type :=
  StandardItem {
    item_text : str;
    item_data : option data;
    item_rows : list (QStandardItem data)
  }.
Arguments StandardItem {data}.
Arguments item_text {data}.
Arguments item_data {data}.
Arguments item_rows {data}.

Section Callers.
Context {code geom : Type}.

(** [search_in_region] of [MainWindow.search_regions]; [results] is the
    list the closure appends to. *)
Fixpoint search_in_region (query : str) (region : AdministrativeRegion code geom)
    (results : list (AdministrativeRegion code geom))
    : list (AdministrativeRegion code geom) :=
  let results :=
    if contains (name (fields region)) query
    then results ++ [region]
    else results in
  match region with
  | Region _ (Some l) =>
    foldl (fun results child => search_in_region query child results) results l
  | Region _ None => results
  end.

Definition search_regions (data_store : ProcessedData code geom) (query : str)
    : list (AdministrativeRegion code geom) :=
  foldl (fun results province => search_in_region query province results)
    [] data_store.

(** [SearchResultsWidget._get_level_text] *)
Definition _get_level_text (level : Z) : str :=
  if (level =? 1)%Z then lit "省"
  else if (level =? 2)%Z then lit "市"
  else if (level =? 3)%Z then lit "区/县"
  else lit "未知".

(** The text of a result row. *)
Definition result_text (result : AdministrativeRegion code geom) : str :=
  let result_text :=
    name (fields result) ++ lit " (" ++ _get_level_text (level (fields result))
    ++ lit ")" in
  match parent_name (fields result) with
  | Some (c :: p) => result_text ++ lit " - " ++ c :: p
  | _ => result_text
  end.

(** The state of a [SearchResultsWidget]: [search_results] and the rows
    of [results_model]. *)
Record SearchResultsWidget : Type := ResultsWidget {
  search_results : list (AdministrativeRegion code geom);
  results_model : list (QStandardItem nat)
}.

Definition display_search_results (results : list (AdministrativeRegion code geom))
    : SearchResultsWidget :=
  ResultsWidget results
    match results with
    | [] => [StandardItem (lit "未找到匹配结果") None []]
    | _ => imap (fun i result => StandardItem (result_text result) (Some i) [])
             results
    end.

(** [on_result_clicked] on the row [index]: the record handed to
    [result_selected.emit], if any. *)
Definition on_result_clicked (w : SearchResultsWidget) (index : nat)
    : option (AdministrativeRegion code geom) :=
  match results_model w !! index with
  | Some item =>
    match item_data item with
    | Some result_index =>
      if bool_decide (result_index < length (search_results w))%nat
      then search_results w !! result_index
      else None
    | None => None
    end
  | None => None
  end.

(** The rows that [populate_browse_tree] appends to [browse_model]. *)
Definition district_item (district : AdministrativeRegion code geom)
    : QStandardItem (AdministrativeRegion code geom) :=
  StandardItem (name (fields district)) (Some district) [].

Definition city_item (city : AdministrativeRegion code geom)
    : QStandardItem (AdministrativeRegion code geom) :=
  StandardItem (name (fields city)) (Some city)
    (district_item <$> default [] (children city)).

Definition province_item (province : AdministrativeRegion code geom)
    : QStandardItem (AdministrativeRegion code geom) :=
  StandardItem (name (fields province)) (Some province)
    (city_item <$> default [] (children province)).

(** [populate_browse_tree]: the rows of [browse_model] afterwards. *)
Definition populate_browse_tree (data_store : ProcessedData code geom)
    (browse_model : list (QStandardItem (AdministrativeRegion code geom)))
    : list (QStandardItem (AdministrativeRegion code geom)) :=
  match data_store with
  | [] => browse_model
  | _ => province_item <$> data_store
  end.

End Callers.

(** [main_data_processing]: [file] is the content of the document, [None]
    when it cannot be found, and [country] the fourth table that
    [load_shapefiles] returns beside the three of [shp_data]. *)
Definition main_data_processing {code geom country_row : Type}
    `{!EqDecision code} (file : option (list str))
    (country : option (GeoDataFrame country_row))
    (shp_data : ShpData code geom) : option (ProcessedData code geom) :=
  let parsed_md :=
    match file with
    | Some lines => default [] (parse_markdown lines)
    | None => []
    end in
  match parsed_md with
  | [] => None
  | _ =>
    if negb (loaded_and_not_empty country)
       || negb (loaded_and_not_empty (province shp_data))
       || negb (loaded_and_not_empty (city shp_data))
       || negb (loaded_and_not_empty (district shp_data))
    then None
    else Some (link_data parsed_md shp_data)
  end.

(** ** Vocabulary of the further properties *)

(** The title of a chapter heading line. *)
Definition chapter_title (line_content : str) : option str :=
  match strip line_content with
  | [] => None
  | line => (fun m => strip (group m 1)) <$> re_match H1_MD_PATTERN line
  end.

(** The rows of a model with all their descendants, in display order. *)
Fixpoint all_rows {data : Type} (item : QStandardItem data)
    : list (QStandardItem data) :=
  match item with
  | StandardItem _ _ rows => item :: flat_map all_rows rows
  end.

(** The number of levels of a record. *)
Fixpoint height {code geom : Type} (n : AdministrativeRegion code geom) : nat :=
  match n with
  | Region _ None => 1
  | Region _ (Some l) => S (foldr (fun c h => Nat.max (height c) h) 0%nat l)
  end.

(** The chapter titles of a parser state, in output order. *)
Definition root_names {code geom : Type} (st : @parser_state code geom)
    : list (option str) :=
  (fun r => name ∘ e_attrs <$> store st !! r) <$> processed_data st.

(** What a heading line fixes of an object. *)
Definition heading_of {code geom : Type} (e : entity code geom)
    : str * Z * option str :=
  (name (e_attrs e), level (e_attrs e), parent_name (e_attrs e)).

(** The store [h'] has the objects of [h], with the headings they had. *)
Definition headings_kept {code geom : Type} (h h' : list (entity code geom))
    : Prop :=
  ∀ r e, h !! r = Some e → ∃ e', h' !! r = Some e' ∧ heading_of e' = heading_of e.

(** A text with no white space at either end. *)
Definition trimmed (s : str) : Prop := strip s = s.

(** A record as the parser leaves it, apart from its heading: no parent
    identifier, and both texts trimmed. *)
Definition tidy {code geom : Type} (a : attrs code geom) : Prop :=
  parent_adcode a = None ∧ trimmed (text_general a) ∧ trimmed (text_detail a).

(** The three tiers of a parsed forest. *)
Definition district_under {code geom : Type}
    (c d : AdministrativeRegion code geom) : Prop :=
  level (fields d) = 3%Z
  ∧ parent_name (fields d) = Some (name (fields c))
  ∧ children d = None.

Definition city_under {code geom : Type}
    (p c : AdministrativeRegion code geom) : Prop :=
  level (fields c) = 2%Z
  ∧ parent_name (fields c) = Some (name (fields p))
  ∧ ∃ ds, children c = Some ds ∧ Forall (district_under c) ds.

Definition chapter_record {code geom : Type}
    (p : AdministrativeRegion code geom) : Prop :=
  level (fields p) = 1%Z
  ∧ parent_name (fields p) = None
  ∧ ∃ cs, children p = Some cs ∧ Forall (city_under p) cs.

(** The same three tiers in the store of the parser. *)
Definition child_of {code geom : Type} (h : list (entity code geom))
    (parent : entity code geom) (lv : Z) (c : nat) : Prop :=
  ∃ ec, h !! c = Some ec ∧ level (e_attrs ec) = lv
        ∧ parent_name (e_attrs ec) = Some (name (e_attrs parent)).

Definition tiered {code geom : Type} (h : list (entity code geom)) : Prop :=
  ∀ r e, h !! r = Some e →
    (level (e_attrs e) = 1%Z ∧ parent_name (e_attrs e) = None
     ∧ ∃ l, e_children e = Some l ∧ Forall (child_of h e 2%Z) l)
    ∨ (level (e_attrs e) = 2%Z
       ∧ ∃ l, e_children e = Some l ∧ Forall (child_of h e 3%Z) l)
    ∨ (level (e_attrs e) = 3%Z ∧ e_children e = None).

(** The numbers that the bottom-tier heading pattern accepts, and the
    part of the pattern up to the full stop after the number. *)
Definition district_numbers : list string :=
  ["1"; "2"; "3"; "4"; "5"; "6"; "7"; "8"; "9"; "10"; "11"; "12"; "13";
   "14"; "15"; "16"; "17"; "18"; "19"; "20"; "21"; "22"; "23"; "24";
   "25"]%string.

Definition h3_heading_prefix : regex :=
  Seq (Lit (lit "###")) (Seq (Star isspace)
    (Seq (Group (alt_of [Cls (in_range "1" "9");
                         Seq (Lit (lit "1")) (Cls (in_range "0" "9"));
                         Seq (Lit (lit "2")) (Cls (in_range "0" "5"))]))
         (Lit (lit ".")))).

(** ** link_data on tables as [gpd.read_file] gives them

    The tables of [link_data] above are complete: every row has an
    identifier and a boundary, and the columns that hold them exist.  A
    file promises neither.  In the tables of this module a cell of an
    identifier or boundary column can be null ([None]), and the columns
    that [link_data] reads without a test can be missing: the subscript
    [row["pr_adcode"]] then raises [KeyError] and the attribute
    [row.geometry] raises [AttributeError].  Nothing in [link_data] or in
    [main_data_processing] catches them, so this is how the call ends; the
    forest, changed in place up to there, is not seen again.  A name cell
    is the text that [astype(str)] makes of it. *)

Module Raw.

Inductive exception : Type :=
  | KeyError (key : string)
  | AttributeError (attr : string).

(** How a call ends. *)
Inductive result (A : Type) : Type :=
  | Ok (value : A)
  | Raise (e : exception).
Arguments Ok {A}.
Arguments Raise {A}.

Definition bind {A B : Type} (x : result A) (f : A -> result B) : result B :=
  match x with
  | Ok a => f a
  | Raise e => Raise e
  end.

(** A [for] loop whose body may raise: the elements in their order, up
    to the first that raises. *)
Fixpoint for_each {A B : Type} (f : A -> result B) (l : list A)
    : result (list B) :=
  match l with
  | [] => Ok []
  | x :: l' =>
    bind (f x) (fun y => bind (for_each f l') (fun ys => Ok (y :: ys)))
  end.

Record province_row {code geom : Type} : Type := ProvinceRow {
  pr_name : str;
  pr_adcode : option code;
  pr_geometry : option geom
}.
Arguments province_row : clear implicits.
Arguments ProvinceRow {code geom}.

Record city_row {code geom : Type} : Type := CityRow {
  ct_name : str;
  ct_adcode : option code;
  ct_pr_adcode : option code;
  ct_geometry : option geom
}.
Arguments city_row : clear implicits.
Arguments CityRow {code geom}.

Record district_row {code geom : Type} : Type := DistrictRow {
  dt_name : str;
  dt_adcode : option code;
  dt_ct_adcode : option code;
  dt_geometry : option geom
}.
Arguments district_row : clear implicits.
Arguments DistrictRow {code geom}.

Record ShpData {code geom : Type} : Type := Shp {
  province : option (GeoDataFrame (province_row code geom));
  city : option (GeoDataFrame (city_row code geom));
  district : option (GeoDataFrame (district_row code geom))
}.
Arguments ShpData : clear implicits.
Arguments Shp {code geom}.

Section Linker.
Context {code geom : Type} `{!EqDecision code}.

Implicit Types (a : attrs code geom) (n : AdministrativeRegion code geom).

(** [node["adcode"] = c; node["geometry"] = g], the cells as they are. *)
Definition assign a (c : option code) (g : option geom) : attrs code geom :=
  Attrs (name a) (level a) c (parent_name a) (parent_adcode a)
    (text_general a) (text_detail a) g.

(** [column == value] on one cell: a null on either side compares
    unequal. *)
Definition cell_equals (cell value : option code) : Prop :=
  is_Some cell ∧ cell = value.

#[global] Instance cell_equals_dec (cell value : option code) :
    Decision (cell_equals cell value) :=
  decide (is_Some cell ∧ cell = value).

(** The two reads from the matched row of [df], in their order. *)
Definition read_row {row : Type} (df : GeoDataFrame row) (id_column : string)
    (ident : option code) (bound : option geom) a : result (attrs code geom) :=
  if negb (has_column id_column df) then Raise (KeyError id_column)
  else if negb (has_column "geometry" df) then Raise (AttributeError "geometry")
  else Ok (assign a ident bound).

(** [for child in node.get("children", [])], the record rebuilt with
    what the body made of each child. *)
Definition for_children (f : AdministrativeRegion code geom ->
                             result (AdministrativeRegion code geom))
    (cs : option (list (AdministrativeRegion code geom)))
    : result (option (list (AdministrativeRegion code geom))) :=
  match cs with
  | None => Ok None
  | Some l => bind (for_each f l) (fun l' => Ok (Some l'))
  end.

(** The body of [for district_md in city_md.get("children", [])];
    [city_md] is the enclosing record after its own assignment. *)
Definition link_district (gdf_districts : GeoDataFrame (district_row code geom))
    (city_md : attrs code geom) n : result (AdministrativeRegion code geom) :=
  let district_md := n in
  let dist_name_md_normalized := normalize_name (Some (name (fields district_md))) in
  if negb (has_column "dt_name" gdf_districts)
     || negb (has_column "ct_adcode" gdf_districts)
  then Ok district_md
  else
    let potential_districts_shp :=
      filter (fun r => cell_equals (dt_ct_adcode r) (adcode city_md))
        (rows gdf_districts) in
    let matched_district_shp :=
      filter (fun r => normalize_name (Some (dt_name r)) = dist_name_md_normalized)
        potential_districts_shp in
    match matched_district_shp with
    | [] => Ok district_md
    | district_shp_row :: _ =>
      bind (read_row gdf_districts "dt_adcode" (dt_adcode district_shp_row)
              (dt_geometry district_shp_row) (fields district_md))
        (fun district_attrs => Ok (Region district_attrs (children district_md)))
    end.

(** The body of [for city_md in province_md.get("children", [])]. *)
Definition link_city (gdf_cities : GeoDataFrame (city_row code geom))
    (gdf_districts : GeoDataFrame (district_row code geom))
    (province_md : attrs code geom) n : result (AdministrativeRegion code geom) :=
  let city_md := n in
  let city_name_md_normalized := normalize_name (Some (name (fields city_md))) in
  if negb (has_column "ct_name" gdf_cities)
     || negb (has_column "pr_adcode" gdf_cities)
  then Ok city_md
  else
    let potential_cities_shp :=
      filter (fun r => cell_equals (ct_pr_adcode r) (adcode province_md))
        (rows gdf_cities) in
    let matched_city_shp :=
      filter (fun r => normalize_name (Some (ct_name r)) = city_name_md_normalized)
        potential_cities_shp in
    match matched_city_shp with
    | [] => Ok city_md
    | city_shp_row :: _ =>
      bind (read_row gdf_cities "ct_adcode" (ct_adcode city_shp_row)
              (ct_geometry city_shp_row) (fields city_md))
        (fun city_attrs =>
           bind (for_children (link_district gdf_districts city_attrs)
                   (children city_md))
             (fun cs => Ok (Region city_attrs cs)))
    end.

(** The body of [for province_md in md_data]. *)
Definition link_province (gdf_provinces : GeoDataFrame (province_row code geom))
    (gdf_cities : GeoDataFrame (city_row code geom))
    (gdf_districts : GeoDataFrame (district_row code geom))
    n : result (AdministrativeRegion code geom) :=
  let province_md := n in
  let prov_name_md_normalized := normalize_name (Some (name (fields province_md))) in
  if negb (has_column "pr_name" gdf_provinces)
  then Ok province_md
  else
    let matched_prov_shp :=
      filter (fun r => normalize_name (Some (pr_name r)) = prov_name_md_normalized)
        (rows gdf_provinces) in
    match matched_prov_shp with
    | [] => Ok province_md
    | province_shp_row :: _ =>
      bind (read_row gdf_provinces "pr_adcode" (pr_adcode province_shp_row)
              (pr_geometry province_shp_row) (fields province_md))
        (fun province_attrs =>
           bind (for_children (link_city gdf_cities gdf_districts province_attrs)
                   (children province_md))
             (fun cs => Ok (Region province_attrs cs)))
    end.

Definition essential_shp_loaded_and_not_empty (shp_data : ShpData code geom) : bool :=
  loaded_and_not_empty (province shp_data)
  && loaded_and_not_empty (city shp_data)
  && loaded_and_not_empty (district shp_data).

Definition link_data (md_data : ProcessedData code geom)
    (shp_data : ShpData code geom) : result (ProcessedData code geom) :=
  if bool_decide (md_data = [])
     || negb (essential_shp_loaded_and_not_empty shp_data)
  then Ok md_data
  else
    match province shp_data, city shp_data, district shp_data with
    | Some gdf_provinces, Some gdf_cities, Some gdf_districts =>
      for_each (link_province gdf_provinces gdf_cities gdf_districts) md_data
    | _, _, _ => Ok md_data
    end.

(** [main_data_processing]: [file] is the content of the document, [None]
    when it cannot be found, and [country] the fourth table that
    [load_shapefiles] returns beside the three of [shp_data].  The value
    is [None] where the function returns [None]. *)
Definition main_data_processing {country_row : Type}
    (file : option (list str)) (country : option (GeoDataFrame country_row))
    (shp_data : ShpData code geom) : result (option (ProcessedData code geom)) :=
  let parsed_md :=
    match file with
    | Some lines => default [] (parse_markdown lines)
    | None => []
    end in
  match parsed_md with
  | [] => Ok None
  | _ =>
    if negb (loaded_and_not_empty country)
       || negb (loaded_and_not_empty (province shp_data))
       || negb (loaded_and_not_empty (city shp_data))
       || negb (loaded_and_not_empty (district shp_data))
    then Ok None
    else bind (link_data parsed_md shp_data) (fun md => Ok (Some md))
  end.

End Linker.

(** *** Vocabulary *)

(** The entries that [link_data] leaves alone are equal. *)
Definition same_frame {code geom : Type} (a a' : attrs code geom) : Prop :=
  name a' = name a ∧ level a' = level a
  ∧ parent_name a' = parent_name a ∧ parent_adcode a' = parent_adcode a
  ∧ text_general a' = text_general a ∧ text_detail a' = text_detail a.

(** How [link_data] may change a record: only in identifier and boundary,
    its children the same in number and order, changed in this way
    themselves. *)
#[warnings="-register-all"]
Inductive evolves {code geom : Type}
    : AdministrativeRegion code geom -> AdministrativeRegion code geom -> Prop :=
  | evolves_leaf a a' :
      same_frame a a' → evolves (Region a None) (Region a' None)
  | evolves_node a a' l l' :
      same_frame a a' → Forall2 evolves l l' →
      evolves (Region a (Some l)) (Region a' (Some l')).

(** The row that is selected for a record of each tier: the first, in
    table order, with the normalized name of the record and, below the
    top tier, with the identifier that the parent holds; none when a
    column that the selection reads is missing. *)
Definition province_row_selected {code geom : Type}
    (gp : GeoDataFrame (province_row code geom))
    (p : AdministrativeRegion code geom) (r : province_row code geom) : Prop :=
  "pr_name" ∈ columns gp
  ∧ first_row (fun r => same_normalized_name (pr_name r) (name (fields p)))
      (rows gp) r.

Definition city_row_selected {code geom : Type}
    (gc : GeoDataFrame (city_row code geom)) (parent : attrs code geom)
    (c : AdministrativeRegion code geom) (r : city_row code geom) : Prop :=
  "ct_name" ∈ columns gc ∧ "pr_adcode" ∈ columns gc
  ∧ first_row (fun r => cell_equals (ct_pr_adcode r) (adcode parent)
                        ∧ same_normalized_name (ct_name r) (name (fields c)))
      (rows gc) r.

Definition district_row_selected {code geom : Type}
    (gd : GeoDataFrame (district_row code geom)) (parent : attrs code geom)
    (d : AdministrativeRegion code geom) (r : district_row code geom) : Prop :=
  "dt_name" ∈ columns gd ∧ "ct_adcode" ∈ columns gd
  ∧ first_row (fun r => cell_equals (dt_ct_adcode r) (adcode parent)
                        ∧ same_normalized_name (dt_name r) (name (fields d)))
      (rows gd) r.






(** The columns that [link_data] reads without a test are there. *)
Definition readable {code geom : Type} (shp_data : ShpData code geom) : Prop :=
  (∀ gp, province shp_data = Some gp →
         "pr_adcode" ∈ columns gp ∧ "geometry" ∈ columns gp)
  ∧ (∀ gc, city shp_data = Some gc →
           "ct_adcode" ∈ columns gc ∧ "geometry" ∈ columns gc)
  ∧ (∀ gd, district shp_data = Some gd →
           "dt_adcode" ∈ columns gd ∧ "geometry" ∈ columns gd).

(** The four tables are loaded and none is empty. *)
Definition tables_loaded {code geom country_row : Type}
    (country : option (GeoDataFrame country_row))
    (shp_data : ShpData code geom)
    (gp : GeoDataFrame (province_row code geom))
    (gc : GeoDataFrame (city_row code geom))
    (gd : GeoDataFrame (district_row code geom)) : Prop :=
  loaded_and_not_empty country = true
  ∧ province shp_data = Some gp ∧ city shp_data = Some gc
  ∧ district shp_data = Some gd
  ∧ empty gp = false ∧ empty gc = false ∧ empty gd = false.

End Raw.

(** A complete table as a table of [Raw]: the same columns, every cell
    filled. *)
Definition raw_province_row {code geom : Type} (r : province_row code geom)
    : Raw.province_row code geom :=
  Raw.ProvinceRow (pr_name r) (Some (pr_adcode r)) (Some (pr_geometry r)).

Definition raw_city_row {code geom : Type} (r : city_row code geom)
    : Raw.city_row code geom :=
  Raw.CityRow (ct_name r) (Some (ct_adcode r)) (Some (ct_pr_adcode r))
    (Some (ct_geometry r)).

Definition raw_district_row {code geom : Type} (r : district_row code geom)
    : Raw.district_row code geom :=
  Raw.DistrictRow (dt_name r) (Some (dt_adcode r)) (Some (dt_ct_adcode r))
    (Some (dt_geometry r)).

Definition raw_frame {row row' : Type} (f : row -> row')
    (df : GeoDataFrame row) : GeoDataFrame row' :=
  Frame (columns df) (f <$> rows df).

Definition raw_tables {code geom : Type} (shp_data : ShpData code geom)
    : Raw.ShpData code geom :=
  Raw.Shp (raw_frame raw_province_row <$> province shp_data)
    (raw_frame raw_city_row <$> city shp_data)
    (raw_frame raw_district_row <$> district shp_data).


Definition headless_tables : Raw.ShpData Z Z :=
  Raw.Shp
    (Some (Frame ["pr_name"; "geometry"]%string
             [Raw.ProvinceRow (lit "Guangdong") None (Some 100%Z)]))
    (Some (Frame ["ct_name"; "ct_adcode"; "pr_adcode"; "geometry"]%string
             [Raw.CityRow (lit "丙市") (Some 11%Z) (Some 1%Z) (Some 110%Z)]))
    (Some (Frame ["dt_name"; "dt_adcode"; "ct_adcode"; "geometry"]%string
             [Raw.DistrictRow (lit "丁区") (Some 111%Z) (Some 11%Z) (Some 1110%Z)])).


(** * Properties *)

(** ** Stripping *)

Lemma lstrip_by_decompose p s : ∃ k, s = k ++ lstrip_by p s.
Proof.
  induction s as [|c s [k IH]]; simpl.
  - by exists [].
  - destruct (p c).
    + exists (c :: k). simpl. by rewrite <- IH.
    + by exists [].
Qed.

Lemma rstrip_by_decompose p s : ∃ k, s = rstrip_by p s ++ k.
Proof.
  induction s as [|c s [k IH]]; simpl.
  - by exists [].
  - destruct (rstrip_by p s) as [|d t] eqn:E.
    + destruct (p c).
      * by exists (c :: s).
      * exists k. by rewrite IH.
    + exists k. by rewrite IH at 1.
Qed.

Lemma strip_by_decompose p s : ∃ k1 k2, s = k1 ++ strip_by p s ++ k2.
Proof.
  destruct (lstrip_by_decompose p s) as [k1 H1].
  destruct (rstrip_by_decompose p (lstrip_by p s)) as [k2 H2].
  exists k1, k2. unfold strip_by. by rewrite <- H2.
Qed.

Lemma strip_by_length p s : (length (strip_by p s) ≤ length s)%nat.
Proof.
  destruct (strip_by_decompose p s) as (k1 & k2 & H).
  apply (f_equal length) in H. rewrite !length_app in H. lia.
Qed.

Lemma strip_by_length_eq p s :
  length (strip_by p s) = length s → strip_by p s = s.
Proof.
  destruct (strip_by_decompose p s) as (k1 & k2 & H). intros Hlen.
  pose proof (f_equal length H) as HL. rewrite !length_app in HL.
  destruct k1; [|simpl in HL; lia]. destruct k2; [|simpl in HL; lia].
  simpl in H. by rewrite app_nil_r in H.
Qed.

Lemma rstrip_by_snoc p s c : p c = false → rstrip_by p (s ++ [c]) = s ++ [c].
Proof.
  intros H. induction s as [|d s IH]; simpl.
  - by rewrite H.
  - rewrite IH. by destruct s.
Qed.

Lemma strip_by_id p c s d :
  p c = false → p d = false → strip_by p (c :: s ++ [d]) = c :: s ++ [d].
Proof.
  intros Hc Hd. unfold strip_by. simpl. rewrite Hc.
  by apply (rstrip_by_snoc p (c :: s)).
Qed.

(** ** One step of the suffix loop *)

Lemma remove_suffix_applies name t :
  t `suffix_of` name → (length t < length name)%nat → t ≠ [] →
  remove_suffix name t = take (length name - length t) name.
Proof.
  intros Hs Hl Ht. unfold remove_suffix, endswith.
  rewrite bool_decide_eq_true_2 by done.
  destruct (Nat.ltb_spec (length t) (length name)); [|lia].
  simpl. by destruct t.
Qed.

Lemma remove_suffix_skips name t :
  ¬ (t `suffix_of` name ∧ (length t < length name)%nat) →
  remove_suffix name t = name.
Proof.
  intros H. unfold remove_suffix, endswith.
  case_bool_decide; simpl; [|done].
  destruct (Nat.ltb_spec (length t) (length name)); [tauto|done].
Qed.

Lemma remove_suffix_app r t :
  r ≠ [] → t ≠ [] → remove_suffix (r ++ t) t = r.
Proof.
  intros Hr Ht. rewrite remove_suffix_applies; try done.
  - rewrite length_app, Nat.add_sub. by rewrite take_app_length.
  - by exists r.
  - rewrite length_app. destruct r; [done|simpl; lia].
Qed.

Lemma remove_suffix_prefix name t : remove_suffix name t `prefix_of` name.
Proof.
  unfold remove_suffix. destruct (_ && _); [|done].
  destruct (length t); simpl; [apply prefix_nil|apply prefix_take].
Qed.


Lemma remove_suffix_fixed name t :
  t ≠ [] → remove_suffix name t = name →
  ¬ (t `suffix_of` name ∧ (length t < length name)%nat).
Proof.
  intros Ht E [Hs Hl]. rewrite remove_suffix_applies in E by done.
  apply (f_equal length) in E. rewrite length_take in E.
  destruct t; [done|]. simpl in *. lia.
Qed.

(** ** The whole loop *)

Lemma foldl_remove_suffix_prefix l name :
  foldl remove_suffix name l `prefix_of` name.
Proof.
  revert name. induction l as [|t l IH]; intros name; simpl; [done|].
  etrans; [apply IH|apply remove_suffix_prefix].
Qed.


Lemma foldl_remove_suffix_skips l name :
  Forall (λ t, ¬ (t `suffix_of` name ∧ (length t < length name)%nat)) l →
  foldl remove_suffix name l = name.
Proof.
  induction 1 as [|t l Ht _ IH]; simpl; [done|].
  by rewrite remove_suffix_skips.
Qed.

Lemma foldl_remove_suffix_fixed l name :
  Forall (λ t, t ≠ []) l → foldl remove_suffix name l = name →
  Forall (λ t, ¬ (t `suffix_of` name ∧ (length t < length name)%nat)) l.
Proof.
  intros Hl. revert name. induction Hl as [|t l Ht _ IH]; intros name E.
  - constructor.
  - simpl in E.
    assert (remove_suffix name t = name) as E1.
    { apply (anti_symm prefix); [apply remove_suffix_prefix|].
      rewrite <- E at 1. apply foldl_remove_suffix_prefix. }
    rewrite E1 in E. constructor; [by apply remove_suffix_fixed|by apply IH].
Qed.

Lemma suffixes_nonempty : Forall (λ t : str, t ≠ []) suffixes_to_remove.
Proof. repeat constructor; by vm_compute. Qed.

Lemma not_suffix_app (r s t : str) :
  t ≠ [] → s ≠ [] → last t ≠ last s → ¬ t `suffix_of` r ++ s.
Proof.
  intros Ht Hs Hne [k E]. apply Hne.
  apply (f_equal last) in E. rewrite !last_app in E.
  destruct (last t) eqn:Et, (last s) eqn:Es; try done.
  - by apply last_None in Es.
  - by apply last_None in Et.
Qed.

Lemma normalize_name_fixed_iff s :
  normalize_name (Some s) = s ↔ settled s.
Proof.
  unfold normalize_name, settled, strippable. split.
  - intros E.
    assert (strip s = s) as Hs.
    { apply strip_by_length_eq. apply Nat.le_antisymm; [apply strip_by_length|].
      rewrite <- E at 1. apply prefix_length, foldl_remove_suffix_prefix. }
    split; [done|]. rewrite Hs in E.
    by apply foldl_remove_suffix_fixed; [apply suffixes_nonempty|].
  - intros [Hs H]. rewrite Hs. by apply foldl_remove_suffix_skips.
Qed.

Lemma normalize_name_one_suffix name r s :
  strip name = r ++ s → s ∈ effective_suffixes → r ≠ [] →
  Forall (λ t, ¬ t `suffix_of` r) suffixes_to_remove →
  normalize_name (Some name) = r.
Proof.
  intros Hstrip Hs Hr Hfree. unfold normalize_name. rewrite Hstrip.
  unfold suffixes_to_remove in *. unfold effective_suffixes in Hs.
  repeat (apply Forall_cons in Hfree as [? Hfree]).
  repeat (apply elem_of_cons in Hs as [->|Hs]); [..|by apply elem_of_nil in Hs];
    cbn [foldl];
    repeat first
      [ rewrite remove_suffix_app by (done || by vm_compute)
      | rewrite (remove_suffix_skips (r ++ _)) by
          (intros [? _]; eapply not_suffix_app; [..|eassumption]; by vm_compute)
      | rewrite (remove_suffix_skips r) by (intros [? _]; done) ];
    done.
Qed.
(** ** normalize_name *)


(** A name equal to the listed suffix 自治县 is not returned unchanged:
    县, earlier in the list, is cut from it. *)
Lemma normalize_name_shadowed_suffix :
  lit "自治县" ∈ suffixes_to_remove
  ∧ normalize_name (Some (lit "自治县")) = lit "自治".
Proof.
  split.
  - apply (bool_decide_unpack _). by vm_compute.
  - by vm_compute.
Qed.





(** C5, as the claim states it, fails: the output of [normalize_name] can
    end in a suffix that a second application removes. *)
Lemma normalize_name_not_idempotent :
  normalize_name (Some (normalize_name (Some (lit "北京市区"))))
  ≠ normalize_name (Some (lit "北京市区")).
Proof. by vm_compute. Qed.

(** C5 (amended): applying [normalize_name] to its own output returns that
    output unchanged exactly when the output has no surrounding whitespace
    left and ends in no listed suffix that can still be cut. *)
Theorem normalize_name_idempotent_iff name :
  normalize_name (Some (normalize_name (Some name))) = normalize_name (Some name)
  ↔ settled (normalize_name (Some name)).
Proof. apply normalize_name_fixed_iff. Qed.

(** From here on [normalize_name] is used through the lemmas above only. *)
Opaque normalize_name.

(** ** Selecting the first matching row *)

Section Rows.
Context {row : Type} (P : row → Prop) `{Pdec : !∀ r, Decision (P r)}.

Lemma filter_nil_no_row (l : list row) : filter P l = [] ↔ no_row P l.
Proof.
  unfold no_row. induction l as [|x l IH].
  - split; [|done]. intros _ r Hr. by apply elem_of_nil in Hr.
  - rewrite filter_cons. destruct (decide (P x)) as [HP|HP].
    + split; [done|]. intros H. destruct (H x); [left|done].
    + rewrite IH. split.
      * intros H0 r [->|Hr]%elem_of_cons; auto.
      * intros H r Hr. apply H. by right.
Qed.

Lemma filter_cons_first_row (l : list row) r rest :
  filter P l = r :: rest → first_row P l r.
Proof.
  induction l as [|x l IH]; [done|].
  rewrite filter_cons. destruct (decide (P x)) as [HP|HP].
  - intros [= -> _]. exists 0%nat. repeat split; [done|]. intros; lia.
  - intros (i & Hi & Hr & Hmin)%IH. exists (S i). repeat split; try done.
    intros [|j] r' Hj Hl; simpl in Hl; [by simplify_eq|].
    apply (Hmin j); [lia|done].
Qed.

Lemma first_row_unique (l : list row) r1 r2 :
  first_row P l r1 → first_row P l r2 → r1 = r2.
Proof.
  intros (i1 & H1 & P1 & M1) (i2 & H2 & P2 & M2).
  destruct (Nat.lt_trichotomy i1 i2) as [Hlt|[->|Hlt]].
  - by destruct (M2 _ _ Hlt H1).
  - congruence.
  - by destruct (M1 _ _ Hlt H2).
Qed.

Lemma first_row_not_no_row (l : list row) r : first_row P l r → ¬ no_row P l.
Proof.
  intros (i & Hi & HP & _) H. apply (H r); [|done].
  by eapply list_elem_of_lookup_2.
Qed.

(** The selection [df[cond].iloc[0]], guarded by [not df[cond].empty]. *)
Lemma filter_cases (l : list row) :
  (filter P l = [] ∧ no_row P l)
  ∨ (∃ r rest, filter P l = r :: rest ∧ first_row P l r).
Proof.
  destruct (filter P l) as [|r rest] eqn:E.
  - left. split; [done|]. by apply filter_nil_no_row.
  - right. exists r, rest. split; [done|]. by eapply filter_cons_first_row.
Qed.

End Rows.

(** ** The three loop bodies of link_data *)

Section LinkerFacts.
Context {code geom : Type} `{!EqDecision code}.

Implicit Types (a : attrs code geom) (n p c d : AdministrativeRegion code geom).
Implicit Types (gp : GeoDataFrame (province_row code geom)).
Implicit Types (gc : GeoDataFrame (city_row code geom)).
Implicit Types (gd : GeoDataFrame (district_row code geom)).

Lemma has_column_true {row : Type} s (df : GeoDataFrame row) :
  s ∈ columns df → has_column s df = true.
Proof. intros H. unfold has_column. by apply bool_decide_eq_true_2. Qed.

(** The two selections of a lower tier, scope first and name second, keep
    the rows that match in both respects. *)
Lemma district_selection gd a d :
  filter (fun r => normalize_name (Some (dt_name r))
                   = normalize_name (Some (name (fields d))))
    (filter (fun r => Some (dt_ct_adcode r) = adcode a) (rows gd))
  = match adcode a with
    | Some x => filter (district_row_matches x d) (rows gd)
    | None => []
    end.
Proof.
  rewrite list_filter_filter. destruct (adcode a) as [x|].
  - apply list_filter_iff. intros r. unfold district_row_matches,
      same_normalized_name. split; [intros [? [= ?]]|intros [? ?]]; by subst.
  - apply filter_nil_no_row. intros r _ [_ ?]. done.
Qed.

Lemma city_selection gc a c :
  filter (fun r => normalize_name (Some (ct_name r))
                   = normalize_name (Some (name (fields c))))
    (filter (fun r => Some (ct_pr_adcode r) = adcode a) (rows gc))
  = match adcode a with
    | Some x => filter (city_row_matches x c) (rows gc)
    | None => []
    end.
Proof.
  rewrite list_filter_filter. destruct (adcode a) as [x|].
  - apply list_filter_iff. intros r. unfold city_row_matches,
      same_normalized_name. split; [intros [? [= ?]]|intros [? ?]]; by subst.
  - apply filter_nil_no_row. intros r _ [_ ?]. done.
Qed.

Lemma province_selection gp p :
  filter (fun r => normalize_name (Some (pr_name r))
                   = normalize_name (Some (name (fields p))))
    (rows gp)
  = filter (province_row_matches p) (rows gp).
Proof. by apply list_filter_iff. Qed.

(** *** Districts *)

Lemma link_district_miss gd a d :
  (∀ x, adcode a = Some x → no_row (district_row_matches x d) (rows gd)) →
  link_district gd a d = d.
Proof.
  intros H. unfold link_district. destruct (_ || _); [done|].
  rewrite district_selection. destruct (adcode a) as [x|]; [|done].
  by rewrite (proj2 (filter_nil_no_row _ _) (H x eq_refl)).
Qed.

Lemma link_district_hit gd a d x r :
  "dt_name" ∈ columns gd → "ct_adcode" ∈ columns gd →
  adcode a = Some x → first_row (district_row_matches x d) (rows gd) r →
  link_district gd a d
  = Region (assign (fields d) (dt_adcode r) (dt_geometry r)) (children d).
Proof.
  intros H1 H2 Ha Hr. unfold link_district.
  rewrite !has_column_true by done. cbn [negb orb].
  rewrite district_selection, Ha.
  destruct (filter_cases (district_row_matches x d) (rows gd))
    as [[_ Hno]|(r' & rest & -> & Hr')].
  - by destruct (first_row_not_no_row _ _ _ Hr).
  - by rewrite (first_row_unique _ _ _ _ Hr Hr').
Qed.

Lemma link_district_cases gd a d :
  link_district gd a d = d
  ∨ ∃ r, link_district gd a d
         = Region (assign (fields d) (dt_adcode r) (dt_geometry r)) (children d).
Proof.
  unfold link_district. destruct (_ || _); [by left|].
  destruct (filter _ (filter _ _)) as [|r rest]; [by left|].
  right. by exists r.
Qed.

(** *** Cities *)

Lemma link_city_miss gc gd a c :
  (∀ x, adcode a = Some x → no_row (city_row_matches x c) (rows gc)) →
  link_city gc gd a c = c.
Proof.
  intros H. unfold link_city. destruct (_ || _); [done|].
  rewrite city_selection. destruct (adcode a) as [x|]; [|done].
  by rewrite (proj2 (filter_nil_no_row _ _) (H x eq_refl)).
Qed.

Lemma link_city_hit gc gd a c x r :
  "ct_name" ∈ columns gc → "pr_adcode" ∈ columns gc →
  adcode a = Some x → first_row (city_row_matches x c) (rows gc) r →
  link_city gc gd a c
  = Region (assign (fields c) (ct_adcode r) (ct_geometry r))
      (fmap (M:=list) (link_district gd (assign (fields c) (ct_adcode r) (ct_geometry r)))
         <$> children c).
Proof.
  intros H1 H2 Ha Hr. unfold link_city.
  rewrite !has_column_true by done. cbn [negb orb].
  rewrite city_selection, Ha.
  destruct (filter_cases (city_row_matches x c) (rows gc))
    as [[_ Hno]|(r' & rest & -> & Hr')].
  - by destruct (first_row_not_no_row _ _ _ Hr).
  - by rewrite (first_row_unique _ _ _ _ Hr Hr').
Qed.

Lemma link_city_cases gc gd a c :
  link_city gc gd a c = c
  ∨ ∃ r, link_city gc gd a c
         = Region (assign (fields c) (ct_adcode r) (ct_geometry r))
             (fmap (M:=list) (link_district gd
                     (assign (fields c) (ct_adcode r) (ct_geometry r)))
                <$> children c).
Proof.
  unfold link_city. destruct (_ || _); [by left|].
  destruct (filter _ (filter _ _)) as [|r rest]; [by left|].
  right. by exists r.
Qed.

(** *** Provinces *)

Lemma link_province_miss gp gc gd p :
  no_row (province_row_matches p) (rows gp) → link_province gp gc gd p = p.
Proof.
  intros H. unfold link_province. destruct (negb _); [done|].
  rewrite province_selection.
  by rewrite (proj2 (filter_nil_no_row _ _) H).
Qed.

Lemma link_province_hit gp gc gd p r :
  "pr_name" ∈ columns gp → first_row (province_row_matches p) (rows gp) r →
  link_province gp gc gd p
  = Region (assign (fields p) (pr_adcode r) (pr_geometry r))
      (fmap (M:=list) (link_city gc gd (assign (fields p) (pr_adcode r) (pr_geometry r)))
         <$> children p).
Proof.
  intros H1 Hr. unfold link_province.
  rewrite !has_column_true by done. cbn [negb orb].
  rewrite province_selection.
  destruct (filter_cases (province_row_matches p) (rows gp))
    as [[_ Hno]|(r' & rest & -> & Hr')].
  - by destruct (first_row_not_no_row _ _ _ Hr).
  - by rewrite (first_row_unique _ _ _ _ Hr Hr').
Qed.

Lemma link_province_cases gp gc gd p :
  link_province gp gc gd p = p
  ∨ ∃ r, link_province gp gc gd p
         = Region (assign (fields p) (pr_adcode r) (pr_geometry r))
             (fmap (M:=list) (link_city gc gd
                     (assign (fields p) (pr_adcode r) (pr_geometry r)))
                <$> children p).
Proof.
  unfold link_province. destruct (negb _); [by left|].
  destruct (filter _ (rows gp)) as [|r rest]; [by left|].
  right. by exists r.
Qed.

(** *** The guard and the outer loop *)

Lemma loaded_and_not_empty_false {row : Type} (t : option (GeoDataFrame row)) :
  absent_or_empty t → loaded_and_not_empty t = false.
Proof.
  destruct t as [df|]; [|done]. simpl. unfold empty.
  intros [->| ->]; simpl; [done|]. by rewrite orb_true_r.
Qed.

Lemma link_data_cases md (shp_data : ShpData code geom) :
  link_data md shp_data = md
  ∨ ∃ gp gc gd,
      province shp_data = Some gp ∧ city shp_data = Some gc
      ∧ district shp_data = Some gd
      ∧ link_data md shp_data = (link_province gp gc gd <$> md).
Proof.
  unfold link_data. destruct (_ || _); [by left|].
  destruct (province shp_data) as [gp|]; [|by left].
  destruct (city shp_data) as [gc|]; [|by left].
  destruct (district shp_data) as [gd|]; [|by left].
  right. by exists gp, gc, gd.
Qed.

Lemma link_data_loaded md (shp_data : ShpData code geom) gp gc gd :
  reference_tables shp_data gp gc gd →
  link_data md shp_data = (link_province gp gc gd <$> md).
Proof.
  intros (Hp & Hc & Hd & Rp & Rc & Rd & Cp & Cc & _ & Cd & _).
  unfold link_data, essential_shp_loaded_and_not_empty. rewrite Hp, Hc, Hd.
  assert (∀ row (df : GeoDataFrame row) s,
            rows df ≠ [] → s ∈ columns df → empty df = false) as Hne.
  { intros row df s Hr Hs. unfold empty.
    rewrite !bool_decide_eq_false_2; try done.
    intros E. rewrite E in Hs. by apply elem_of_nil in Hs. }
  simpl. rewrite (Hne _ gp _ Rp Cp), (Hne _ gc _ Rc Cc), (Hne _ gd _ Rd Cd).
  simpl. rewrite orb_false_r. case_bool_decide; [by subst|done].
Qed.


(** *** Trees *)

Lemma region_ind' (P : AdministrativeRegion code geom → Prop) :
  (∀ a, P (Region a None)) →
  (∀ a l, Forall P l → P (Region a (Some l))) →
  ∀ n, P n.
Proof.
  intros Hleaf Hnode. fix IH 1. intros [a [l|]]; [|apply Hleaf].
  apply Hnode. induction l as [|x l IHl]; constructor; [apply IH|apply IHl].
Qed.

Lemma evolves_ind' (P : AdministrativeRegion code geom →
                        AdministrativeRegion code geom → Prop) :
  (∀ a a', same_frame a a' → P (Region a None) (Region a' None)) →
  (∀ a a' l l', same_frame a a' → Forall2 evolves l l' → Forall2 P l l' →
     P (Region a (Some l)) (Region a' (Some l'))) →
  ∀ n n', evolves n n' → P n n'.
Proof.
  intros Hleaf Hnode. fix IH 3. intros n n' [a a' Hf|a a' l l' Hf Hl].
  - by apply Hleaf.
  - apply Hnode; [done..|].
    induction Hl as [|x y l l' Hxy Hl IHl]; constructor; [by apply IH|apply IHl].
Qed.

Lemma subtrees_self n : n ∈ subtrees n.
Proof. destruct n as [a [l|]]; simpl; left. Qed.

Lemma subtrees_node a l m :
  m ∈ subtrees (Region a (Some l)) ↔
  m = Region a (Some l) ∨ ∃ c, c ∈ l ∧ m ∈ subtrees c.
Proof.
  simpl. rewrite elem_of_cons, list_elem_of_In, in_flat_map.
  setoid_rewrite <- list_elem_of_In. done.
Qed.

Lemma subtrees_trans n m : m ∈ subtrees n → subtrees m ⊆ subtrees n.
Proof.
  revert m. induction n as [a|a l IH] using region_ind'; intros m Hm.
  - apply list_elem_of_singleton in Hm as ->. done.
  - apply subtrees_node in Hm as [->|(c & Hc & Hm)]; [done|].
    intros x Hx. apply subtrees_node. right. exists c. split; [done|].
    rewrite Forall_forall in IH. by apply (IH c Hc m Hm).
Qed.

Lemma nodes_elem (md : ProcessedData code geom) m :
  m ∈ nodes md ↔ ∃ n, n ∈ md ∧ m ∈ subtrees n.
Proof.
  unfold nodes. rewrite list_elem_of_In, in_flat_map.
  setoid_rewrite <- list_elem_of_In. done.
Qed.

Lemma Forall_subtrees_node (Q : AdministrativeRegion code geom → Prop) a l :
  Forall Q (subtrees (Region a (Some l))) ↔
  Q (Region a (Some l)) ∧ Forall (fun c => Forall Q (subtrees c)) l.
Proof.
  rewrite !Forall_forall. setoid_rewrite Forall_forall.
  setoid_rewrite subtrees_node. split.
  - intros H. split; [by apply H; left|]. intros c Hc m Hm. apply H. eauto.
  - intros [H1 H2] m [->|(c & Hc & Hm)]; eauto.
Qed.

Lemma Forall_nodes (Q : AdministrativeRegion code geom → Prop)
    (md : ProcessedData code geom) :
  Forall Q (nodes md) ↔ Forall (fun n => Forall Q (subtrees n)) md.
Proof.
  rewrite !Forall_forall. setoid_rewrite Forall_forall.
  setoid_rewrite nodes_elem. split.
  - intros H n Hn m Hm. apply H. eauto.
  - intros H m (n & Hn & Hm). eauto.
Qed.

Lemma node_at_1 (md : ProcessedData code geom) i : node_at md [i] = md !! i.
Proof. done. Qed.

Lemma node_at_cons (md : ProcessedData code geom) i j rest n :
  node_at md (i :: j :: rest) = Some n ↔
  ∃ a l, md !! i = Some (Region a (Some l)) ∧ node_at l (j :: rest) = Some n.
Proof.
  cbn [node_at]. split.
  - destruct (md !! i) as [[a [l|]]|]; try done. eauto.
  - by intros (a & l & -> & H).
Qed.

Arguments node_at : simpl never.

(** *** The frame of one step *)

Lemma same_frame_refl a : same_frame a a.
Proof. unfold same_frame. tauto. Qed.

Lemma same_frame_assign a (x : code) (g : geom) : same_frame a (assign a x g).
Proof. unfold same_frame. simpl. repeat split; try done. right. eauto. Qed.

Lemma evolves_refl n : evolves n n.
Proof.
  induction n as [a|a l IH] using region_ind'.
  - apply evolves_leaf, same_frame_refl.
  - apply evolves_node; [apply same_frame_refl|]. by apply Forall_Forall2_diag.
Qed.

Lemma evolves_children a a' (cs : option (list (AdministrativeRegion code geom)))
    (f : AdministrativeRegion code geom → AdministrativeRegion code geom) :
  same_frame a a' → (∀ c, evolves c (f c)) →
  evolves (Region a cs) (Region a' (fmap (M:=list) f <$> cs)).
Proof.
  intros Ha Hf. destruct cs as [l|]; simpl; [|by apply evolves_leaf].
  apply evolves_node; [done|]. apply Forall2_fmap_r, Forall_Forall2_diag.
  apply Forall_forall. intros c _. apply Hf.
Qed.

Lemma evolves_attrs a a' (cs : option (list (AdministrativeRegion code geom))) :
  same_frame a a' → evolves (Region a cs) (Region a' cs).
Proof.
  intros Ha. destruct cs as [l|]; [|by apply evolves_leaf].
  apply evolves_node; [done|]. apply Forall_Forall2_diag, Forall_forall.
  intros c _. apply evolves_refl.
Qed.

Lemma link_district_evolves gd a d : evolves d (link_district gd a d).
Proof.
  destruct (link_district_cases gd a d) as [->|[r ->]]; [apply evolves_refl|].
  destruct d as [ad cs]. apply evolves_attrs, same_frame_assign.
Qed.

Lemma link_city_evolves gc gd a c : evolves c (link_city gc gd a c).
Proof.
  destruct (link_city_cases gc gd a c) as [->|[r ->]]; [apply evolves_refl|].
  destruct c as [ac cs]. apply evolves_children; [apply same_frame_assign|].
  intros d. apply link_district_evolves.
Qed.

Lemma link_province_evolves gp gc gd p : evolves p (link_province gp gc gd p).
Proof.
  destruct (link_province_cases gp gc gd p) as [->|[r ->]]; [apply evolves_refl|].
  destruct p as [ap cs]. apply evolves_children; [apply same_frame_assign|].
  intros c. apply link_city_evolves.
Qed.

Lemma link_data_evolves md (shp_data : ShpData code geom) :
  Forall2 evolves md (link_data md shp_data).
Proof.
  destruct (link_data_cases md shp_data) as [->|(gp & gc & gd & _ & _ & _ & ->)].
  - apply Forall_Forall2_diag, Forall_forall. intros n _. apply evolves_refl.
  - apply Forall2_fmap_r, Forall_Forall2_diag, Forall_forall.
    intros n _. apply link_province_evolves.
Qed.

(** A property of single records that [same_frame] carries over holds of
    every record after the change when it held of every record before. *)
Lemma evolves_Forall_subtrees (Q : AdministrativeRegion code geom → Prop) :
  (∀ a a' cs cs', same_frame a a' → Q (Region a cs) → Q (Region a' cs')) →
  ∀ n n', evolves n n' → Forall Q (subtrees n) → Forall Q (subtrees n').
Proof.
  intros HQ.
  apply (evolves_ind'
           (fun n n' => Forall Q (subtrees n) → Forall Q (subtrees n'))).
  - intros a a' Hf. simpl. rewrite !Forall_singleton. by apply HQ.
  - intros a a' l l' Hf Hl IH.
    rewrite !Forall_subtrees_node. intros [H1 H2]. split; [by eapply HQ|].
    clear Hl H1. induction IH as [|x y l l' Hxy _ IHl]; [constructor|].
    apply Forall_cons in H2 as [Hx H2]. constructor; [by apply Hxy|by apply IHl].
Qed.

Lemma evolves_Forall_nodes (Q : AdministrativeRegion code geom → Prop)
    (md md' : ProcessedData code geom) :
  (∀ a a' cs cs', same_frame a a' → Q (Region a cs) → Q (Region a' cs')) →
  Forall2 evolves md md' → Forall Q (nodes md) → Forall Q (nodes md').
Proof.
  intros HQ H. rewrite !Forall_nodes.
  induction H as [|x y l l' Hxy _ IH]; [constructor|].
  intros [Hx Hl]%Forall_cons. constructor; [|by apply IH].
  by eapply evolves_Forall_subtrees.
Qed.

Lemma link_data_linked_together md (shp_data : ShpData code geom) :
  Forall linked_together (nodes md) →
  Forall linked_together (nodes (link_data md shp_data)).
Proof.
  apply evolves_Forall_nodes; [|apply link_data_evolves].
  unfold linked_together, same_frame. simpl.
  intros a a' _ _ (_ & _ & _ & _ & _ & _ & [[-> ->]|[? ?]]); tauto.
Qed.

(** *** Propagation of a miss *)

Lemma unlinked_closed n : Forall unlinked (subtrees n) → closed_downwards n.
Proof.
  intros H m Hm _. apply Forall_forall. intros x Hx.
  rewrite Forall_forall in H. apply H. by eapply subtrees_trans.
Qed.

Lemma closed_linked_node a (cs cs' : option (list (AdministrativeRegion code geom))) :
  is_Some (adcode a) →
  (∀ l, cs = Some l → Forall closed_downwards l) →
  closed_downwards (Region a cs).
Proof.
  intros [x Hx] Hcs m Hm Hnone. destruct cs as [l|].
  - apply subtrees_node in Hm as [->|(c & Hc & Hm)].
    + simpl in Hnone. congruence.
    + specialize (Hcs l eq_refl). rewrite Forall_forall in Hcs.
      by apply (Hcs c Hc).
  - apply list_elem_of_singleton in Hm as ->. simpl in Hnone. congruence.
Qed.

Lemma Forall_unlinked_children a l :
  Forall unlinked (subtrees (Region a (Some l))) →
  Forall (fun c : AdministrativeRegion code geom => Forall unlinked (subtrees c)) l.
Proof. by intros [_ ?]%Forall_subtrees_node. Qed.

Lemma link_district_closed gd a d :
  Forall unlinked (subtrees d) → closed_downwards (link_district gd a d).
Proof.
  intros H. destruct (link_district_cases gd a d) as [->|[r ->]];
    [by apply unlinked_closed|].
  apply (closed_linked_node _ _ None); [by eexists|].
  intros l Hl. destruct d as [ad cs]. simpl in Hl. subst cs.
  apply Forall_unlinked_children in H.
  eapply Forall_impl; [done|]. intros c. apply unlinked_closed.
Qed.

Lemma link_city_closed gc gd a c :
  Forall unlinked (subtrees c) → closed_downwards (link_city gc gd a c).
Proof.
  intros H. destruct (link_city_cases gc gd a c) as [->|[r ->]];
    [by apply unlinked_closed|].
  apply (closed_linked_node _ _ None); [by eexists|].
  intros l Hl. destruct c as [ac [ds|]]; [|done]. simpl in Hl.
  injection Hl as <-. apply Forall_unlinked_children in H.
  apply Forall_fmap. eapply Forall_impl; [done|].
  intros d Hd. by apply link_district_closed.
Qed.

Lemma link_province_closed gp gc gd p :
  Forall unlinked (subtrees p) → closed_downwards (link_province gp gc gd p).
Proof.
  intros H. destruct (link_province_cases gp gc gd p) as [->|[r ->]];
    [by apply unlinked_closed|].
  apply (closed_linked_node _ _ None); [by eexists|].
  intros l Hl. destruct p as [ap [cs|]]; [|done]. simpl in Hl.
  injection Hl as <-. apply Forall_unlinked_children in H.
  apply Forall_fmap. eapply Forall_impl; [done|].
  intros c Hc. by apply link_city_closed.
Qed.

Lemma link_data_closed md (shp_data : ShpData code geom) :
  Forall unlinked (nodes md) →
  Forall closed_downwards (link_data md shp_data).
Proof.
  rewrite Forall_nodes. intros H.
  destruct (link_data_cases md shp_data) as [->|(gp & gc & gd & _ & _ & _ & ->)].
  - eapply Forall_impl; [done|]. intros n. apply unlinked_closed.
  - apply Forall_fmap. eapply Forall_impl; [done|].
    intros n Hn. by apply link_province_closed.
Qed.

(** *** The claims about link_data *)

(** C2: when one of the three required tables is missing from the
    collection or empty, [link_data] returns the forest it was given. *)
Theorem link_data_missing_tables md (shp_data : ShpData code geom) :
  absent_or_empty (province shp_data) ∨ absent_or_empty (city shp_data)
  ∨ absent_or_empty (district shp_data) →
  link_data md shp_data = md.
Proof.
  intros H. unfold link_data, essential_shp_loaded_and_not_empty.
  destruct H as [H|[H|H]]; rewrite (loaded_and_not_empty_false _ H);
    cbn [andb negb]; rewrite ?andb_false_r, ?orb_true_r; done.
Qed.

Lemma resolves_link_city gc gd a c x :
  "ct_name" ∈ columns gc → "pr_adcode" ∈ columns gc → adcode a = Some x →
  resolves (city_row_matches x c) (rows gc) ct_adcode ct_geometry
    (fields c) (fields (link_city gc gd a c)).
Proof.
  intros H1 H2 Ha. split.
  - intros r Hr. by rewrite (link_city_hit gc gd a c x r).
  - intros Hno. rewrite link_city_miss; [done|].
    intros y Hy. by replace y with x by congruence.
Qed.

Lemma resolves_link_district gd a d x :
  "dt_name" ∈ columns gd → "ct_adcode" ∈ columns gd → adcode a = Some x →
  resolves (district_row_matches x d) (rows gd) dt_adcode dt_geometry
    (fields d) (fields (link_district gd a d)).
Proof.
  intros H1 H2 Ha. split.
  - intros r Hr. by rewrite (link_district_hit gd a d x r).
  - intros Hno. rewrite link_district_miss; [done|].
    intros y Hy. by replace y with x by congruence.
Qed.

(** C1: under a level-1 record that was linked to the row [prow], the
    level-2 record at position [j] gets the identifier and boundary of the
    first row of the city table, in table order, whose parent identifier is
    the one just assigned to the level-1 record and whose normalized name
    is that of the record, and is left as it was when no row is both; and
    the same one level down, with the district table and the identifier
    just assigned to the level-2 record. *)
Theorem link_data_scoped_first_match md (shp_data : ShpData code geom)
    gp gc gd i j p c prow :
  reference_tables shp_data gp gc gd →
  node_at md [i] = Some p → node_at md [i; j] = Some c →
  first_row (province_row_matches p) (rows gp) prow →
  (∃ c', node_at (link_data md shp_data) [i; j] = Some c'
         ∧ resolves (city_row_matches (pr_adcode prow) c) (rows gc)
             ct_adcode ct_geometry (fields c) (fields c'))
  ∧ (∀ k d crow,
       node_at md [i; j; k] = Some d →
       first_row (city_row_matches (pr_adcode prow) c) (rows gc) crow →
       ∃ d', node_at (link_data md shp_data) [i; j; k] = Some d'
             ∧ resolves (district_row_matches (ct_adcode crow) d) (rows gd)
                 dt_adcode dt_geometry (fields d) (fields d')).
Proof.
  intros Ht Hp Hc Hprow. rewrite (link_data_loaded _ _ _ _ _ Ht).
  destruct Ht as (_ & _ & _ & _ & _ & _ & Cp & Cc1 & Cc2 & Cd1 & Cd2).
  rewrite node_at_1 in Hp.
  apply node_at_cons in Hc as (ap & cs & Hp' & Hc). rewrite node_at_1 in Hc.
  assert (p = Region ap (Some cs)) as -> by congruence. clear Hp'.
  set (ap' := assign ap (pr_adcode prow) (pr_geometry prow)).
  assert ((link_province gp gc gd <$> md) !! i
          = Some (Region ap' (Some (link_city gc gd ap' <$> cs)))) as Hi.
  { rewrite list_lookup_fmap, Hp. simpl. f_equal.
    by rewrite (link_province_hit gp gc gd _ prow). }
  split.
  - exists (link_city gc gd ap' c). split.
    + apply node_at_cons. eexists _, _. split; [exact Hi|].
      rewrite node_at_1, list_lookup_fmap, Hc. done.
    + by apply resolves_link_city.
  - intros k d crow Hd Hcrow.
    apply node_at_cons in Hd as (ap0 & cs0 & Hp0 & Hd).
    assert (cs0 = cs) as -> by congruence. clear Hp0 ap0.
    apply node_at_cons in Hd as (ac & ds & Hc' & Hd). rewrite node_at_1 in Hd.
    assert (c = Region ac (Some ds)) as -> by congruence. clear Hc'.
    set (ac' := assign ac (ct_adcode crow) (ct_geometry crow)).
    exists (link_district gd ac' d). split.
    + apply node_at_cons. eexists _, _. split; [exact Hi|].
      apply node_at_cons. eexists ac', _. split.
      * rewrite list_lookup_fmap, Hc. simpl. f_equal.
        by rewrite (link_city_hit gc gd ap' _ (pr_adcode prow) crow).
      * rewrite node_at_1, list_lookup_fmap, Hd. done.
    + by apply resolves_link_district.
Qed.

(** C3: a record whose match misses is left exactly as it was, with all
    its descendants: a level-1 record when no row of the province table
    has its normalized name, a level-2 or level-3 record when no row matches
    it within the scope of its parent's identifier, which is every record
    under a parent that has no identifier.  Hence, in a forest that was
    unlinked on entry, nothing is linked below a record that has no
    identifier after [link_data]. *)
Theorem link_data_miss_propagates md (shp_data : ShpData code geom) :
  (∀ gp i p,
     province shp_data = Some gp → node_at md [i] = Some p →
     no_row (province_row_matches p) (rows gp) →
     node_at (link_data md shp_data) [i] = Some p)
  ∧ (∀ gc i j p' c,
       city shp_data = Some gc →
       node_at (link_data md shp_data) [i] = Some p' →
       node_at md [i; j] = Some c →
       (∀ x, adcode (fields p') = Some x →
             no_row (city_row_matches x c) (rows gc)) →
       node_at (link_data md shp_data) [i; j] = Some c)
  ∧ (∀ gd i j k c' d,
       district shp_data = Some gd →
       node_at (link_data md shp_data) [i; j] = Some c' →
       node_at md [i; j; k] = Some d →
       (∀ x, adcode (fields c') = Some x →
             no_row (district_row_matches x d) (rows gd)) →
       node_at (link_data md shp_data) [i; j; k] = Some d)
  ∧ (Forall unlinked (nodes md) →
     ∀ n, n ∈ nodes (link_data md shp_data) → adcode (fields n) = None →
          Forall unlinked (subtrees n)).
Proof.
  split; [|split; [|split]].
  - intros gp i p Hgp Hp Hno.
    destruct (link_data_cases md shp_data)
      as [->|(gp' & gc & gd & Hgp' & _ & _ & ->)]; [done|].
    assert (gp' = gp) as -> by congruence.
    rewrite node_at_1 in *. rewrite list_lookup_fmap, Hp. simpl.
    by rewrite link_province_miss.
  - intros gc i j p' c Hgc Hp' Hc Hno.
    destruct (link_data_cases md shp_data)
      as [->|(gp & gc' & gd & _ & Hgc' & _ & E)]; [done|].
    assert (gc' = gc) as -> by congruence. rewrite E in *. clear E.
    apply node_at_cons in Hc as (ap & cs & Hp & Hc). rewrite node_at_1 in Hc.
    rewrite node_at_1, list_lookup_fmap, Hp in Hp'. simpl in Hp'.
    apply node_at_cons.
    destruct (link_province_cases gp gc gd (Region ap (Some cs)))
      as [E|[r E]]; rewrite E in Hp'; injection Hp' as <-.
    + exists ap, cs. rewrite list_lookup_fmap, Hp. simpl. by rewrite E.
    + eexists _, _. rewrite list_lookup_fmap, Hp. simpl. rewrite E.
      split; [done|]. rewrite node_at_1, list_lookup_fmap, Hc. simpl.
      by rewrite link_city_miss.
  - intros gd i j k c' d Hgd Hc' Hd Hno.
    destruct (link_data_cases md shp_data)
      as [->|(gp & gc & gd' & _ & _ & Hgd' & E)]; [done|].
    assert (gd' = gd) as -> by congruence. rewrite E in *. clear E.
    apply node_at_cons in Hd as (ap & cs & Hp & Hd).
    apply node_at_cons in Hd as (ac & ds & Hc & Hd). rewrite node_at_1 in Hd.
    apply node_at_cons in Hc' as (ap' & cs' & Hp' & Hc').
    rewrite node_at_1 in Hc'.
    rewrite list_lookup_fmap, Hp in Hp'. simpl in Hp'.
    apply node_at_cons. exists ap', cs'. split.
    { by rewrite list_lookup_fmap, Hp. }
    destruct (link_province_cases gp gc gd (Region ap (Some cs)))
      as [E|[r E]]; rewrite E in Hp'; injection Hp' as <- <-.
    + apply node_at_cons. by exists ac, ds.
    + rewrite list_lookup_fmap, Hc in Hc'. simpl in Hc'. injection Hc' as <-.
      apply node_at_cons. rewrite list_lookup_fmap, Hc. simpl.
      destruct (link_city_cases gc gd
                  (assign ap (pr_adcode r) (pr_geometry r)) (Region ac (Some ds)))
        as [E'|[r' E']]; rewrite E' in *.
      * by exists ac, ds.
      * eexists _, _. split; [done|].
        rewrite node_at_1, list_lookup_fmap, Hd. simpl.
        by rewrite link_district_miss.
  - intros Hun n (p & Hp & Hn)%nodes_elem Hnone.
    pose proof (link_data_closed md shp_data Hun) as Hcl.
    rewrite Forall_forall in Hcl. by apply (Hcl p Hp n Hn).
Qed.

End LinkerFacts.

(** *** The claims about link_data on the sample data *)

Lemma sample_reference_tables :
  ∃ gp gc gd, reference_tables sample_tables gp gc gd.
Proof.
  eexists _, _, _. unfold reference_tables, sample_tables. simpl.
  repeat split; try done; by apply (bool_decide_unpack _); vm_compute.
Qed.

Lemma first_row_here {row : Type} (P : row → Prop) (r : row) l :
  P r → first_row P (r :: l) r.
Proof. intros HP. exists 0%nat. repeat split; [done|]. intros; lia. Qed.

Lemma first_row_later {row : Type} (P : row → Prop) (r r0 : row) l :
  ¬ P r0 → first_row P l r → first_row P (r0 :: l) r.
Proof.
  intros HP (i & Hi & Hr & Hmin). exists (S i). repeat split; [done..|].
  intros [|j] r' Hj Hl; simpl in Hl; [by simplify_eq|].
  apply (Hmin j); [lia|done].
Qed.

Lemma link_data_missing_tables_witness :
  link_data sample_forest (Shp (province sample_tables) None (district sample_tables))
  = sample_forest.
Proof. apply link_data_missing_tables. right. left. exact I. Defined.

Lemma link_data_scoped_first_match_witness :
  (∃ c', node_at (link_data sample_forest sample_tables) [0; 0]%nat = Some c'
         ∧ adcode (fields c') = Some 11%Z ∧ geometry (fields c') = Some 110%Z)
  ∧ (∃ d', node_at (link_data sample_forest sample_tables) [0; 0; 0]%nat = Some d'
           ∧ adcode (fields d') = Some 111%Z
           ∧ geometry (fields d') = Some 1110%Z).
Proof.
  destruct sample_reference_tables as (gp & gc & gd & Ht).
  pose proof Ht as (Hgp & Hgc & Hgd & _).
  injection Hgp as <-. injection Hgc as <-. injection Hgd as <-.
  set (c := sample_city (lit "丙") [sample_district None (lit "丁");
                                    sample_district None (lit "戊")]).
  set (crow := CityRow (lit "丙市") 11%Z 1%Z 110%Z).
  assert (first_row (city_row_matches 1%Z c)
            [CityRow (lit "丙市") 21%Z 2%Z 210%Z; crow;
             CityRow (lit "丙") 12%Z 1%Z 120%Z] crow) as Hcrow.
  { apply first_row_later; [by intros [? _]|].
    apply first_row_here. split; [done|]. by vm_compute. }
  destruct (link_data_scoped_first_match sample_forest sample_tables _ _ _
              0 0 _ c (ProvinceRow (lit "甲省") 1%Z 100%Z) Ht eq_refl eq_refl)
    as [(c' & Hc' & Hres & _) Hdown].
  { apply first_row_here. by vm_compute. }
  split.
  - exists c'. split; [done|]. by rewrite (Hres crow Hcrow).
  - destruct (Hdown 0%nat (sample_district None (lit "丁")) crow eq_refl Hcrow)
      as (d' & Hd' & Hresd & _).
    exists d'. split; [done|].
    rewrite (Hresd (DistrictRow (lit "丁区") 111%Z 11%Z 1110%Z)); [done|].
    apply first_row_later; [by intros [? _]|].
    apply first_row_here. split; [done|]. by vm_compute.
Defined.

Lemma link_data_miss_propagates_witness :
  node_at (link_data sample_forest sample_tables) [0; 1]%nat
  = Some (sample_city (lit "己") [sample_district None (lit "丁")])
  ∧ Forall unlinked
      (subtrees (sample_city (lit "己") [sample_district None (lit "丁")])).
Proof.
  destruct (link_data_miss_propagates sample_forest sample_tables)
    as (_ & Hcity & _ & Hclosed).
  assert (node_at (link_data sample_forest sample_tables) [0; 1]%nat
          = Some (sample_city (lit "己") [sample_district None (lit "丁")]))
    as Hn.
  { eapply (Hcity _ 0%nat 1%nat); [reflexivity|by vm_compute|reflexivity|].
    intros x [= <-] r Hr [_ Hname].
    repeat (apply elem_of_cons in Hr as [->|Hr]);
      [by vm_compute in Hname..|by apply elem_of_nil in Hr]. }
  split; [done|]. apply Hclosed.
  - repeat constructor.
  - apply nodes_elem. eexists. split; [by left|].
    apply node_at_cons in Hn as (a & l & Hl & Hn).
    vm_compute in Hl. injection Hl as <- <-.
    apply subtrees_node. right. eexists. split; [|apply subtrees_self].
    by right; left.
  - done.
Defined.

(** ** The parser, line by line *)

Section ParserFacts.
Context {code geom : Type}.

Implicit Types (st : @parser_state code geom) (e : entity code geom).
Implicit Types (h : list (entity code geom)).

Lemma process_line_blank st line_content :
  strip line_content = [] → process_line st line_content = st.
Proof. intros H. unfold process_line. by rewrite H. Qed.

Lemma process_line_narrative st line_content :
  narrative_line line_content →
  process_line st line_content = on_text line_content st.
Proof.
  intros (H0 & H1 & H2 & H3 & H4 & H5). unfold process_line.
  destruct (strip line_content) as [|c s]; [done|].
  rewrite H1, H2, H3, H4, H5.
  by destruct (current_province st), (current_city st).
Qed.

Lemma rmatch_Lit_Some l s caps k m :
  rmatch (Lit l) s caps k = Some m → ∃ s', s = l ++ s' ∧ k s' caps = Some m.
Proof.
  cbn [rmatch]. case_bool_decide as Hl; [|done]. destruct Hl as [s' ->].
  rewrite drop_app_length. eauto.
Qed.

(** A line that the top-tier general marker matches starts with two
    number signs; the top-tier heading pattern wants white space after
    the first. *)
Lemma h2_special_zero_not_h1 s :
  is_Some (re_match H2_SPECIAL_ZERO_PATTERN s) →
  s ≠ [] ∧ re_match H1_MD_PATTERN s = None.
Proof.
  intros [m Hm]. unfold re_match in Hm.
  destruct (rmatch H2_SPECIAL_ZERO_PATTERN s [] _) as [m'|] eqn:E; [|done].
  unfold H2_SPECIAL_ZERO_PATTERN, seq_of in E. cbn [foldr] in E.
  change (rmatch (Seq ?a ?b) ?s ?c ?k)
    with (rmatch a s c (fun s' c' => rmatch b s' c' k)) in E.
  apply rmatch_Lit_Some in E as (s' & -> & _). split; [by vm_compute|].
  by vm_compute.
Qed.

Lemma process_line_h2_special_zero st p line_content :
  current_province st = Some p →
  is_Some (re_match H2_SPECIAL_ZERO_PATTERN (strip line_content)) →
  process_line st line_content = on_h2_special_zero p st.
Proof.
  intros Hp Hm. destruct (h2_special_zero_not_h1 _ Hm) as [Hne H1].
  unfold process_line. destruct (strip line_content) as [|c s]; [done|].
  rewrite H1, Hp. by destruct Hm as [m ->].
Qed.

(** Every line takes one of the seven branches of the loop body. *)
Lemma process_line_cases st line_content :
  process_line st line_content = st
  ∨ (∃ m, process_line st line_content = on_h1 m st)
  ∨ (∃ p, current_province st = Some p
          ∧ process_line st line_content = on_h2_special_zero p st)
  ∨ (∃ p m, current_province st = Some p
            ∧ process_line st line_content = on_h2 p m st)
  ∨ (∃ c, current_city st = Some c
          ∧ process_line st line_content = on_h3_special_zero c st)
  ∨ (∃ c m, current_city st = Some c
            ∧ process_line st line_content = on_h3 c m st)
  ∨ process_line st line_content = on_text line_content st.
Proof.
  unfold process_line. destruct (strip line_content) as [|c0 s]; [by left|].
  repeat case_match; simplify_eq; eauto 15.
Qed.

(** *** Flushing and buffering *)

Lemma flush_buffer_frame st :
  processed_data (flush_buffer st) = processed_data st
  ∧ current_province (flush_buffer st) = current_province st
  ∧ current_city (flush_buffer st) = current_city st
  ∧ current_district (flush_buffer st) = current_district st
  ∧ active_entity (flush_buffer st) = active_entity st
  ∧ active_field (flush_buffer st) = active_field st.
Proof.
  unfold flush_buffer.
  destruct (active_entity st) eqn:E, (current_text_buffer st);
    by repeat split.
Qed.

Lemma flush_buffer_store st :
  store (flush_buffer st) = store st
  ∨ ∃ f t r, store (flush_buffer st) = alter (add_text f t) r (store st).
Proof.
  unfold flush_buffer.
  destruct (active_entity st) as [r|], (current_text_buffer st) as [|b bs];
    try by left.
  simpl. destruct (strip _); [by left|]. right. eauto.
Qed.

(** What a flush does, whatever the buffer holds. *)
Lemma flush_buffer_active st r :
  active_entity st = Some r →
  current_text_buffer (flush_buffer st) = []
  ∧ store (flush_buffer st)
    = match strip (join_lines (current_text_buffer st)) with
      | [] => store st
      | t => alter (add_text (active_field st) t) r (store st)
      end.
Proof.
  intros Hr. unfold flush_buffer. rewrite Hr.
  destruct (current_text_buffer st) as [|b bs] eqn:E.
  - rewrite E. split; [done|]. change (strip (join_lines [])) with (@nil char).
    done.
  - cbv zeta. cbn [current_text_buffer store]. split; [done|].
    by destruct (strip _).
Qed.

Lemma foldl_on_text st texts :
  foldl (fun s l => on_text l s) st texts
  = ParserState (store st) (processed_data st) (current_province st)
      (current_city st) (current_district st) (active_entity st)
      (active_field st) (current_text_buffer st ++ (strip_newlines <$> texts)).
Proof.
  revert st. induction texts as [|l texts IH]; intros st; simpl.
  - rewrite app_nil_r. by destruct st.
  - rewrite IH. simpl. by rewrite <- app_assoc.
Qed.

Lemma foldl_process_line_narrative st texts :
  Forall narrative_line texts →
  foldl process_line st texts = foldl (fun s l => on_text l s) st texts.
Proof.
  intros H. revert st. induction H as [|l texts Hl _ IH]; intros st; [done|].
  simpl. by rewrite process_line_narrative, IH.
Qed.

(** C7: a top-tier general marker met while a top-tier record is in scope,
    whatever mid-tier or bottom-tier record the parser has descended to,
    flushes the pending buffer and makes the top-tier record the active one
    with the general field as target; the narrative lines that follow are
    then added to the general text of the top-tier record, and no other
    record of the store changes. *)
Theorem general_marker_redirects st p marker texts :
  current_province st = Some p →
  is_Some (re_match H2_SPECIAL_ZERO_PATTERN (strip marker)) →
  Forall narrative_line texts →
  let st1 := process_line st marker in
  let st2 := flush_buffer (foldl process_line st1 texts) in
  (active_entity st1 = Some p ∧ active_field st1 = text_general_key
   ∧ store st1 = store (flush_buffer st)
   ∧ current_text_buffer st1 = current_text_buffer (flush_buffer st)
   ∧ (is_Some (active_entity st) → current_text_buffer st1 = [])
   ∧ current_province st1 = Some p ∧ current_city st1 = current_city st
   ∧ current_district st1 = current_district st)
  ∧ (active_entity st2 = Some p ∧ active_field st2 = text_general_key
     ∧ store st2
       = match strip (join_lines (current_text_buffer st1
                                  ++ (strip_newlines <$> texts))) with
         | [] => store st1
         | t => alter (add_text text_general_key t) p (store st1)
         end)
  ∧ (∀ q, q ≠ p → store st2 !! q = store st1 !! q).
Proof.
  intros Hp Hm Htexts st1 st2.
  assert (st1 = on_h2_special_zero p st) as E1
    by by apply process_line_h2_special_zero.
  destruct (flush_buffer_frame st) as (_ & Fp & Fc & Fd & _ & _).
  assert (st2 = flush_buffer
                  (ParserState (store st1) (processed_data st1)
                     (current_province st1) (current_city st1)
                     (current_district st1) (Some p) text_general_key
                     (current_text_buffer st1 ++ (strip_newlines <$> texts))))
    as E2.
  { unfold st2. rewrite foldl_process_line_narrative, foldl_on_text by done.
    by rewrite E1. }
  set (st' := ParserState _ _ _ _ _ _ _ _) in E2.
  destruct (flush_buffer_active st' p eq_refl) as [_ Hstore].
  destruct (flush_buffer_frame st') as (_ & _ & _ & _ & Fa & Ff).
  assert (store st2
          = match strip (join_lines (current_text_buffer st1
                                     ++ (strip_newlines <$> texts))) with
            | [] => store st1
            | t => alter (add_text text_general_key t) p (store st1)
            end) as Hst2 by by rewrite E2, Hstore.
  split; [|split].
  - rewrite E1. simpl. rewrite Fp, Fc, Fd, Hp. repeat split; try done.
    intros [r Hr]. by destruct (flush_buffer_active st r Hr) as [-> _].
  - rewrite E2, Fa, Ff. by rewrite <- E2.
  - intros q Hq. rewrite Hst2. destruct (strip (join_lines _)); [done|].
    by apply list_lookup_alter_ne.
Qed.

(** *** The store keeps its shape *)

Lemma entity_at_app h k r lv : entity_at h r lv → entity_at (h ++ k) r lv.
Proof. intros (e & He & Hl). exists e. split; [|done]. by apply lookup_app_l_Some. Qed.

Lemma entity_at_new h e lv :
  level (e_attrs e) = lv → entity_at (h ++ [e]) (length h) lv.
Proof.
  intros Hl. exists e. split; [|done].
  rewrite lookup_app_r by lia. by rewrite Nat.sub_diag.
Qed.

Lemma entity_at_alter h (f : entity code geom → entity code geom) i r lv :
  (∀ e, level (e_attrs (f e)) = level (e_attrs e)) →
  entity_at h r lv → entity_at (alter f i h) r lv.
Proof.
  intros Hf (e & He & Hl). destruct (decide (i = r)) as [->|Hne].
  - exists (f e). rewrite list_lookup_alter_eq, He. split; [done|]. by rewrite Hf.
  - exists e. by rewrite list_lookup_alter_ne.
Qed.

Lemma well_shaped_app h e :
  well_shaped h →
  (∀ l, e_children e = Some l →
        l = [] ∧ (level (e_attrs e) = 1%Z ∨ level (e_attrs e) = 2%Z)) →
  well_shaped (h ++ [e]).
Proof.
  intros Hh He r e' l Hr Hl. apply lookup_app_Some in Hr as [Hr|[_ Hr]].
  - destruct (Hh r e' l Hr Hl) as [[? H]|[? H]]; [left|right];
      (split; [done|]); eapply Forall_impl; try done;
      intros; by apply entity_at_app.
  - apply list_lookup_singleton_Some in Hr as [_ <-].
    destruct (He l Hl) as [-> [?|?]]; [left|right]; by split.
Qed.

(** A change that touches neither level nor children. *)
Lemma well_shaped_alter_attrs h (f : entity code geom → entity code geom) i :
  (∀ e, level (e_attrs (f e)) = level (e_attrs e)) →
  (∀ e, e_children (f e) = e_children e) →
  well_shaped h → well_shaped (alter f i h).
Proof.
  intros Hlv Hch Hh r e l Hr Hl.
  assert (∃ e0, h !! r = Some e0 ∧ level (e_attrs e) = level (e_attrs e0)
                ∧ e_children e0 = Some l) as (e0 & He0 & -> & Hl0).
  { destruct (decide (i = r)) as [->|Hne].
    - rewrite list_lookup_alter_eq in Hr.
      destruct (h !! r) as [e0|]; [|done]. injection Hr as <-.
      exists e0. by rewrite Hlv, <- Hch.
    - rewrite list_lookup_alter_ne in Hr by done. by exists e. }
  destruct (Hh r e0 l He0 Hl0) as [[? H]|[? H]]; [left|right];
    (split; [done|]); eapply Forall_impl; try done;
    intros; by apply entity_at_alter.
Qed.

(** Appending the child [c], an object of the next level, to the
    children of the object at [i]. *)
Lemma well_shaped_alter_child h (f : entity code geom → entity code geom)
    i c lv :
  (lv = 1%Z ∨ lv = 2%Z) →
  (∀ e, level (e_attrs (f e)) = level (e_attrs e)) →
  (∀ e l, e_children (f e) = Some l →
          l = default [] (e_children e) ++ [c]) →
  entity_at h i lv → entity_at h c (lv + 1)%Z →
  well_shaped h → well_shaped (alter f i h).
Proof.
  intros Hlv Hf Hch (ei & Hei & Hli) Hc Hh r e l Hr Hl.
  assert (∀ x k, entity_at h x k → entity_at (alter f i h) x k) as Hmono
    by (intros; by apply entity_at_alter).
  destruct (decide (i = r)) as [->|Hne].
  - rewrite list_lookup_alter_eq, Hei in Hr. injection Hr as <-.
    rewrite Hf, Hli. apply Hch in Hl as ->.
    assert (Forall (fun x => entity_at h x (lv + 1)%Z)
              (default [] (e_children ei))) as Hold.
    { destruct (e_children ei) as [l0|] eqn:E; [|constructor].
      destruct (Hh r ei l0 Hei E) as [[? H]|[? H]];
        destruct Hlv; subst; simpl; try done; congruence. }
    assert (Forall (fun x => entity_at (alter f r h) x (lv + 1)%Z)
              (default [] (e_children ei) ++ [c])) as Hnew.
    { apply Forall_app. split; [|by repeat constructor; apply Hmono].
      eapply Forall_impl; [exact Hold|]. intros; by apply Hmono. }
    destruct Hlv as [-> | ->]; [left|right]; by split.
  - rewrite list_lookup_alter_ne in Hr by done.
    destruct (Hh r e l Hr Hl) as [[? H]|[? H]]; [left|right];
      (split; [done|]); eapply Forall_impl; try done; intros; by apply Hmono.
Qed.

Lemma store_unlinked_alter h (f : entity code geom → entity code geom) i :
  (∀ e, adcode (e_attrs (f e)) = adcode (e_attrs e)
        ∧ geometry (e_attrs (f e)) = geometry (e_attrs e)) →
  store_unlinked h → store_unlinked (alter f i h).
Proof.
  intros Hf Hh. unfold store_unlinked in *. rewrite Forall_lookup in *.
  intros r e Hr. destruct (decide (i = r)) as [->|Hne].
  - rewrite list_lookup_alter_eq in Hr. destruct (h !! r) as [e0|] eqn:E; [|done].
    injection Hr as <-. destruct (Hf e0) as [-> ->]. by apply (Hh r).
  - rewrite list_lookup_alter_ne in Hr by done. by apply (Hh r).
Qed.

Lemma add_text_frame f t e :
  level (e_attrs (add_text f t e)) = level (e_attrs e)
  ∧ e_children (add_text f t e) = e_children e
  ∧ adcode (e_attrs (add_text f t e)) = adcode (e_attrs e)
  ∧ geometry (e_attrs (add_text f t e)) = geometry (e_attrs e).
Proof. by destruct f. Qed.

(** *** The invariant of the loop *)

Lemma parser_inv_initial : parser_inv (@initial_state code geom).
Proof.
  split; simpl; [by intros r e l Hr|constructor|done|done|constructor].
Qed.

Lemma parser_inv_flush st : parser_inv st → parser_inv (flush_buffer st).
Proof.
  intros [Hs Hr Hp Hc Hu].
  destruct (flush_buffer_frame st) as (Fr & Fp & Fc & _).
  assert (∀ f t e, level (e_attrs (add_text f t e)) = level (e_attrs e)) as Hlv
    by (intros; apply add_text_frame).
  split; rewrite ?Fr, ?Fp, ?Fc;
    destruct (flush_buffer_store st) as [->|(f & t & r & ->)]; try done.
  - apply well_shaped_alter_attrs; [done| |done]. intros; apply add_text_frame.
  - eapply Forall_impl; [done|]. intros; by apply entity_at_alter.
  - intros p Hp'. by apply entity_at_alter, Hp.
  - intros c Hc'. by apply entity_at_alter, Hc.
  - apply store_unlinked_alter; [|done]. intros; split; apply add_text_frame.
Qed.

Lemma parser_inv_on_h1 m st : parser_inv st → parser_inv (on_h1 m st).
Proof.
  intros [Hs Hr Hp Hc Hu]%parser_inv_flush. unfold on_h1.
  set (st' := flush_buffer st) in *. split; simpl.
  - apply well_shaped_app; [done|]. simpl. intros l [= <-]. auto.
  - apply Forall_app. split.
    + eapply Forall_impl; [done|]. intros; by apply entity_at_app.
    + repeat constructor. by apply entity_at_new.
  - intros p [= <-]. by apply entity_at_new.
  - done.
  - apply Forall_app. split; [done|]. by repeat constructor.
Qed.

Lemma parser_inv_on_h2_special_zero p st :
  parser_inv st → parser_inv (on_h2_special_zero p st).
Proof. by intros [Hs Hr Hp Hc Hu]%parser_inv_flush. Qed.

Lemma parser_inv_on_h3_special_zero c st :
  parser_inv st → parser_inv (on_h3_special_zero c st).
Proof. by intros [Hs Hr Hp Hc Hu]%parser_inv_flush. Qed.

Lemma parser_inv_on_text l st : parser_inv st → parser_inv (on_text l st).
Proof. by intros [Hs Hr Hp Hc Hu]. Qed.

Lemma parser_inv_on_h2 p m st :
  current_province st = Some p → parser_inv st → parser_inv (on_h2 p m st).
Proof.
  intros Hcur Hinv. pose proof (parser_inv_flush st Hinv) as [Hs Hr Hp Hc Hu].
  destruct (flush_buffer_frame st) as (_ & Fp & _).
  unfold on_h2. set (st' := flush_buffer st) in *.
  set (new := Entity _ _).
  assert (entity_at (store st' ++ [new]) p 1%Z) as Hp1.
  { apply entity_at_app, Hp. by rewrite Fp. }
  assert (entity_at (store st' ++ [new]) (length (store st')) 2%Z) as Hn
    by by apply entity_at_new.
  assert (∀ x k, entity_at (store st') x k →
            entity_at (alter (append_child (length (store st'))) p
                         (store st' ++ [new])) x k) as Hmono.
  { intros. by apply entity_at_alter, entity_at_app. }
  split; cbn [store processed_data current_province current_city].
  - apply (well_shaped_alter_child _ _ _ (length (store st')) 1%Z).
    + by left.
    + done.
    + intros e l. unfold append_child. simpl.
      destruct (e_children e); simpl; [by intros [= <-]|done].
    + done.
    + done.
    + apply well_shaped_app; [done|]. simpl. intros l [= <-]. auto.
  - eapply Forall_impl; [done|]. intros x Hx. by apply Hmono.
  - intros q Hq. apply Hmono, Hp. by rewrite <- Hq.
  - intros c [= <-]. by apply entity_at_alter.
  - apply store_unlinked_alter; [done|].
    apply Forall_app. split; [done|]. by repeat constructor.
Qed.

Lemma parser_inv_on_h3 c m st :
  current_city st = Some c → parser_inv st → parser_inv (on_h3 c m st).
Proof.
  intros Hcur Hinv. pose proof (parser_inv_flush st Hinv) as [Hs Hr Hp Hc Hu].
  destruct (flush_buffer_frame st) as (_ & _ & Fc & _).
  unfold on_h3. set (st' := flush_buffer st) in *.
  set (new := Entity _ _).
  assert (entity_at (store st' ++ [new]) c 2%Z) as Hc2.
  { apply entity_at_app, Hc. by rewrite Fc. }
  assert (entity_at (store st' ++ [new]) (length (store st')) 3%Z) as Hn
    by by apply entity_at_new.
  assert (∀ x k, entity_at (store st') x k →
            entity_at (alter (append_child_default (length (store st'))) c
                         (store st' ++ [new])) x k) as Hmono.
  { intros. by apply entity_at_alter, entity_at_app. }
  split; cbn [store processed_data current_province current_city].
  - apply (well_shaped_alter_child _ _ _ (length (store st')) 2%Z).
    + by right.
    + done.
    + intros e l. unfold append_child_default. simpl. by intros [= <-].
    + done.
    + done.
    + apply well_shaped_app; [done|]. by simpl.
  - eapply Forall_impl; [done|]. intros x Hx. by apply Hmono.
  - intros q Hq. by apply Hmono, Hp.
  - intros q Hq. by apply Hmono, Hc.
  - apply store_unlinked_alter; [done|].
    apply Forall_app. split; [done|]. by repeat constructor.
Qed.

Lemma parser_inv_process_line st line_content :
  parser_inv st → parser_inv (process_line st line_content).
Proof.
  intros Hinv.
  destruct (process_line_cases st line_content)
    as [->|[[m ->]|[(p & Hp & ->)|[(p & m & Hp & ->)|[(c & Hc & ->)|
         [(c & m & Hc & ->)| ->]]]]]].
  - done.
  - by apply parser_inv_on_h1.
  - by apply parser_inv_on_h2_special_zero.
  - by apply parser_inv_on_h2.
  - by apply parser_inv_on_h3_special_zero.
  - by apply parser_inv_on_h3.
  - by apply parser_inv_on_text.
Qed.

Lemma parser_inv_run lines : parser_inv (@run_parser code geom lines).
Proof.
  unfold run_parser. apply parser_inv_flush.
  assert (∀ st, parser_inv st → parser_inv (foldl process_line st lines)) as H.
  { induction lines as [|l lines IH]; intros st Hst; [done|].
    simpl. by apply IH, parser_inv_process_line. }
  apply H, parser_inv_initial.
Qed.

(** *** From the store to the forest *)

Lemma reify_S d h r :
  reify (S d) h r
  = match h !! r with
    | None => None
    | Some e =>
      match e_children e with
      | None => Some (Region (e_attrs e) None)
      | Some l =>
        match mapM (reify d h) l with
        | Some cs => Some (Region (e_attrs e) (Some cs))
        | None => None
        end
      end
    end.
Proof.
  cbn [reify]. destruct (h !! r) as [e|]; [|done]. cbn [mbind option_bind].
  destruct (e_children e) as [l|]; [|done]. by destruct (mapM _ l).
Qed.

Lemma reify_level3 h r d :
  well_shaped h → entity_at h r 3%Z → is_Some (reify (S d) h r).
Proof.
  intros Hh (e & He & Hl). rewrite reify_S, He.
  destruct (e_children e) as [l|] eqn:E; [|by eexists].
  destruct (Hh r e l He E) as [[? _]|[? _]]; congruence.
Qed.

Lemma reify_level2 h r d :
  well_shaped h → entity_at h r 2%Z → is_Some (reify (S (S d)) h r).
Proof.
  intros Hh (e & He & Hl). rewrite reify_S, He.
  destruct (e_children e) as [l|] eqn:E; [|by eexists].
  destruct (Hh r e l He E) as [[? _]|[_ Hl3]]; [congruence|].
  destruct (mapM_is_Some_2 (reify (S d) h) l) as [cs Hcs].
  { eapply Forall_impl; [done|]. intros c Hc. by apply reify_level3. }
  rewrite Hcs. by eexists.
Qed.

Lemma reify_level1 h r :
  well_shaped h → entity_at h r 1%Z → is_Some (reify 3 h r).
Proof.
  intros Hh (e & He & Hl). rewrite reify_S, He.
  destruct (e_children e) as [l|] eqn:E; [|by eexists].
  destruct (Hh r e l He E) as [[_ Hl2]|[? _]]; [|congruence].
  destruct (mapM_is_Some_2 (reify 2 h) l) as [cs Hcs].
  { eapply Forall_impl; [done|]. intros c Hc. by apply reify_level2. }
  rewrite Hcs. by eexists.
Qed.


(** [parse_markdown] returns a forest for every input. *)
Lemma parse_markdown_total lines :
  is_Some (@parse_markdown code geom lines).
Proof.
  unfold parse_markdown. destruct (parser_inv_run lines) as [Hs Hr _ _ _].
  apply mapM_is_Some_2. eapply Forall_impl; [done|].
  intros r Hr'. by apply reify_level1.
Qed.


(** *** The claims about parse_markdown *)

(** C6: the five lines of the end-to-end scenario, in the heading syntax
    of the document, parse to one level-1 record Guangdong whose only
    child is the level-2 record Guangzhou with the detail text
    "overview line", whose only child is the level-3 record Yuexiu with the
    detail text "detail line"; with or without line terminators. *)
Theorem parse_markdown_scenario :
  @parse_markdown code geom scenario_lines = Some scenario_forest
  ∧ @parse_markdown code geom
      [lit "# 第1章 Guangdong"; lit "## 一、Guangzhou"; lit "overview line";
       lit "### 1. Yuexiu"; lit "detail line"]
    = Some scenario_forest.
Proof. split; by vm_compute. Qed.

(** C8 at the thirty-eighth ordinal word: the alternation of
    [H2_MD_PATTERN] ends in a blank followed by two Bengali digits where
    三十八 belongs, so the line is not a mid-tier heading: no level-2 record
    is created and the line becomes detail text of the chapter.  The
    thirty-seventh section next to it is recognized. *)
Theorem h2_thirty_eighth_not_recognized :
  last H2_ORDINALS = Some " ৩৮"%string
  ∧ re_match H2_MD_PATTERN (lit "## 三十八、Shenzhen") = None
  ∧ @parse_markdown code geom thirty_eighth_lines
    = Some [Region (Attrs (lit "Guangdong") 1%Z None None None
                      [] (lit "## 三十八、Shenzhen") None) (Some [])]
  ∧ @parse_markdown code geom thirty_seventh_lines
    = Some [Region (Attrs (lit "Guangdong") 1%Z None None None [] [] None)
              (Some [Region (Attrs (lit "Shenzhen") 2%Z None
                               (Some (lit "Guangdong")) None [] [] None)
                       (Some [])])].
Proof. repeat split; by vm_compute. Qed.

(** *** Mid-tier headings *)

Lemma strip_fixed_ends s :
  strip s = s → s ≠ [] →
  (∃ c t, s = c :: t ∧ isspace c = false)
  ∧ (∃ t d, s = t ++ [d] ∧ isspace d = false).
Proof.
  intros Hs Hne. unfold strip, strip_by in Hs.
  assert (lstrip_by isspace s = s) as Hl.
  { destruct (lstrip_by_decompose isspace s) as [k1 H1].
    destruct (rstrip_by_decompose isspace (lstrip_by isspace s)) as [k2 H2].
    rewrite Hs in H2. rewrite H2 in H1.
    apply (f_equal length) in H1. rewrite !length_app in H1.
    destruct k2; [|simpl in H1; lia]. by rewrite app_nil_r in H2. }
  rewrite Hl in Hs. split.
  - destruct s as [|c t]; [done|]. exists c, t. split; [done|].
    simpl in Hl. destruct (isspace c); [|done].
    destruct (lstrip_by_decompose isspace t) as [k Hk].
    rewrite Hl in Hk. apply (f_equal length) in Hk.
    rewrite length_app in Hk. simpl in Hk. lia.
  - clear Hl. induction s as [|c t IH]; [done|]. simpl in Hs.
    destruct (rstrip_by isspace t) as [|d u] eqn:E.
    + destruct (isspace c) eqn:Hc; [done|]. injection Hs as <-.
      by exists [], c.
    + injection Hs as Ht. rewrite <- Ht in IH at 1.
      destruct IH as (t' & d' & -> & Hd); [by rewrite Ht|by rewrite <- Ht|].
      by exists (c :: t'), d'.
Qed.

Lemma star_stop {A : Type} p (K : str → option A) c s :
  p c = false → star p K (c :: s) = K (c :: s).
Proof. intros H. simpl. by rewrite H. Qed.

Lemma star_all {A : Type} p (K : str → option A) s :
  Forall (fun c => p c = true) s → is_Some (K []) → star p K s = K [].
Proof.
  intros Hs [m Hm]. induction Hs as [|c s Hc _ IH]; [done|].
  simpl. by rewrite Hc, IH, Hm.
Qed.

Lemma h2_pattern_split s caps k :
  rmatch H2_MD_PATTERN s caps k
  = rmatch h2_heading_prefix s caps
      (fun s' caps' => rmatch h2_heading_tail s' caps' k).
Proof. reflexivity. Qed.

Lemma h2_tail_match title caps :
  (∃ c t, title = c :: t ∧ isspace c = false) →
  Forall (fun c => dot c = true) title →
  rmatch h2_heading_tail title caps (fun _ caps' => Some caps')
  = Some (title :: caps).
Proof.
  intros (c & t & -> & Hc) Hdot. apply Forall_cons in Hdot as [Hd Hdot].
  unfold h2_heading_tail, seq_of. cbn [foldr rmatch].
  rewrite star_stop by done. rewrite Hd.
  rewrite star_all; [|done|].
  - cbn [length]. rewrite Nat.sub_0_r.
    change (S (length t)) with (length (c :: t)). by rewrite firstn_all.
  - cbn [length]. rewrite Nat.sub_0_r.
    change (S (length t)) with (length (c :: t)). rewrite firstn_all.
    by eexists.
Qed.

(** Each of the thirty-seven ordinal words, followed by the separator and
    a title, is matched by [H2_MD_PATTERN] and by no pattern tried before
    it. *)
Lemma h2_ordinal_matches w title :
  w ∈ well_formed_ordinals →
  title ≠ [] → strip title = title → Forall (fun c => dot c = true) title →
  let line := lit "## " ++ lit w ++ lit "、" ++ title in
  strip line = line
  ∧ re_match H1_MD_PATTERN line = None
  ∧ re_match H2_SPECIAL_ZERO_PATTERN line = None
  ∧ re_match H2_MD_PATTERN line = Some [title].
Proof.
  intros Hw Hne Hstrip Hdot line.
  destruct (strip_fixed_ends title Hstrip Hne) as [Hhead (t & d & Ht & Hd)].
  assert (∀ a, isspace <$> head a = Some false →
               strip (a ++ title) = a ++ title) as Hfix.
  { intros [|c a] Ha; [done|]. injection Ha as Hc.
    rewrite Ht. change ((c :: a) ++ t ++ [d]) with (c :: a ++ t ++ [d]).
    rewrite app_assoc. by apply strip_by_id. }
  assert (re_match h2_heading_tail title = Some [title]) as Htail.
  { unfold re_match. by rewrite h2_tail_match. }
  unfold re_match in *. unfold line. clear line.
  unfold well_formed_ordinals, H2_ORDINALS in Hw. cbn [take] in Hw.
  repeat (apply elem_of_cons in Hw as [->|Hw]);
    [..|by apply elem_of_nil in Hw];
    (split; [rewrite !app_assoc; apply Hfix; by vm_compute|]);
    (split; [by vm_compute|]); (split; [by vm_compute|]);
    rewrite h2_pattern_split;
    match goal with
    | |- context [rmatch h2_heading_prefix ?s _ _] =>
      assert (∀ caps K, rmatch h2_heading_prefix s caps K = K title caps)
        as -> by (intros caps K; vm_compute; by destruct (K title caps))
    end; exact Htail.
Qed.

Lemma h2_heading_recognized st p w title :
  current_province st = Some p → w ∈ well_formed_ordinals →
  title ≠ [] → strip title = title → Forall (fun c => dot c = true) title →
  process_line st (lit "## " ++ lit w ++ lit "、" ++ title)
  = on_h2 p [title] st.
Proof.
  intros Hp Hw Hne Hstrip Hdot.
  destruct (h2_ordinal_matches w title Hw Hne Hstrip Hdot)
    as (Hs & H1 & H2 & H3).
  unfold process_line. rewrite Hs.
  destruct (lit "## " ++ lit w ++ lit "、" ++ title) as [|c s] eqn:E.
  { apply app_eq_nil in E as [E _]. by vm_compute in E. }
  by rewrite H1, Hp, H2, H3.
Qed.

(** *** Ownership *)

Lemma kids_alter_same h (f : entity code geom → entity code geom) i :
  (∀ e, e_children (f e) = e_children e) →
  kids <$> alter f i h = kids <$> h.
Proof.
  intros Hf. revert i. induction h as [|e h IH]; intros [|i]; csimpl; try done.
  - unfold kids at 1 3. by rewrite Hf.
  - by rewrite IH.
Qed.

Lemma kids_alter_child h (f : entity code geom → entity code geom) i c :
  (∀ e, kids (f e) = kids e ∨ kids (f e) = kids e ++ [c]) →
  concat (kids <$> alter f i h) = concat (kids <$> h)
  ∨ concat (kids <$> alter f i h) ≡ₚ c :: concat (kids <$> h).
Proof.
  intros Hf. revert i. induction h as [|e h IH]; intros [|i]; csimpl;
    try by left.
  - destruct (Hf e) as [-> | ->]; [by left|right].
    rewrite <- app_assoc. simpl. by rewrite <- Permutation_middle.
  - destruct (IH i) as [-> | Hp]; [by left|right].
    rewrite Hp. by rewrite <- Permutation_middle.
Qed.

Lemma single_owner_grow st st' c :
  single_owner st →
  length (store st') = S (length (store st)) →
  c = length (store st) →
  (owned_refs st' = owned_refs st ∨ owned_refs st' ≡ₚ c :: owned_refs st) →
  single_owner st'.
Proof.
  intros [Hnd Hlt] Hlen -> Hrefs. unfold single_owner. rewrite Hlen.
  assert (Forall (fun r => (r < S (length (store st)))%nat) (owned_refs st))
    as Hlt'.
  { eapply Forall_impl; [done|]. simpl. intros; lia. }
  destruct Hrefs as [-> | Hp]; [done|]. rewrite Hp. split.
  - apply NoDup_cons. split; [|done]. intros Hin.
    rewrite Forall_forall in Hlt. specialize (Hlt _ Hin). lia.
  - constructor; [lia|done].
Qed.

Lemma single_owner_initial : single_owner (@initial_state code geom).
Proof. split; simpl; constructor. Qed.

Lemma single_owner_flush st : single_owner st → single_owner (flush_buffer st).
Proof.
  intros [Hnd Hlt]. unfold single_owner, owned_refs in *.
  destruct (flush_buffer_frame st) as (-> & _).
  destruct (flush_buffer_store st) as [->|(f & t & r & ->)]; [done|].
  rewrite length_alter, kids_alter_same; [done|].
  intros; apply add_text_frame.
Qed.

Lemma single_owner_on_h1 m st : single_owner st → single_owner (on_h1 m st).
Proof.
  intros H%single_owner_flush.
  apply (single_owner_grow _ _ (length (store (flush_buffer st))) H).
  - unfold on_h1. simpl. rewrite length_app. simpl. lia.
  - done.
  - right. unfold owned_refs, on_h1. simpl.
    rewrite fmap_app, concat_app. simpl. rewrite !app_nil_r.
    rewrite <- app_assoc. simpl. by rewrite <- Permutation_middle.
Qed.

Lemma single_owner_on_h2 p m st : single_owner st → single_owner (on_h2 p m st).
Proof.
  intros H%single_owner_flush.
  apply (single_owner_grow _ _ (length (store (flush_buffer st))) H).
  - unfold on_h2. simpl. rewrite length_alter, length_app. simpl. lia.
  - done.
  - unfold owned_refs, on_h2. cbn [store processed_data].
    set (new := Entity _ _).
    destruct (kids_alter_child (store (flush_buffer st) ++ [new])
                (append_child (length (store (flush_buffer st)))) p
                (length (store (flush_buffer st)))) as [E|E].
    + intros e. unfold kids, append_child. simpl.
      destruct (e_children e); simpl; auto.
    + left. rewrite E, fmap_app, concat_app. simpl. by rewrite !app_nil_r.
    + right. rewrite E, fmap_app, concat_app. simpl. rewrite !app_nil_r.
      by rewrite <- Permutation_middle.
Qed.

Lemma single_owner_on_h3 c m st : single_owner st → single_owner (on_h3 c m st).
Proof.
  intros H%single_owner_flush.
  apply (single_owner_grow _ _ (length (store (flush_buffer st))) H).
  - unfold on_h3. simpl. rewrite length_alter, length_app. simpl. lia.
  - done.
  - unfold owned_refs, on_h3. cbn [store processed_data].
    set (new := Entity _ _).
    destruct (kids_alter_child (store (flush_buffer st) ++ [new])
                (append_child_default (length (store (flush_buffer st)))) c
                (length (store (flush_buffer st)))) as [E|E].
    + intros e. unfold kids, append_child_default. simpl. auto.
    + left. rewrite E, fmap_app, concat_app. simpl. by rewrite !app_nil_r.
    + right. rewrite E, fmap_app, concat_app. simpl. rewrite !app_nil_r.
      by rewrite <- Permutation_middle.
Qed.

Lemma single_owner_process_line st line_content :
  single_owner st → single_owner (process_line st line_content).
Proof.
  intros Hinv.
  destruct (process_line_cases st line_content)
    as [->|[[m ->]|[(p & Hp & ->)|[(p & m & Hp & ->)|[(c & Hc & ->)|
         [(c & m & Hc & ->)| ->]]]]]]; try done.
  - by apply single_owner_on_h1.
  - by apply single_owner_flush in Hinv.
  - by apply single_owner_on_h2.
  - by apply single_owner_flush in Hinv.
  - by apply single_owner_on_h3.
Qed.

(** In the store that [parse_markdown] reads the forest from, no object
    is a root or a child twice: the forest is a tree. *)
Lemma single_owner_run lines : single_owner (@run_parser code geom lines).
Proof.
  unfold run_parser. apply single_owner_flush.
  assert (∀ st, single_owner st → single_owner (foldl process_line st lines))
    as H.
  { induction lines as [|l lines IH]; intros st Hst; [done|].
    simpl. by apply IH, single_owner_process_line. }
  apply H, single_owner_initial.
Qed.

(** *** A chapter that is open has an active record *)

Lemma active_in_scope_process_line st line_content :
  active_in_scope st → active_in_scope (process_line st line_content).
Proof.
  unfold active_in_scope. intros Hinv.
  destruct (flush_buffer_frame st) as (_ & Fp & _ & _ & Fa & _).
  destruct (process_line_cases st line_content)
    as [->|[[m ->]|[(p & Hp & ->)|[(p & m & Hp & ->)|[(c & Hc & ->)|
         [(c & m & Hc & ->)| ->]]]]]]; simpl; rewrite ?Fp, ?Fa; eauto.
Qed.

Lemma active_in_scope_reachable lines :
  active_in_scope (foldl process_line (@initial_state code geom) lines).
Proof.
  assert (∀ st, active_in_scope st →
                active_in_scope (foldl process_line st lines)) as H.
  { induction lines as [|l lines IH]; intros st Hst; [done|].
    simpl. by apply IH, active_in_scope_process_line. }
  apply H. by intros [? ?].
Qed.

(** After any input, a top-tier general marker under an open chapter
    leaves no pending text behind. *)
Lemma general_marker_flushes lines p marker :
  let st := foldl process_line (@initial_state code geom) lines in
  current_province st = Some p →
  is_Some (re_match H2_SPECIAL_ZERO_PATTERN (strip marker)) →
  current_text_buffer (process_line st marker) = [].
Proof.
  intros st Hp Hm. rewrite (process_line_h2_special_zero st p) by done.
  destruct (active_in_scope_reachable lines) as [r Hr].
  { change (is_Some (current_province st)). by rewrite Hp. }
  fold st in Hr.
  unfold on_h2_special_zero. simpl.
  by destruct (flush_buffer_active st r Hr) as [-> _].
Qed.

End ParserFacts.

Lemma general_marker_redirects_witness :
  let st2 :=
    flush_buffer
      (foldl process_line
         (process_line descended_state (terminated "## 零、上位类说明"))
         [terminated "general text"]) in
  current_city descended_state = Some 1%nat
  ∧ (text_general ∘ e_attrs <$> store st2 !! 0%nat) = Some (lit "general text")
  ∧ (text_general ∘ e_attrs <$> store st2 !! 1%nat) = Some []
  ∧ (text_detail ∘ e_attrs <$> store st2 !! 1%nat) = Some (lit "city text").
Proof.
  intros st2.
  assert (current_province descended_state = Some 0%nat) as Hp by by vm_compute.
  assert (is_Some (re_match H2_SPECIAL_ZERO_PATTERN
                     (strip (terminated "## 零、上位类说明")))) as Hm.
  { exists []. by vm_compute. }
  assert (Forall narrative_line [terminated "general text"]) as Ht.
  { repeat constructor; by vm_compute. }
  destruct (general_marker_redirects descended_state 0%nat
              (terminated "## 零、上位类说明") [terminated "general text"]
              Hp Hm Ht) as (_ & (_ & _ & Hstore) & Hother).
  fold st2 in Hstore, Hother.
  split; [by vm_compute|]. split.
  - rewrite Hstore. by vm_compute.
  - rewrite (Hother 1%nat) by done. split; by vm_compute.
Defined.


(** * Further properties *)

(** ** Trimmed strings *)

Lemma lstrip_by_head p c t s : lstrip_by p s = c :: t → p c = false.
Proof.
  induction s as [|d s IH]; [done|]. simpl.
  destruct (p d) eqn:E; [done|]. by intros [= <- _].
Qed.

Lemma rstrip_by_last p s t d : rstrip_by p s = t ++ [d] → p d = false.
Proof.
  revert t. induction s as [|c s IH]; intros t; simpl.
  - by destruct t.
  - destruct (rstrip_by p s) as [|e u] eqn:E.
    + destruct (p c) eqn:Hc; [by destruct t|].
      destruct t as [|? [|? ?]]; [by intros [= <-]|done..].
    + destruct t as [|x t]; [by destruct u|].
      intros [= _ Hu]. by eapply IH.
Qed.

Lemma rstrip_by_prefix p s : rstrip_by p s `prefix_of` s.
Proof. destruct (rstrip_by_decompose p s) as [k Hk]. by exists k. Qed.

(** A string is trimmed when it is empty or neither starts nor ends with
    white space. *)
Lemma strip_fixed_iff s :
  strip s = s ↔
  s = [] ∨ ((∃ c t, s = c :: t ∧ isspace c = false)
            ∧ (∃ t d, s = t ++ [d] ∧ isspace d = false)).
Proof.
  split.
  - intros Hs. destruct s as [|c s]; [by left|right].
    by apply strip_fixed_ends.
  - intros [->|[(c & t & -> & Hc) (u & d & Hu & Hd)]]; [done|].
    unfold strip, strip_by. simpl. rewrite Hc, Hu. by apply rstrip_by_snoc.
Qed.

Lemma strip_idemp s : strip (strip s) = strip s.
Proof.
  apply strip_fixed_iff. destruct (strip s) as [|c u] eqn:E; [by left|right].
  unfold strip, strip_by in E. split.
  - exists c, u. split; [done|].
    destruct (rstrip_by_prefix isspace (lstrip_by isspace s)) as [k Hk].
    rewrite E in Hk. by eapply lstrip_by_head.
  - destruct (exists_last (l:=c :: u)) as (t & d & Ht); [done|].
    exists t, d. split; [done|]. rewrite Ht in E. by eapply rstrip_by_last.
Qed.

(** Two trimmed, non-empty texts joined by a line break are trimmed. *)
Lemma strip_join_fixed a b :
  a ≠ [] → b ≠ [] → strip a = a → strip b = b →
  strip (a ++ 0x0A :: b) = a ++ 0x0A :: b.
Proof.
  intros Ha Hb Sa Sb.
  apply strip_fixed_iff in Sa as [->|[(c & t & -> & Hc) _]]; [done|].
  apply strip_fixed_iff in Sb as [->|[_ (u & d & -> & Hd)]]; [done|].
  apply strip_fixed_iff. right. split.
  - by exists c, (t ++ 0x0A :: u ++ [d]).
  - exists ((c :: t) ++ 0x0A :: u), d. split; [|done].
    by rewrite <- app_assoc.
Qed.

Lemma lstrip_by_all p l s :
  Forall (fun c => p c = true) l → lstrip_by p (l ++ s) = lstrip_by p s.
Proof. induction 1 as [|c l Hc _ IH]; [done|]. simpl. by rewrite Hc. Qed.

Lemma rstrip_by_all p s r :
  Forall (fun c => p c = true) r → rstrip_by p (s ++ r) = rstrip_by p s.
Proof.
  intros Hr. induction s as [|c s IH]; simpl.
  - induction Hr as [|d r Hd _ IHr]; [done|]. simpl. by rewrite IHr, Hd.
  - by rewrite IH.
Qed.

Lemma lstrip_by_app p s r :
  lstrip_by p (s ++ r)
  = match lstrip_by p s with
    | [] => lstrip_by p r
    | t => t ++ r
    end.
Proof.
  induction s as [|c s IH]; simpl; [by destruct (lstrip_by p r)|].
  by destruct (p c).
Qed.

Lemma strip_padded l s r :
  Forall (fun c => isspace c = true) l → Forall (fun c => isspace c = true) r →
  strip (l ++ s ++ r) = strip s.
Proof.
  intros Hl Hr. unfold strip, strip_by. rewrite lstrip_by_all by done.
  rewrite lstrip_by_app. destruct (lstrip_by isspace s) as [|c t] eqn:E.
  - rewrite <- (app_nil_r r), lstrip_by_all by done. done.
  - by rewrite rstrip_by_all.
Qed.

(** ** normalize_name, once more *)

Transparent normalize_name.

Lemma normalize_name_strip name :
  normalize_name (Some (strip name)) = normalize_name (Some name).
Proof. unfold normalize_name. by rewrite strip_idemp. Qed.

(** X6: white space around a name does not change its normalized form. *)
Theorem normalize_name_padded l name r :
  Forall (fun c => isspace c = true) l → Forall (fun c => isspace c = true) r →
  normalize_name (Some (l ++ name ++ r)) = normalize_name (Some name).
Proof. intros Hl Hr. unfold normalize_name. by rewrite strip_padded. Qed.

Opaque normalize_name.

Lemma normalize_name_padded_witness :
  normalize_name (Some (lit "　 " ++ lit "广州市" ++ lit " " ++ [0x0A]))
  = normalize_name (Some (lit "广州市")).
Proof.
  apply (normalize_name_padded (lit "　 ") (lit "广州市") (lit " " ++ [0x0A]));
    repeat constructor.
Defined.

(** ** parse_markdown, once more *)

Section ParserMore.
Context {code geom : Type}.

Implicit Types (st : @parser_state code geom) (e : entity code geom).
Implicit Types (h : list (entity code geom)).

(** *** Blank lines *)

Lemma foldl_process_line_blank st lines :
  foldl process_line st lines
  = foldl process_line st (filter (fun l => strip l ≠ []) lines).
Proof.
  revert st. induction lines as [|l lines IH]; intros st; [done|].
  rewrite filter_cons. destruct (decide (strip l ≠ [])) as [Hl|Hl]; simpl.
  - apply IH.
  - rewrite process_line_blank; [apply IH|].
    by destruct (decide (strip l = [])).
Qed.

(** X1: blank lines, also those made of white space only, leave no
    trace: the forest is that of the document without them. *)
Theorem parse_markdown_blank_lines lines :
  @parse_markdown code geom lines
  = parse_markdown (filter (fun l => strip l ≠ []) lines).
Proof.
  unfold parse_markdown, run_parser. by rewrite <- foldl_process_line_blank.
Qed.

(** *** Before the first chapter *)

Lemma process_line_no_scope st line_content :
  current_province st = None → current_city st = None →
  strip line_content ≠ [] →
  re_match H1_MD_PATTERN (strip line_content) = None →
  process_line st line_content = on_text line_content st.
Proof.
  intros Hp Hc Hne H1. unfold process_line.
  destruct (strip line_content) as [|c s]; [done|].
  by rewrite H1, Hp, Hc.
Qed.

Lemma process_line_h1 st line_content m :
  strip line_content ≠ [] →
  re_match H1_MD_PATTERN (strip line_content) = Some m →
  process_line st line_content = on_h1 m st.
Proof.
  intros Hne H1. unfold process_line.
  destruct (strip line_content) as [|c s]; [done|]. by rewrite H1.
Qed.

Lemma foldl_process_line_no_scope st pre :
  current_province st = None → current_city st = None →
  Forall (fun l => strip l ≠ [] ∧ re_match H1_MD_PATTERN (strip l) = None) pre →
  foldl process_line st pre = foldl (fun s l => on_text l s) st pre.
Proof.
  intros Hp Hc H. revert st Hp Hc.
  induction H as [|l pre [Hl1 Hl2] _ IH]; intros st Hp Hc; [done|].
  simpl. rewrite process_line_no_scope by done. by apply IH.
Qed.

Lemma chapter_title_Some line_content title :
  chapter_title line_content = Some title ↔
  strip line_content ≠ []
  ∧ ∃ m, re_match H1_MD_PATTERN (strip line_content) = Some m
         ∧ title = strip (group m 1).
Proof.
  unfold chapter_title. destruct (strip line_content) as [|c s].
  - split; [done|]. by intros [? _].
  - destruct (re_match _ _) as [m|]; simpl; split.
    + intros [= <-]. split; [done|]. eauto.
    + by intros (_ & m' & [= <-] & ->).
    + done.
    + by intros (_ & m' & ? & _).
Qed.

Lemma chapter_title_None line_content :
  strip line_content ≠ [] → chapter_title line_content = None →
  re_match H1_MD_PATTERN (strip line_content) = None.
Proof.
  unfold chapter_title. destruct (strip line_content) as [|c s]; [done|].
  by destruct (re_match _ _).
Qed.

(** X5: what precedes the first chapter heading is not dropped.  Lines
    before it that are not blank, whatever heading of a lower tier they
    look like, are kept in the buffer and end in the detail text of the
    first chapter, in front of its own narrative lines. *)
Theorem text_before_first_chapter pre heading title texts :
  Forall (fun l => strip l ≠ [] ∧ chapter_title l = None) pre →
  chapter_title heading = Some title →
  Forall narrative_line texts →
  @parse_markdown code geom (pre ++ heading :: texts)
  = Some [Region (Attrs title 1%Z None None None []
                    (strip (join_lines (strip_newlines <$> pre ++ texts))) None)
            (Some [])].
Proof.
  intros Hpre (Hne & m & Hm & ->)%chapter_title_Some Htexts.
  assert (Forall (fun l => strip l ≠ []
                           ∧ re_match H1_MD_PATTERN (strip l) = None) pre)
    as Hpre'.
  { eapply Forall_impl; [done|]. intros l [? ?]. split; [done|].
    by apply chapter_title_None. }
  unfold parse_markdown, run_parser.
  rewrite foldl_app. cbn [foldl].
  rewrite (foldl_process_line_no_scope initial_state pre) by done.
  rewrite (process_line_h1 _ heading m) by done.
  rewrite foldl_process_line_narrative by done.
  rewrite !foldl_on_text.
  change (on_h1 m _)
    with (ParserState (code:=code) (geom:=geom)
            [Entity (Attrs (strip (group m 1)) 1%Z None None None [] [] None)
               (Some [])]
            [0%nat] (Some 0%nat) None None (Some 0%nat) text_detail_key
            (strip_newlines <$> pre)).
  cbn [store processed_data current_province current_city current_district
       active_entity active_field current_text_buffer].
  rewrite <- fmap_app.
  destruct (strip_newlines <$> pre ++ texts) as [|b bs] eqn:Eb; [done|].
  unfold flush_buffer.
  cbn [store processed_data current_province current_city current_district
       active_entity active_field current_text_buffer].
  by destruct (strip (join_lines (b :: bs))) as [|c t].
Qed.

(** *** Headings are written once *)

Lemma headings_kept_refl h : headings_kept h h.
Proof. intros r e He. by exists e. Qed.

Lemma headings_kept_trans h1 h2 h3 :
  headings_kept h1 h2 → headings_kept h2 h3 → headings_kept h1 h3.
Proof.
  intros H12 H23 r e He. destruct (H12 r e He) as (e' & He' & E').
  destruct (H23 r e' He') as (e'' & He'' & E''). exists e''.
  split; [done|]. by rewrite E''.
Qed.

Lemma headings_kept_app h k : headings_kept h (h ++ k).
Proof. intros r e He. exists e. split; [|done]. by apply lookup_app_l_Some. Qed.

Lemma headings_kept_alter h (f : entity code geom → entity code geom) i :
  (∀ e, heading_of (f e) = heading_of e) → headings_kept h (alter f i h).
Proof.
  intros Hf r e He. destruct (decide (i = r)) as [->|Hne].
  - exists (f e). by rewrite list_lookup_alter_eq, He.
  - exists e. by rewrite list_lookup_alter_ne.
Qed.

Lemma add_text_heading f t e : heading_of (add_text f t e) = heading_of e.
Proof. by destruct f. Qed.

Lemma headings_kept_flush st :
  headings_kept (store st) (store (flush_buffer st)).
Proof.
  destruct (flush_buffer_store st) as [->|(f & t & r & ->)].
  - apply headings_kept_refl.
  - apply headings_kept_alter. intros; apply add_text_heading.
Qed.

Lemma headings_kept_process_line st line_content :
  headings_kept (store st) (store (process_line st line_content)).
Proof.
  destruct (process_line_cases st line_content)
    as [->|[[m ->]|[(p & Hp & ->)|[(p & m & Hp & ->)|[(c & Hc & ->)|
         [(c & m & Hc & ->)| ->]]]]]];
    try apply headings_kept_refl;
    (eapply headings_kept_trans; [apply headings_kept_flush|]);
    cbn [on_h1 on_h2 on_h3 on_h2_special_zero on_h3_special_zero store];
    try apply headings_kept_refl.
  - apply headings_kept_app.
  - eapply headings_kept_trans; [apply headings_kept_app|].
    by apply headings_kept_alter.
  - eapply headings_kept_trans; [apply headings_kept_app|].
    by apply headings_kept_alter.
Qed.

Lemma root_names_kept st st' :
  processed_data st' = processed_data st →
  Forall (fun r => entity_at (store st) r 1%Z) (processed_data st) →
  headings_kept (store st) (store st') →
  root_names st' = root_names st.
Proof.
  intros Hpd Hroots Hk. unfold root_names. rewrite Hpd.
  apply list_eq. intros i. rewrite !list_lookup_fmap.
  destruct (processed_data st !! i) as [r|] eqn:Hr; [|done]. simpl. f_equal.
  rewrite Forall_lookup in Hroots. destruct (Hroots i r Hr) as (e & He & _).
  destruct (Hk r e He) as (e' & -> & E'). rewrite He. simpl.
  unfold heading_of in E'. by injection E' as -> _ _.
Qed.

Lemma root_names_flush st :
  parser_inv st → root_names (flush_buffer st) = root_names st.
Proof.
  intros Hinv. apply root_names_kept.
  - apply flush_buffer_frame.
  - apply Hinv.
  - apply headings_kept_flush.
Qed.

Lemma root_names_on_h1 m st :
  parser_inv st →
  root_names (on_h1 m st) = root_names st ++ [Some (strip (group m 1))].
Proof.
  intros Hinv. rewrite <- (root_names_flush st Hinv).
  apply parser_inv_flush in Hinv. unfold on_h1.
  set (st' := flush_buffer st) in *. unfold root_names at 1.
  cbn [store processed_data]. rewrite fmap_app. f_equal.
  - unfold root_names. apply list_eq. intros i. rewrite !list_lookup_fmap.
    destruct (processed_data st' !! i) as [r|] eqn:Hr; [|done]. simpl. f_equal.
    pose proof (inv_roots _ Hinv) as Hroots. rewrite Forall_lookup in Hroots.
    destruct (Hroots i r Hr) as (e & He & _).
    by rewrite (lookup_app_l_Some _ _ _ _ He), He.
  - simpl. rewrite lookup_app_r by lia. by rewrite Nat.sub_diag.
Qed.

Lemma root_names_process_line st line_content :
  parser_inv st →
  root_names (process_line st line_content)
  = root_names st ++ (Some <$> option_list (chapter_title line_content)).
Proof.
  intros Hinv.
  destruct (chapter_title line_content) as [title|] eqn:Et.
  - apply chapter_title_Some in Et as (Hne & m & Hm & ->).
    rewrite (process_line_h1 _ _ m) by done. by apply root_names_on_h1.
  - simpl. rewrite app_nil_r. apply root_names_kept.
    + unfold chapter_title in Et. unfold process_line.
      destruct (strip line_content) as [|c s]; [done|].
      destruct (re_match H1_MD_PATTERN _); [done|].
      repeat case_match; try done;
        cbn [on_h2_special_zero on_h2 on_h3_special_zero on_h3 on_text
             processed_data];
        apply flush_buffer_frame.
    + apply Hinv.
    + apply headings_kept_process_line.
Qed.

Lemma parser_inv_foldl st lines :
  parser_inv st → parser_inv (foldl process_line st lines).
Proof.
  revert st. induction lines as [|l ls IH]; intros st Hst; [done|].
  simpl. by apply IH, parser_inv_process_line.
Qed.

Lemma root_names_foldl st lines :
  parser_inv st →
  root_names (foldl process_line st lines)
  = root_names st ++ (Some <$> omap chapter_title lines).
Proof.
  revert st. induction lines as [|l lines IH]; intros st Hinv.
  - simpl. by rewrite app_nil_r.
  - cbn [foldl]. rewrite IH by by apply parser_inv_process_line.
    rewrite root_names_process_line by done. rewrite <- app_assoc. f_equal.
    cbn [omap list_omap]. by destruct (chapter_title l).
Qed.

Lemma reify_fields d h r (n : AdministrativeRegion code geom) :
  reify d h r = Some n → e_attrs <$> h !! r = Some (fields n).
Proof.
  destruct d as [|d]; [done|]. rewrite reify_S.
  destruct (h !! r) as [e|]; [|done].
  destruct (e_children e) as [l|]; [|by intros [= <-]].
  destruct (mapM _ l); [|done]. by intros [= <-].
Qed.

Lemma parse_markdown_names lines (md : ProcessedData code geom) :
  parse_markdown lines = Some md →
  name ∘ fields <$> md = omap chapter_title lines.
Proof.
  intros Hmd.
  assert (root_names (@run_parser code geom lines)
          = Some <$> omap chapter_title lines) as Hnames.
  { unfold run_parser.
    assert (parser_inv (foldl process_line (@initial_state code geom) lines))
      as Hinv by apply parser_inv_foldl, parser_inv_initial.
    rewrite root_names_flush by done.
    by rewrite root_names_foldl by apply parser_inv_initial. }
  unfold parse_markdown in Hmd. apply mapM_Some_1 in Hmd.
  unfold root_names in Hnames.
  apply (inj (fmap Some)). rewrite <- Hnames. clear Hnames.
  induction Hmd as [|r n rs ns Hrn _ IH]; [done|].
  cbn [fmap list_fmap]. f_equal; [|done].
  apply reify_fields in Hrn. destruct (_ !! r) as [e|]; [|done].
  simpl in *. by injection Hrn as ->.
Qed.

(** X2: the forest has one root for each chapter heading of the file,
    in file order, named by the trimmed title of that heading; a file
    with no such heading, the empty one included, gives the empty forest. *)
Theorem parse_markdown_chapter_titles lines :
  ∃ md, @parse_markdown code geom lines = Some md
        ∧ name ∘ fields <$> md = omap chapter_title lines.
Proof.
  destruct (parse_markdown_total (code:=code) (geom:=geom) lines) as [md Hmd].
  exists md. split; [done|]. by apply parse_markdown_names.
Qed.

(** *** What every record of a parsed forest looks like *)

Lemma flush_buffer_store_trimmed st :
  store (flush_buffer st) = store st
  ∨ ∃ f t r, t ≠ [] ∧ trimmed t
             ∧ store (flush_buffer st) = alter (add_text f t) r (store st).
Proof.
  unfold flush_buffer.
  destruct (active_entity st) as [r|], (current_text_buffer st) as [|b bs];
    try by left.
  cbn [store]. destruct (strip (join_lines (b :: bs))) as [|c t] eqn:E; [by left|].
  right. exists (active_field st), (c :: t), r. split; [done|]. split; [|done].
  unfold trimmed. rewrite <- E. apply strip_idemp.
Qed.

Lemma add_text_tidy f t e :
  t ≠ [] → trimmed t → tidy (e_attrs e) → tidy (e_attrs (add_text f t e)).
Proof.
  intros Hne Ht (Hpa & Hg & Hd). unfold add_text, tidy.
  destruct f; cbn [get_text set_text e_attrs parent_adcode text_general
                    text_detail].
  - split; [done|]. split; [|done].
    destruct (text_general (e_attrs e)) as [|c s] eqn:E; [done|].
    by apply strip_join_fixed.
  - split; [done|]. split; [done|].
    destruct (text_detail (e_attrs e)) as [|c s] eqn:E; [done|].
    by apply strip_join_fixed.
Qed.

Lemma tidy_flush st :
  Forall (fun e => tidy (e_attrs e)) (store st) →
  Forall (fun e => tidy (e_attrs e)) (store (flush_buffer st)).
Proof.
  intros Hst.
  destruct (flush_buffer_store_trimmed st) as [->|(f & t & r & Hne & Ht & ->)];
    [done|].
  apply Forall_alter; [done|]. intros e _ He. by apply add_text_tidy.
Qed.

Lemma tidy_new h (parent : option (entity code geom)) nm lv pn :
  store_unlinked h → (∀ e, parent = Some e → e ∈ h) →
  tidy (Attrs (code:=code) (geom:=geom) nm lv None pn
          (parent ≫= adcode ∘ e_attrs) [] [] None).
Proof.
  intros Hu Hin. split; [|done]. simpl.
  destruct parent as [e|]; [|done]. simpl.
  unfold store_unlinked in Hu. rewrite Forall_forall in Hu.
  by apply Hu, Hin.
Qed.

Lemma tidy_process_line st line_content :
  parser_inv st →
  Forall (fun e => tidy (e_attrs e)) (store st) →
  Forall (fun e => tidy (e_attrs e)) (store (process_line st line_content)).
Proof.
  intros Hinv Hst.
  pose proof (tidy_flush st Hst) as Hfl.
  pose proof (inv_unlinked _ (parser_inv_flush st Hinv)) as Hu.
  destruct (process_line_cases st line_content)
    as [->|[[m ->]|[(p & Hp & ->)|[(p & m & Hp & ->)|[(c & Hc & ->)|
         [(c & m & Hc & ->)| ->]]]]]];
    try done;
    cbn [on_h1 on_h2 on_h3 store].
  - apply Forall_app. split; [done|]. by repeat constructor.
  - apply Forall_alter; [|done].
    apply Forall_app. split; [done|]. repeat constructor. cbn [e_attrs].
    eapply tidy_new; [exact Hu|]. intros e He. by eapply list_elem_of_lookup_2.
  - apply Forall_alter; [|done].
    apply Forall_app. split; [done|]. repeat constructor. cbn [e_attrs].
    eapply tidy_new; [exact Hu|]. intros e He. by eapply list_elem_of_lookup_2.
Qed.

Lemma tidy_run lines :
  Forall (fun e => tidy (e_attrs e)) (store (@run_parser code geom lines)).
Proof.
  unfold run_parser. apply tidy_flush.
  assert (∀ st : @parser_state code geom,
            parser_inv st → Forall (fun e => tidy (e_attrs e)) (store st) →
            Forall (fun e => tidy (e_attrs e))
              (store (foldl process_line st lines))) as H.
  { induction lines as [|l ls IH]; intros st Hinv Hst; [done|].
    simpl. apply IH; [by apply parser_inv_process_line|].
    by apply tidy_process_line. }
  apply H; [apply parser_inv_initial|constructor].
Qed.

Lemma reify_Forall (Q : attrs code geom → Prop) d h r
    (n : AdministrativeRegion code geom) :
  Forall (fun e => Q (e_attrs e)) h → reify d h r = Some n →
  Forall (fun m => Q (fields m)) (subtrees n).
Proof.
  intros Hh. revert r n. induction d as [|d IH]; intros r n; [done|].
  rewrite reify_S. destruct (h !! r) as [e|] eqn:He; [|done].
  assert (Q (e_attrs e)) as HQ.
  { rewrite Forall_lookup in Hh. by eapply Hh. }
  destruct (e_children e) as [l|].
  - destruct (mapM (reify d h) l) as [cs|] eqn:Hcs; [|done].
    intros [= <-]. apply Forall_subtrees_node. split; [done|].
    apply mapM_Some_1 in Hcs. clear He.
    induction Hcs as [|x y l cs Hxy _ IHl]; constructor; [by eapply IH|done].
  - intros [= <-]. simpl. constructor; [done|constructor].
Qed.

Lemma parse_markdown_tidy lines (md : ProcessedData code geom) :
  parse_markdown lines = Some md → Forall (fun n => tidy (fields n)) (nodes md).
Proof.
  unfold parse_markdown. pose proof (tidy_run lines) as Ht.
  intros H%mapM_Some_1. apply Forall_nodes.
  induction H as [|x y l cs Hxy _ IHl]; constructor; [|done].
  by eapply (reify_Forall tidy).
Qed.

(** X4: the texts of every record of a parsed forest are trimmed: no
    white space, hence no blank line, at either end, however the
    narrative lines were spread over the file. *)
Theorem parse_markdown_texts_trimmed lines :
  ∃ md, @parse_markdown code geom lines = Some md
        ∧ Forall (fun n => strip (text_general (fields n)) = text_general (fields n)
                           ∧ strip (text_detail (fields n)) = text_detail (fields n))
            (nodes md).
Proof.
  destruct (parse_markdown_total (code:=code) (geom:=geom) lines) as [md Hmd].
  exists md. split; [done|].
  eapply Forall_impl; [by apply (parse_markdown_tidy lines)|].
  by intros n (_ & Hg & Hd).
Qed.

(** *** The three tiers *)

Lemma child_of_kept h h' e e' lv c :
  headings_kept h h' → name (e_attrs e') = name (e_attrs e) →
  child_of h e lv c → child_of h' e' lv c.
Proof.
  intros Hk Hn (ec & Hec & Hlv & Hpn).
  destruct (Hk c ec Hec) as (ec' & Hec' & E). exists ec'.
  unfold heading_of in E. injection E as _ El Ep.
  split; [done|]. split; congruence.
Qed.

Lemma tiered_kept h h' r e e' :
  headings_kept h h' → h !! r = Some e →
  heading_of e' = heading_of e → e_children e' = e_children e →
  tiered h →
  (level (e_attrs e') = 1%Z ∧ parent_name (e_attrs e') = None
   ∧ ∃ l, e_children e' = Some l ∧ Forall (child_of h' e' 2%Z) l)
  ∨ (level (e_attrs e') = 2%Z
     ∧ ∃ l, e_children e' = Some l ∧ Forall (child_of h' e' 3%Z) l)
  ∨ (level (e_attrs e') = 3%Z ∧ e_children e' = None).
Proof.
  intros Hk He E Hch Hh. unfold heading_of in E. injection E as En El Ep.
  rewrite El, Ep, Hch.
  destruct (Hh r e He) as [(? & ? & l & ? & Hl)|[(? & l & ? & Hl)|[? ?]]].
  - left. split; [done|]. split; [done|]. exists l. split; [done|].
    eapply Forall_impl; [done|]. intros c Hc. by eapply child_of_kept.
  - right; left. split; [done|]. exists l. split; [done|].
    eapply Forall_impl; [done|]. intros c Hc. by eapply child_of_kept.
  - right; right. done.
Qed.

Lemma tiered_alter_attrs h (f : entity code geom → entity code geom) i :
  (∀ e, heading_of (f e) = heading_of e) →
  (∀ e, e_children (f e) = e_children e) →
  tiered h → tiered (alter f i h).
Proof.
  intros Hf Hch Hh r e' Hr.
  assert (∃ e, h !! r = Some e ∧ heading_of e' = heading_of e
               ∧ e_children e' = e_children e) as (e & He & E1 & E2).
  { destruct (decide (i = r)) as [->|Hne].
    - rewrite list_lookup_alter_eq in Hr.
      destruct (h !! r) as [e0|]; [|done]. injection Hr as <-. by exists e0.
    - rewrite list_lookup_alter_ne in Hr by done. by exists e'. }
  eapply tiered_kept; try done. by apply headings_kept_alter.
Qed.

Lemma tiered_app h e :
  (level (e_attrs e) = 1%Z ∧ parent_name (e_attrs e) = None
   ∧ e_children e = Some [])
  ∨ (level (e_attrs e) = 2%Z ∧ e_children e = Some [])
  ∨ (level (e_attrs e) = 3%Z ∧ e_children e = None) →
  tiered h → tiered (h ++ [e]).
Proof.
  intros He Hh r e' Hr. apply lookup_app_Some in Hr as [Hr|[_ Hr]].
  - eapply tiered_kept; try done. apply headings_kept_app.
  - apply list_lookup_singleton_Some in Hr as [_ <-].
    destruct He as [(? & ? & ?)|[(? & ?)|(? & ?)]].
    + left. split; [done|]. split; [done|]. by exists [].
    + right; left. split; [done|]. by exists [].
    + right; right. done.
Qed.

(** Appending the child [c], an object of the next level that names the
    object at [i] as its parent, to the children of that object. *)
Lemma tiered_alter_child h (f : entity code geom → entity code geom)
    i c lv ei :
  (lv = 1%Z ∨ lv = 2%Z) →
  (∀ e, e_attrs (f e) = e_attrs e) →
  (∀ e l, e_children e = Some l → e_children (f e) = Some (l ++ [c])) →
  h !! i = Some ei → level (e_attrs ei) = lv → child_of h ei (lv + 1)%Z c →
  tiered h → tiered (alter f i h).
Proof.
  intros Hlv Hf Hch Hei Hli Hc Hh r e' Hr.
  assert (headings_kept h (alter f i h)) as Hk.
  { apply headings_kept_alter. intros e. unfold heading_of. by rewrite Hf. }
  destruct (decide (i = r)) as [->|Hne].
  - rewrite list_lookup_alter_eq, Hei in Hr. injection Hr as <-.
    rewrite Hf.
    assert (name (e_attrs (f ei)) = name (e_attrs ei)) as Hn by by rewrite Hf.
    destruct (Hh r ei Hei) as [(? & ? & l & Hl & HF)|[(? & l & Hl & HF)|[? ?]]].
    + left. split; [done|]. split; [done|]. exists (l ++ [c]).
      split; [by apply Hch|]. apply Forall_app. split.
      * eapply Forall_impl; [done|]. intros x Hx. by eapply child_of_kept.
      * repeat constructor. eapply child_of_kept; [done..|].
        destruct Hlv as [-> | ->]; [done|congruence].
    + right; left. split; [done|]. exists (l ++ [c]).
      split; [by apply Hch|]. apply Forall_app. split.
      * eapply Forall_impl; [done|]. intros x Hx. by eapply child_of_kept.
      * repeat constructor. eapply child_of_kept; [done..|].
        destruct Hlv as [-> | ->]; [congruence|done].
    + destruct Hlv; congruence.
  - rewrite list_lookup_alter_ne in Hr by done.
    by eapply tiered_kept.
Qed.

Lemma tiered_flush st : tiered (store st) → tiered (store (flush_buffer st)).
Proof.
  intros Hst. destruct (flush_buffer_store st) as [->|(f & t & r & ->)]; [done|].
  apply tiered_alter_attrs; [|intros; apply add_text_frame|done].
  intros; apply add_text_heading.
Qed.

Lemma tiered_on_h2 p m st :
  current_province st = Some p → parser_inv st →
  tiered (store st) → tiered (store (on_h2 p m st)).
Proof.
  intros Hcur Hinv Hst. apply tiered_flush in Hst.
  pose proof (parser_inv_flush st Hinv) as Hinv'.
  destruct (flush_buffer_frame st) as (_ & Fp & _).
  destruct (inv_province _ Hinv' p) as (ep & Hep & Hlp); [by rewrite Fp|].
  unfold on_h2. set (st' := flush_buffer st) in *. cbn [store].
  rewrite Hep. cbn [fmap option_fmap option_map].
  set (new := Entity _ _).
  apply (tiered_alter_child _ _ p (length (store st')) 1%Z ep).
  - by left.
  - done.
  - intros e l Hl. unfold append_child. by rewrite Hl.
  - by apply lookup_app_l_Some.
  - done.
  - exists new. split; [|done].
    rewrite lookup_app_r by lia. by rewrite Nat.sub_diag.
  - apply tiered_app; [|done]. right; left. done.
Qed.

Lemma tiered_on_h3 c m st :
  current_city st = Some c → parser_inv st →
  tiered (store st) → tiered (store (on_h3 c m st)).
Proof.
  intros Hcur Hinv Hst. apply tiered_flush in Hst.
  pose proof (parser_inv_flush st Hinv) as Hinv'.
  destruct (flush_buffer_frame st) as (_ & _ & Fc & _).
  destruct (inv_city _ Hinv' c) as (ec & Hec & Hlc); [by rewrite Fc|].
  unfold on_h3. set (st' := flush_buffer st) in *. cbn [store].
  rewrite Hec. cbn [fmap option_fmap option_map].
  set (new := Entity _ _).
  apply (tiered_alter_child _ _ c (length (store st')) 2%Z ec).
  - by right.
  - done.
  - intros e l Hl. unfold append_child_default. by rewrite Hl.
  - by apply lookup_app_l_Some.
  - done.
  - exists new. split; [|done].
    rewrite lookup_app_r by lia. by rewrite Nat.sub_diag.
  - apply tiered_app; [|done]. right; right. done.
Qed.

Lemma tiered_process_line st line_content :
  parser_inv st → tiered (store st) →
  tiered (store (process_line st line_content)).
Proof.
  intros Hinv Hst.
  destruct (process_line_cases st line_content)
    as [->|[[m ->]|[(p & Hp & ->)|[(p & m & Hp & ->)|[(c & Hc & ->)|
         [(c & m & Hc & ->)| ->]]]]]].
  - done.
  - cbn [on_h1 store]. apply tiered_app; [|by apply tiered_flush].
    left. done.
  - by apply tiered_flush.
  - by apply tiered_on_h2.
  - by apply tiered_flush.
  - by apply tiered_on_h3.
  - done.
Qed.

Lemma tiered_run lines : tiered (store (@run_parser code geom lines)).
Proof.
  unfold run_parser. apply tiered_flush.
  assert (∀ st : @parser_state code geom,
            parser_inv st → tiered (store st) →
            tiered (store (foldl process_line st lines))) as H.
  { induction lines as [|l ls IH]; intros st Hinv Hst; [done|].
    simpl. apply IH; [by apply parser_inv_process_line|].
    by apply tiered_process_line. }
  apply H; [apply parser_inv_initial|]. by intros r e Hr.
Qed.

Lemma reify_district h ep r d (n : AdministrativeRegion code geom) :
  tiered h → child_of h ep 3%Z r → reify (S d) h r = Some n →
  level (fields n) = 3%Z
  ∧ parent_name (fields n) = Some (name (e_attrs ep))
  ∧ children n = None.
Proof.
  intros Hh (e & He & Hl & Hp). rewrite reify_S, He.
  destruct (Hh r e He) as [(? & _)|[(? & _)|[_ Hc]]]; [congruence..|].
  rewrite Hc. by intros [= <-].
Qed.

Lemma reify_city h ep r d (n : AdministrativeRegion code geom) :
  tiered h → child_of h ep 2%Z r → reify (S (S d)) h r = Some n →
  level (fields n) = 2%Z
  ∧ parent_name (fields n) = Some (name (e_attrs ep))
  ∧ ∃ ds, children n = Some ds ∧ Forall (district_under n) ds.
Proof.
  intros Hh (e & He & Hl & Hp). rewrite reify_S, He.
  destruct (Hh r e He) as [(? & _)|[(_ & l & Hc & HF)|[? _]]]; [congruence| |congruence].
  rewrite Hc. destruct (mapM _ l) as [cs|] eqn:Hcs; [|done].
  intros [= <-]. split; [done|]. split; [done|]. exists cs. split; [done|].
  apply mapM_Some_1 in Hcs. clear Hc.
  induction Hcs as [|x y l cs Hxy _ IH]; [constructor|].
  apply Forall_cons in HF as [Hx HF]. constructor; [|by apply IH].
  by eapply reify_district.
Qed.

Lemma reify_chapter h r (n : AdministrativeRegion code geom) :
  tiered h → entity_at h r 1%Z → reify 3 h r = Some n → chapter_record n.
Proof.
  intros Hh (e & He & Hl). rewrite reify_S, He.
  destruct (Hh r e He) as [(_ & Hp & l & Hc & HF)|[(? & _)|[? _]]];
    [|congruence..].
  rewrite Hc. destruct (mapM _ l) as [cs|] eqn:Hcs; [|done].
  intros [= <-]. split; [done|]. split; [done|]. exists cs. split; [done|].
  apply mapM_Some_1 in Hcs. clear Hc.
  induction Hcs as [|x y l cs Hxy _ IH]; [constructor|].
  apply Forall_cons in HF as [Hx HF]. constructor; [|by apply IH].
  by eapply reify_city.
Qed.

Lemma parse_markdown_chapters lines (md : ProcessedData code geom) :
  parse_markdown lines = Some md → Forall chapter_record md.
Proof.
  unfold parse_markdown. pose proof (tiered_run lines) as Ht.
  destruct (parser_inv_run (code:=code) (geom:=geom) lines) as [_ Hr _ _ _].
  intros H%mapM_Some_1.
  induction H as [|x y l cs Hxy _ IHl]; [constructor|].
  apply Forall_cons in Hr as [Hx Hr]. constructor; [|by apply IHl].
  by eapply reify_chapter.
Qed.

(** X3: every parsed forest has the three tiers and no more: its roots
    are level-1 records without a parent name; their children, and no
    other records, are level-2 records that carry the name of their
    parent; the children of those are level-3 records that carry the
    name of theirs and have no children entry at all. *)
Theorem parse_markdown_three_tiers lines :
  ∃ md, @parse_markdown code geom lines = Some md ∧ Forall chapter_record md.
Proof.
  destruct (parse_markdown_total (code:=code) (geom:=geom) lines) as [md Hmd].
  exists md. split; [done|]. by apply (parse_markdown_chapters lines).
Qed.
End ParserMore.

(** ** link_data, once more *)

Section LinkerMore.
Context {code geom : Type} `{!EqDecision code}.

Implicit Types (a : attrs code geom) (n p c d : AdministrativeRegion code geom).
Implicit Types (gp : GeoDataFrame (province_row code geom)).
Implicit Types (gc : GeoDataFrame (city_row code geom)).
Implicit Types (gd : GeoDataFrame (district_row code geom)).
Implicit Types (md : ProcessedData code geom).

Lemma link_district_idemp gd a d :
  link_district gd a (link_district gd a d) = link_district gd a d.
Proof.
  unfold link_district. destruct (_ || _); [done|].
  destruct (filter
              (fun r => normalize_name (Some (dt_name r))
                        = normalize_name (Some (name (fields d))))
              (filter (fun r => Some (dt_ct_adcode r) = adcode a) (rows gd)))
    as [|r rest] eqn:F.
  - by rewrite F.
  - cbn [fields name assign children]. by rewrite F.
Qed.

Lemma link_city_idemp gc gd a c :
  link_city gc gd a (link_city gc gd a c) = link_city gc gd a c.
Proof.
  unfold link_city. destruct (_ || _); [done|].
  destruct (filter
              (fun r => normalize_name (Some (ct_name r))
                        = normalize_name (Some (name (fields c))))
              (filter (fun r => Some (ct_pr_adcode r) = adcode a) (rows gc)))
    as [|r rest] eqn:F.
  - by rewrite F.
  - cbn [fields name assign children]. rewrite F. f_equal.
    destruct (children c) as [l|]; [|done]. cbn [fmap option_fmap option_map].
    f_equal. rewrite <- list_fmap_compose. apply list_fmap_ext.
    intros i d _. apply link_district_idemp.
Qed.

Lemma link_province_idemp gp gc gd p :
  link_province gp gc gd (link_province gp gc gd p) = link_province gp gc gd p.
Proof.
  unfold link_province. destruct (negb _); [done|].
  destruct (filter
              (fun r => normalize_name (Some (pr_name r))
                        = normalize_name (Some (name (fields p))))
              (rows gp))
    as [|r rest] eqn:F.
  - by rewrite F.
  - cbn [fields name assign children]. rewrite F. f_equal.
    destruct (children p) as [l|]; [|done]. cbn [fmap option_fmap option_map].
    f_equal. rewrite <- list_fmap_compose. apply list_fmap_ext.
    intros i c _. apply link_city_idemp.
Qed.

(** X7: linking a forest that was already linked against the same
    tables changes nothing, whatever the forest and the tables are. *)
Theorem link_data_idempotent md (shp_data : ShpData code geom) :
  link_data (link_data md shp_data) shp_data = link_data md shp_data.
Proof.
  destruct (link_data_cases md shp_data)
    as [E|(gp & gc & gd & Hp & Hc & Hd & E)]; rewrite E; [done|].
  destruct (link_data_cases (link_province gp gc gd <$> md) shp_data)
    as [E'|(gp' & gc' & gd' & Hp' & Hc' & Hd' & E')]; rewrite E'; [done|].
  simplify_eq. rewrite <- list_fmap_compose. apply list_fmap_ext.
  intros i p _. apply link_province_idemp.
Qed.

End LinkerMore.

(** ** The callers *)

Section CallersFacts.
Context {code geom : Type}.

Implicit Types (n m p c d : AdministrativeRegion code geom).
Implicit Types (md : ProcessedData code geom).

(** *** Search *)

Lemma search_in_children query l (acc : list (AdministrativeRegion code geom)) :
  Forall (fun c => ∀ acc, search_in_region query c acc
            = acc ++ filter (fun m => contains (name (fields m)) query = true)
                       (subtrees c)) l →
  foldl (fun results child => search_in_region query child results) acc l
  = acc ++ filter (fun m => contains (name (fields m)) query = true)
             (flat_map subtrees l).
Proof.
  intros Hl. revert acc. induction Hl as [|c l Hc _ IH]; intros acc.
  - simpl. by rewrite app_nil_r.
  - cbn [foldl flat_map]. rewrite IH, Hc, filter_app. by rewrite app_assoc.
Qed.

Lemma search_in_region_filter query n acc :
  search_in_region query n acc
  = acc ++ filter (fun m => contains (name (fields m)) query = true) (subtrees n).
Proof.
  revert acc. induction n as [a|a l IH] using region_ind'; intros acc.
  - cbn [search_in_region subtrees fields]. rewrite filter_cons. cbn [fields].
    destruct (contains (name a) query); by rewrite ?app_nil_r.
  - cbn [search_in_region subtrees fields].
    rewrite search_in_children by done. rewrite filter_cons. cbn [fields].
    destruct (contains (name a) query); simpl; by rewrite <- ?app_assoc.
Qed.

Lemma search_regions_as_filter md query :
  search_regions md query
  = filter (fun m => contains (name (fields m)) query = true) (nodes md).
Proof.
  unfold search_regions, nodes.
  rewrite (search_in_children query md []); [done|].
  apply Forall_forall. intros c _ acc. apply search_in_region_filter.
Qed.

Lemma contains_substring s query :
  contains s query = true ↔ ∃ a b, s = a ++ query ++ b.
Proof.
  induction s as [|c s IH]; cbn [contains];
    rewrite orb_true_iff, bool_decide_eq_true.
  - split.
    + intros [[b Hb]|?]; [|done]. by exists [], b.
    + intros (a & b & H). left. exists b.
      symmetry in H. apply app_eq_nil in H as [-> H]. done.
  - rewrite IH. split.
    + intros [[b Hb]|(a & b & ->)]; [by exists [], b|by exists (c :: a), b].
    + intros ([|c' a] & b & H).
      * left. by exists b.
      * right. injection H as -> ->. by exists a, b.
Qed.

(** X10: a search returns the records whose name contains the query,
    all of them and each once per occurrence in the forest, in the
    order in which the forest lists them: a record before its children,
    children in their order. *)
Theorem search_regions_filter md query :
  search_regions md query
  = filter (fun m => contains (name (fields m)) query = true) (nodes md)
  ∧ ∀ m, m ∈ search_regions md query
         ↔ m ∈ nodes md ∧ ∃ a b, name (fields m) = a ++ query ++ b.
Proof.
  split; [apply search_regions_as_filter|]. intros m.
  rewrite search_regions_as_filter, list_elem_of_filter, contains_substring.
  tauto.
Qed.

(** *** The list of results *)

(** X12: after a search is displayed, a click on row [i] of the list
    selects the [i]-th result; a click on the row that says that nothing
    was found, or outside the list, selects nothing. *)
Theorem result_click_round_trip (results : list (AdministrativeRegion code geom)) i :
  on_result_clicked (display_search_results results) i = results !! i.
Proof.
  unfold on_result_clicked, display_search_results.
  cbn [results_model search_results].
  destruct results as [|r rs]; [by destruct i as [|[|i]]|].
  rewrite list_lookup_imap.
  destruct ((r :: rs) !! i) as [x|] eqn:E; [|done].
  cbn [fmap option_fmap option_map item_data].
  rewrite bool_decide_eq_true_2; [done|]. by eapply lookup_lt_Some.
Qed.

(** *** The browse tree *)

Lemma height_children a l k :
  (height (Region (code:=code) (geom:=geom) a (Some l)) ≤ S k)%nat →
  Forall (fun c => (height c ≤ k)%nat) l.
Proof.
  cbn [height]. intros H%le_S_n.
  induction l as [|c l IH]; [constructor|]. cbn [foldr] in H.
  constructor; [lia|]. apply IH. lia.
Qed.

Lemma district_item_rows d :
  (height d ≤ 1)%nat →
  item_data <$> all_rows (district_item d) = Some <$> subtrees d
  ∧ item_text <$> all_rows (district_item d) = name ∘ fields <$> subtrees d.
Proof.
  destruct d as [a [[|c l]|]]; [done| |done].
  intros H%height_children. apply Forall_cons in H as [H _].
  destruct c as [? [?|]]; simpl in H; lia.
Qed.

Lemma item_rows_flat_map {A : Type}
    (f : AdministrativeRegion code geom → QStandardItem A)
    (g : AdministrativeRegion code geom → A) l :
  Forall (fun c => item_data <$> all_rows (f c) = Some ∘ g <$> subtrees c
                   ∧ item_text <$> all_rows (f c) = name ∘ fields <$> subtrees c) l →
  item_data <$> flat_map all_rows (f <$> l) = Some ∘ g <$> flat_map subtrees l
  ∧ item_text <$> flat_map all_rows (f <$> l)
    = name ∘ fields <$> flat_map subtrees l.
Proof.
  induction 1 as [|c l [Hc1 Hc2] _ [IH1 IH2]]; [done|].
  cbn [fmap list_fmap flat_map]. rewrite !fmap_app.
  split; f_equal; done.
Qed.

Lemma city_item_rows c :
  (height c ≤ 2)%nat →
  item_data <$> all_rows (city_item c) = Some <$> subtrees c
  ∧ item_text <$> all_rows (city_item c) = name ∘ fields <$> subtrees c.
Proof.
  destruct c as [a [l|]]; [|done]. intros H%height_children.
  unfold city_item. cbn [all_rows subtrees children default fmap list_fmap].
  destruct (item_rows_flat_map district_item id l) as [H1 H2].
  { eapply Forall_impl; [done|]. intros d Hd. by apply district_item_rows. }
  split; f_equal; done.
Qed.

Lemma province_item_rows p :
  (height p ≤ 3)%nat →
  item_data <$> all_rows (province_item p) = Some <$> subtrees p
  ∧ item_text <$> all_rows (province_item p) = name ∘ fields <$> subtrees p.
Proof.
  destruct p as [a [l|]]; [|done]. intros H%height_children.
  unfold province_item. cbn [all_rows subtrees children default fmap list_fmap].
  destruct (item_rows_flat_map city_item id l) as [H1 H2].
  { eapply Forall_impl; [done|]. intros d Hd. by apply city_item_rows. }
  split; f_equal; done.
Qed.

Lemma populate_browse_tree_rows md browse_model :
  md ≠ [] → Forall (fun n => (height n ≤ 3)%nat) md →
  item_data <$> flat_map all_rows (populate_browse_tree md browse_model)
  = Some <$> nodes md
  ∧ item_text <$> flat_map all_rows (populate_browse_tree md browse_model)
    = name ∘ fields <$> nodes md.
Proof.
  intros Hne Hh. unfold populate_browse_tree, nodes.
  destruct md as [|n md']; [done|].
  apply (item_rows_flat_map province_item id).
  eapply Forall_impl; [done|]. intros p Hp. by apply province_item_rows.
Qed.

(** X13: for a forest of at most three levels that is not empty, the
    browse tree has one row for each record and nothing else: its rows,
    read from top to bottom with every branch unfolded, hold the records
    of the forest in their order, each shown under its name. *)
Theorem browse_tree_complete md browse_model :
  md ≠ [] → Forall (fun n => (height n ≤ 3)%nat) md →
  item_data <$> flat_map all_rows (populate_browse_tree md browse_model)
  = Some <$> nodes md
  ∧ item_text <$> flat_map all_rows (populate_browse_tree md browse_model)
    = name ∘ fields <$> nodes md.
Proof. apply populate_browse_tree_rows. Qed.

End CallersFacts.

(** ** From the file to the window *)

Section PipelineMore.
Context {code geom : Type} `{!EqDecision code}.

Implicit Types (n m p c d : AdministrativeRegion code geom).
Implicit Types (md : ProcessedData code geom).
Implicit Types (shp_data : ShpData code geom).

(** X9: no record ever has a parent identifier.  The parser copies it
    from the parent at a time when the parent has none, and linking gives
    identifiers to the records themselves only. *)
Theorem parent_adcode_never_set lines shp_data :
  ∃ md, parse_markdown lines = Some md
        ∧ Forall (fun n => parent_adcode (fields n) = None) (nodes md)
        ∧ Forall (fun n => parent_adcode (fields n) = None)
            (nodes (link_data md shp_data)).
Proof.
  destruct (parse_markdown_total (code:=code) (geom:=geom) lines) as [md Hmd].
  exists md. split; [done|].
  assert (Forall (fun n => parent_adcode (fields n) = None) (nodes md)) as Hp.
  { eapply Forall_impl; [by apply (parse_markdown_tidy lines)|].
    by intros n (Hn & _). }
  split; [done|].
  eapply (evolves_Forall_nodes (fun n => parent_adcode (fields n) = None));
    [|apply link_data_evolves|done].
  intros a a' cs cs' (_ & _ & _ & Hpa & _). simpl. by rewrite Hpa.
Qed.

(** *** main_data_processing *)

Lemma loaded_and_not_empty_true {row : Type} (t : option (GeoDataFrame row)) :
  loaded_and_not_empty t = true ↔ ∃ df, t = Some df ∧ empty df = false.
Proof.
  destruct t as [df|]; simpl.
  - rewrite negb_true_iff. split; [by exists df|by intros (? & [= <-] & ?)].
  - split; [done|by intros (? & ? & _)].
Qed.

Lemma link_data_runs md shp_data gp gc gd :
  md ≠ [] →
  province shp_data = Some gp → city shp_data = Some gc →
  district shp_data = Some gd →
  empty gp = false → empty gc = false → empty gd = false →
  link_data md shp_data = (link_province gp gc gd <$> md).
Proof.
  intros Hmd Hp Hc Hd Ep Ec Ed. unfold link_data.
  rewrite bool_decide_eq_false_2 by done.
  unfold essential_shp_loaded_and_not_empty. rewrite Hp, Hc, Hd. simpl.
  by rewrite Ep, Ec, Ed.
Qed.

Lemma parse_markdown_nil lines md :
  parse_markdown lines = Some md →
  md = [] ↔ omap chapter_title lines = [].
Proof.
  intros H%parse_markdown_names. rewrite <- H. split; [by intros ->|].
  apply fmap_nil_inv.
Qed.

Lemma main_data_processing_Some {country_row : Type} file
    (country : option (GeoDataFrame country_row)) shp_data result :
  main_data_processing file country shp_data = Some result ↔
  ∃ lines md gp gc gd,
    file = Some lines ∧ parse_markdown lines = Some md
    ∧ omap chapter_title lines ≠ []
    ∧ loaded_and_not_empty country = true
    ∧ province shp_data = Some gp ∧ city shp_data = Some gc
    ∧ district shp_data = Some gd
    ∧ empty gp = false ∧ empty gc = false ∧ empty gd = false
    ∧ result = (link_province gp gc gd <$> md).
Proof.
  unfold main_data_processing. split.
  - destruct file as [lines|]; [|done].
    destruct (parse_markdown_total (code:=code) (geom:=geom) lines) as [md Hmd].
    rewrite Hmd. cbn [default from_option id]. intros H.
    assert (md ≠ []) as Hne by (intros ->; done).
    destruct (loaded_and_not_empty country) eqn:E0,
      (loaded_and_not_empty (province shp_data)) eqn:E1,
      (loaded_and_not_empty (city shp_data)) eqn:E2,
      (loaded_and_not_empty (district shp_data)) eqn:E3;
      cbn [negb orb] in H; try by destruct md.
    apply loaded_and_not_empty_true in E1 as (gp & Hp & Ep).
    apply loaded_and_not_empty_true in E2 as (gc & Hc & Ec).
    apply loaded_and_not_empty_true in E3 as (gd & Hd & Ed).
    exists lines, md, gp, gc, gd.
    split; [done|]. split; [done|].
    split; [by rewrite <- (parse_markdown_nil lines md)|].
    split; [done|]. do 6 (split; [done|]).
    rewrite <- (link_data_runs md shp_data gp gc gd) by done.
    destruct md; [done|]. by injection H as <-.
  - intros (lines & md & gp & gc & gd & -> & Hmd & Hne & E0 & Hp & Hc & Hd
            & Ep & Ec & Ed & ->).
    rewrite Hmd. cbn [default from_option id].
    rewrite <- (parse_markdown_nil lines md) in Hne by done.
    rewrite <- (link_data_runs md shp_data gp gc gd) by done.
    rewrite E0, Hp, Hc, Hd. cbn [loaded_and_not_empty]. rewrite Ep, Ec, Ed.
    by destruct md.
Qed.

(** *** Searching what was linked *)

Lemma evolves_subtrees n n' :
  evolves n n' → Forall2 evolves (subtrees n) (subtrees n').
Proof.
  revert n n'.
  apply (evolves_ind'
           (fun n n' => Forall2 evolves (subtrees n) (subtrees n'))).
  - intros a a' Hf. simpl. constructor; [by constructor|constructor].
  - intros a a' l l' Hf Hl IH. cbn [subtrees]. constructor.
    + by constructor.
    + clear Hl. induction IH as [|x y l l' Hxy _ IHl]; [constructor|].
      cbn [flat_map]. by apply Forall2_app.
Qed.

Lemma evolves_nodes md md' :
  Forall2 evolves md md' → Forall2 evolves (nodes md) (nodes md').
Proof.
  unfold nodes. induction 1 as [|x y l l' Hxy _ IH]; [constructor|].
  cbn [flat_map]. apply Forall2_app; [by apply evolves_subtrees|done].
Qed.

Lemma evolves_name n n' : evolves n n' → name (fields n') = name (fields n).
Proof. by intros [a a' (Hn & _)|a a' l l' (Hn & _) _]. Qed.

Lemma Forall2_filter_related {A : Type} (R : A → A → Prop) (P : A → Prop)
    `{!∀ x, Decision (P x)} l l' :
  (∀ x y, R x y → P x ↔ P y) →
  Forall2 R l l' → Forall2 R (filter P l) (filter P l').
Proof.
  intros HP. induction 1 as [|x y l l' Hxy _ IH]; [constructor|].
  rewrite !filter_cons. destruct (decide (P x)) as [Hx|Hx].
  - rewrite decide_True by by apply (HP x y). by constructor.
  - rewrite decide_False by by rewrite <- (HP x y).
    done.
Qed.

(** X11: linking does not change what a search finds: the results on
    the linked forest are the results on the parsed one, in the same
    order, each with the identifier and the boundary it was given. *)
Theorem search_regions_link_data md shp_data query :
  Forall2 evolves (search_regions md query)
    (search_regions (link_data md shp_data) query).
Proof.
  rewrite !search_regions_as_filter.
  apply Forall2_filter_related.
  - intros n n' Hn. by rewrite (evolves_name n n').
  - apply evolves_nodes, link_data_evolves.
Qed.

End PipelineMore.

(** ** The syntax of the headings *)

Lemma rmatch_Seq r1 r2 s caps k :
  rmatch (Seq r1 r2) s caps k
  = rmatch r1 s caps (fun s' caps' => rmatch r2 s' caps' k).
Proof. reflexivity. Qed.

Lemma rmatch_Lit_app l s caps k : rmatch (Lit l) (l ++ s) caps k = k s caps.
Proof.
  cbn [rmatch]. rewrite bool_decide_eq_true_2 by by apply prefix_app_r.
  by rewrite drop_app_length.
Qed.

Lemma star_prefix {A : Type} p (K : str → option A) ws c t :
  Forall (fun x => p x = true) ws → p c = false → is_Some (K (c :: t)) →
  star p K (ws ++ c :: t) = K (c :: t).
Proof.
  intros Hws Hc [m Hm]. induction Hws as [|x ws Hx _ IH].
  - by apply star_stop.
  - cbn [app star]. by rewrite Hx, IH, Hm.
Qed.

Lemma plus_prefix p ws c t caps k :
  ws ≠ [] → Forall (fun x => p x = true) ws → p c = false →
  is_Some (k (c :: t) caps) →
  rmatch (Plus p) (ws ++ c :: t) caps k = k (c :: t) caps.
Proof.
  intros Hne Hws Hc Hk. destruct Hws as [|x ws Hx Hws]; [done|].
  cbn [app rmatch]. rewrite Hx.
  by apply (star_prefix p (fun s' => k s' caps)).
Qed.

(** The end of the three heading patterns: white space, the title, the
    end of the line. *)
Lemma heading_tail_match ws title caps :
  Forall (fun x => isspace x = true) ws →
  (∃ c t, title = c :: t ∧ isspace c = false) →
  Forall (fun c => dot c = true) title →
  rmatch h2_heading_tail (ws ++ title) caps (fun _ caps' => Some caps')
  = Some (title :: caps).
Proof.
  intros Hws Hhead Hdot.
  pose proof (h2_tail_match title caps Hhead Hdot) as Ht.
  destruct Hhead as (c & t & -> & Hc).
  unfold h2_heading_tail, seq_of in *. cbn [foldr] in *.
  rewrite rmatch_Seq in *. cbn [rmatch] in Ht |- *.
  rewrite star_stop in Ht by done.
  rewrite star_prefix; [exact Ht|done|done|]. eexists. exact Ht.
Qed.

Lemma chapter_heading_match ws1 ds ws2 title :
  ws1 ≠ [] → Forall (fun x => isspace x = true) ws1 →
  ds ≠ [] → Forall (fun x => in_range "0" "9" x = true) ds →
  Forall (fun x => isspace x = true) ws2 →
  (∃ c t, title = c :: t ∧ isspace c = false) →
  Forall (fun c => dot c = true) title →
  re_match H1_MD_PATTERN
    (lit "#" ++ ws1 ++ lit "第" ++ ds ++ lit "章" ++ ws2 ++ title)
  = Some [title].
Proof.
  intros Hne1 Hws1 Hned Hds Hws2 Hhead Hdot. unfold re_match.
  change H1_MD_PATTERN
    with (Seq (Lit (lit "#")) (Seq (Plus isspace) (Seq (Lit (lit "第"))
            (Seq (Plus (in_range "0" "9")) (Seq (Lit (lit "章"))
               h2_heading_tail))))).
  set (K := fun (_ : str) (caps' : captures) => Some caps').
  assert (rmatch (Seq (Lit (lit "章")) h2_heading_tail)
            (lit "章" ++ ws2 ++ title) [] K = Some [title]) as T2.
  { rewrite rmatch_Seq, rmatch_Lit_app. by apply heading_tail_match. }
  assert (rmatch (Seq (Lit (lit "第")) (Seq (Plus (in_range "0" "9"))
                    (Seq (Lit (lit "章")) h2_heading_tail)))
            (lit "第" ++ ds ++ lit "章" ++ ws2 ++ title) [] K = Some [title])
    as T4.
  { rewrite rmatch_Seq, rmatch_Lit_app, rmatch_Seq.
    change (lit "章" ++ ws2 ++ title) with (0x7AE0 :: ws2 ++ title) in *.
    rewrite plus_prefix; [exact T2|done|done|done|].
    eexists. exact T2. }
  rewrite rmatch_Seq, rmatch_Lit_app, rmatch_Seq.
  change (lit "第" ++ ds ++ lit "章" ++ ws2 ++ title)
    with (0x7B2C :: ds ++ lit "章" ++ ws2 ++ title) in *.
  rewrite plus_prefix; [|done|done|done|eexists; exact T4].
  exact (f_equal (fmap reverse) T4).
Qed.

(** X14: the syntax of a chapter heading.  A number sign, white space,
    the word for "number", decimal digits, the word for "chapter",
    white space or none, and a title on the same line make a chapter
    heading with that title, whatever white space ends the line. *)
Theorem chapter_heading_syntax ws1 ds ws2 title ws3 :
  ws1 ≠ [] → Forall (fun x => isspace x = true) ws1 →
  ds ≠ [] → Forall (fun x => in_range "0" "9" x = true) ds →
  Forall (fun x => isspace x = true) ws2 →
  title ≠ [] → strip title = title → Forall (fun c => dot c = true) title →
  Forall (fun x => isspace x = true) ws3 →
  chapter_title
    (lit "#" ++ ws1 ++ lit "第" ++ ds ++ lit "章" ++ ws2 ++ title ++ ws3)
  = Some title.
Proof.
  intros Hne1 Hws1 Hned Hds Hws2 Hne Hstrip Hdot Hws3.
  destruct (strip_fixed_ends title Hstrip Hne) as [Hhead (t & d & Ht & Hd)].
  set (line := lit "#" ++ ws1 ++ lit "第" ++ ds ++ lit "章" ++ ws2 ++ title).
  assert (strip line = line) as Hline.
  { unfold line. rewrite Ht.
    change (lit "#" ++ ?x) with (0x23 :: x).
    rewrite !(app_assoc _ _ [d]). by apply strip_by_id. }
  assert (lit "#" ++ ws1 ++ lit "第" ++ ds ++ lit "章" ++ ws2 ++ title ++ ws3
          = [] ++ line ++ ws3) as ->.
  { unfold line. by rewrite <- !app_assoc. }
  pose proof (chapter_heading_match ws1 ds ws2 title Hne1 Hws1 Hned Hds Hws2
                Hhead Hdot) as Hm.
  fold line in Hm.
  assert (line ≠ []) as Hnil.
  { unfold line. by change (lit "#" ++ ?x) with (0x23 :: x). }
  clearbody line.
  unfold chapter_title. rewrite strip_padded by done. rewrite Hline.
  destruct line as [|c0 l0]; [done|]. rewrite Hm.
  cbn [fmap option_fmap option_map group pred lookup list_lookup default
       from_option id].
  by rewrite Hstrip.
Qed.

Lemma chapter_heading_syntax_witness :
  chapter_title (lit "#" ++ lit " " ++ lit "第" ++ lit "12" ++ lit "章" ++ lit " "
                 ++ lit "广东省" ++ [0x0A])
  = Some (lit "广东省").
Proof.
  apply (chapter_heading_syntax (lit " ") (lit "12") (lit " ") (lit "广东省")
           [0x0A]); try done; by repeat constructor.
Defined.

Lemma digit_cases d :
  in_range "0" "9" d = true →
  d ∈ [0x30; 0x31; 0x32; 0x33; 0x34; 0x35; 0x36; 0x37; 0x38; 0x39].
Proof.
  change (in_range "0" "9" d) with ((0x30 <=? d) && (d <=? 0x39)).
  intros [H1%N.leb_le H2%N.leb_le]%andb_true_iff.
  assert (d = 0x30 ∨ d = 0x31 ∨ d = 0x32 ∨ d = 0x33 ∨ d = 0x34 ∨ d = 0x35
          ∨ d = 0x36 ∨ d = 0x37 ∨ d = 0x38 ∨ d = 0x39) as H by lia.
  repeat (destruct H as [->|H]; [set_solver|]). set_solver.
Qed.

Lemma take_captured (pre rest : str) :
  take (length (pre ++ rest) - length rest) (pre ++ rest) = pre.
Proof.
  rewrite length_app. replace (length pre + length rest - length rest)%nat
    with (length pre) by lia.
  by rewrite take_app_length.
Qed.

Lemma h3_pattern_split s caps k :
  rmatch H3_MD_PATTERN s caps k
  = rmatch h3_heading_prefix s caps
      (fun s' caps' => rmatch h2_heading_tail s' caps' k).
Proof. reflexivity. Qed.

(** A heading line with one of the twenty-five numbers. *)
Lemma h3_number_matches w title :
  w ∈ district_numbers →
  (∃ c t, title = c :: t ∧ isspace c = false) →
  Forall (fun c => dot c = true) title →
  re_match H3_MD_PATTERN (lit "### " ++ lit w ++ lit ". " ++ title)
  = Some [lit w; title].
Proof.
  intros Hw Hhead Hdot. unfold re_match. rewrite h3_pattern_split.
  assert (∀ caps, rmatch h2_heading_tail ([0x20] ++ title) caps
                    (fun _ caps' => Some caps') = Some (title :: caps))
    as Htail.
  { intros caps. apply heading_tail_match; [by repeat constructor|done..]. }
  assert (∀ caps K,
            rmatch h3_heading_prefix (lit "### " ++ lit w ++ lit ". " ++ title)
              caps K
            = K ([0x20] ++ title)
                (take (length (lit w ++ 0x2E :: 0x20 :: title)
                       - length (0x2E :: 0x20 :: title))
                   (lit w ++ 0x2E :: 0x20 :: title) :: caps)) as ->.
  { intros caps K. unfold district_numbers in Hw.
    repeat (apply elem_of_cons in Hw as [->|Hw]);
      [..|by apply elem_of_nil in Hw];
      vm_compute; by destruct (K _ _). }
  rewrite take_captured, Htail. done.
Qed.

Lemma h3_line_trimmed ds title :
  title ≠ [] → strip title = title →
  strip (lit "### " ++ ds ++ lit ". " ++ title)
  = lit "### " ++ ds ++ lit ". " ++ title.
Proof.
  intros Hne Hstrip.
  destruct (strip_fixed_ends title Hstrip Hne) as [_ (t & d & -> & Hd)].
  change (lit "### " ++ ?x) with (0x23 :: lit "## " ++ x).
  rewrite !(app_assoc _ _ [d]). by apply strip_by_id.
Qed.

Ltac each_digit H :=
  apply digit_cases in H;
  repeat (apply elem_of_cons in H as [->|H]);
  [..|by apply elem_of_nil in H].

Lemma h3_special_zero_miss ds title :
  Forall (fun x => in_range "0" "9" x = true) ds →
  re_match H3_SPECIAL_ZERO_PATTERN (lit "### " ++ ds ++ lit ". " ++ title)
  = None.
Proof.
  intros Hds. destruct ds as [|d1 [|d2 rest]]; [by vm_compute|..].
  - apply Forall_cons in Hds as [H1 _].
    each_digit H1; by vm_compute.
  - apply Forall_cons in Hds as [H1 Hds].
    apply Forall_cons in Hds as [H2 _].
    each_digit H1; each_digit H2; by vm_compute.
Qed.

Lemma h3_number_miss ds title :
  Forall (fun x => in_range "0" "9" x = true) ds →
  ds ∉ lit <$> district_numbers →
  re_match H3_MD_PATTERN (lit "### " ++ ds ++ lit ". " ++ title) = None.
Proof.
  intros Hds Hout.
  assert (bool_decide (ds ∈ lit <$> district_numbers) = false) as E
    by by apply bool_decide_eq_false_2.
  clear Hout. destruct ds as [|d1 [|d2 [|d3 rest]]]; [by vm_compute|..].
  - apply Forall_cons in Hds as [H1 _].
    each_digit H1; first [by vm_compute in E|by vm_compute].
  - apply Forall_cons in Hds as [H1 Hds].
    apply Forall_cons in Hds as [H2 _].
    each_digit H1; each_digit H2; first [by vm_compute in E|by vm_compute].
  - clear E.
    apply Forall_cons in Hds as [H1 Hds].
    apply Forall_cons in Hds as [H2 Hds].
    apply Forall_cons in Hds as [H3 _].
    each_digit H1; each_digit H2; try (by vm_compute);
      each_digit H3; by vm_compute.
Qed.

Section HeadingFacts.
Context {code geom : Type}.

Implicit Types (st : @parser_state code geom).

(** X15: the numbers of bottom-tier headings stop at 25.  Under a
    mid-tier record, a line made of three number signs, a decimal number,
    a full stop and a title opens a level-3 record when the number is one
    of 1 to 25 written without a leading zero; with any other number the
    line is narrative text of the record that is active. *)
Theorem district_heading_numbers st c ds title :
  current_city st = Some c →
  Forall (fun x => in_range "0" "9" x = true) ds →
  title ≠ [] → strip title = title → Forall (fun x => dot x = true) title →
  process_line st (lit "### " ++ ds ++ lit ". " ++ title)
  = if bool_decide (ds ∈ lit <$> district_numbers)
    then on_h3 c [ds; title] st
    else on_text (lit "### " ++ ds ++ lit ". " ++ title) st.
Proof.
  intros Hc Hds Hne Hstrip Hdot.
  destruct (strip_fixed_ends title Hstrip Hne) as [Hhead _].
  pose proof (h3_line_trimmed ds title Hne Hstrip) as Hline.
  pose proof (h3_special_zero_miss ds title Hds) as H3z.
  assert (re_match H1_MD_PATTERN (lit "### " ++ ds ++ lit ". " ++ title) = None)
    as H1 by by vm_compute.
  assert (re_match H2_SPECIAL_ZERO_PATTERN
            (lit "### " ++ ds ++ lit ". " ++ title) = None)
    as H2z by by vm_compute.
  assert (re_match H2_MD_PATTERN (lit "### " ++ ds ++ lit ". " ++ title) = None)
    as H2 by by vm_compute.
  assert (re_match H3_MD_PATTERN (lit "### " ++ ds ++ lit ". " ++ title)
          = if bool_decide (ds ∈ lit <$> district_numbers)
            then Some [ds; title] else None) as H3.
  { case_bool_decide as Hin.
    - apply list_elem_of_fmap in Hin as (w & -> & Hw).
      by apply h3_number_matches.
    - by apply h3_number_miss. }
  unfold process_line. rewrite Hline.
  destruct (lit "### " ++ ds ++ lit ". " ++ title) as [|c0 s] eqn:E.
  { by apply app_eq_nil in E as [E _]. }
  rewrite H1, H2z, H2, Hc, H3z, H3.
  destruct (current_province st); by case_bool_decide.
Qed.

End HeadingFacts.

Lemma district_heading_numbers_witness :
  process_line (code:=Z) (geom:=Z) descended_state
    (lit "### " ++ lit "26" ++ lit ". " ++ lit "某区")
  = on_text (lit "### " ++ lit "26" ++ lit ". " ++ lit "某区") descended_state.
Proof.
  apply (district_heading_numbers descended_state 1%nat (lit "26") (lit "某区"));
    try done; by repeat constructor.
Defined.

(** *** Browsing what was loaded *)

Section BrowseFacts.
Context {code geom : Type} `{!EqDecision code}.

Implicit Types (n m p c d : AdministrativeRegion code geom).
Implicit Types (md : ProcessedData code geom).
Implicit Types (shp_data : ShpData code geom).

Lemma height_bound a l k :
  Forall (fun c => (height c ≤ k)%nat) l →
  (height (Region (code:=code) (geom:=geom) a (Some l)) ≤ S k)%nat.
Proof.
  intros Hl. cbn [height]. apply le_n_S.
  induction Hl as [|c l Hc _ IH]; cbn [foldr]; lia.
Qed.

Lemma chapter_record_height p : chapter_record p → (height p ≤ 3)%nat.
Proof.
  destruct p as [a cs]. intros (_ & _ & l & Hl & Hcs). simpl in Hl. subst cs.
  apply height_bound. eapply Forall_impl; [done|].
  intros [b ds] (_ & _ & l' & Hl' & Hds). simpl in Hl'. subst ds.
  apply height_bound. eapply Forall_impl; [done|].
  intros [e k] (_ & _ & Hk). simpl in Hk. by subst k.
Qed.

Lemma evolves_height n n' : evolves n n' → height n' = height n.
Proof.
  revert n n'. apply (evolves_ind' (fun n n' => height n' = height n)).
  - done.
  - intros a a' l l' _ _ IH. cbn [height]. f_equal.
    induction IH as [|x y l l' Hxy _ IHl]; [done|].
    cbn [foldr]. by rewrite Hxy, IHl.
Qed.

(** X16: the browse tree of the window shows all that was loaded: for
    every forest that main_data_processing returns, its rows hold the
    records of the forest, every one of them, in their order and under
    their names. *)
Theorem browse_tree_of_loaded_data {country_row : Type} file
    (country : option (GeoDataFrame country_row)) shp_data result browse_model :
  main_data_processing file country shp_data = Some result →
  item_data <$> flat_map all_rows (populate_browse_tree result browse_model)
  = Some <$> nodes result
  ∧ item_text <$> flat_map all_rows (populate_browse_tree result browse_model)
    = name ∘ fields <$> nodes result.
Proof.
  intros (lines & md & gp & gc & gd & _ & Hmd & Hne & _ & _ & _ & _ & _ & _
          & _ & ->)%main_data_processing_Some.
  rewrite <- (parse_markdown_nil lines md) in Hne by done.
  apply populate_browse_tree_rows.
  - by destruct md.
  - pose proof (parse_markdown_chapters lines md Hmd) as Hch.
    rewrite Forall_fmap. eapply Forall_impl; [exact Hch|].
    intros p Hp. simpl.
    rewrite (evolves_height p) by apply link_province_evolves.
    by apply chapter_record_height.
Qed.

End BrowseFacts.

(** ** link_data on tables as they are read *)

Section RawFacts.
Context {code geom : Type} `{!EqDecision code}.

Implicit Types (a : attrs code geom).
Implicit Types (n m p c d : AdministrativeRegion code geom).
Implicit Types (md : ProcessedData code geom).
Implicit Types (gp : GeoDataFrame (Raw.province_row code geom)).
Implicit Types (gc : GeoDataFrame (Raw.city_row code geom)).
Implicit Types (gd : GeoDataFrame (Raw.district_row code geom)).
Implicit Types (shp_data : Raw.ShpData code geom).

(** *** Loops that may raise *)

Lemma raw_bind_Ok {A B : Type} (x : Raw.result A) (f : A → Raw.result B) b :
  Raw.bind x f = Raw.Ok b ↔ ∃ y, x = Raw.Ok y ∧ f y = Raw.Ok b.
Proof.
  destruct x as [y|e]; simpl.
  - split; [by exists y|by intros (? & [= <-] & ?)].
  - split; [done|by intros (? & ? & _)].
Qed.

Lemma raw_bind_Raise {A B : Type} (x : Raw.result A) (f : A → Raw.result B) e :
  Raw.bind x f = Raw.Raise e
  ↔ x = Raw.Raise e ∨ ∃ y, x = Raw.Ok y ∧ f y = Raw.Raise e.
Proof.
  destruct x as [y|e']; simpl.
  - split; [intros H; right; by exists y|]. by intros [?|(? & [= <-] & ?)].
  - split; [intros [= ->]; by left|]. by intros [[= ->]|(? & ? & _)].
Qed.


Lemma raw_for_each_Raise {A B : Type} (f : A → Raw.result B) l e :
  Raw.for_each f l = Raw.Raise e → ∃ x, x ∈ l ∧ f x = Raw.Raise e.
Proof.
  induction l as [|x l IH]; cbn [Raw.for_each]; [done|].
  intros [Hx|(y & _ & [Hl|(ys & _ & ?)]%raw_bind_Raise)]%raw_bind_Raise.
  - exists x. split; [left|done].
  - destruct (IH Hl) as (x' & Hx' & He). exists x'. split; [by right|done].
  - done.
Qed.

Lemma raw_for_each_total {A B : Type} (f : A → Raw.result B) l :
  (∀ x, x ∈ l → ∃ y, f x = Raw.Ok y) → ∃ l', Raw.for_each f l = Raw.Ok l'.
Proof.
  intros H. induction l as [|x l IH]; [by exists []|].
  destruct (H x) as [y Hy]; [left|].
  destruct IH as [ys Hys]; [intros x' Hx'; apply H; by right|].
  exists (y :: ys). cbn [Raw.for_each]. by rewrite Hy, Hys.
Qed.

(** The first element on which the body raises ends the loop. *)
Lemma raw_for_each_first_raise {A B : Type} (f : A → Raw.result B) l1 x l2 e :
  (∀ y, y ∈ l1 → ∃ z, f y = Raw.Ok z) → f x = Raw.Raise e →
  Raw.for_each f (l1 ++ x :: l2) = Raw.Raise e.
Proof.
  intros H1 Hx. induction l1 as [|y l1 IH]; cbn [app Raw.for_each].
  - by rewrite Hx.
  - destruct (H1 y) as [z ->]; [left|]. cbn [Raw.bind].
    rewrite IH; [done|]. intros y' Hy'. apply H1. by right.
Qed.


(** *** The two reads *)

Lemma raw_read_row_Ok {row : Type} (df : GeoDataFrame row) id_column
    (ident : option code) (bound : option geom) a a' :
  Raw.read_row df id_column ident bound a = Raw.Ok a'
  ↔ id_column ∈ columns df ∧ "geometry" ∈ columns df
    ∧ a' = Raw.assign a ident bound.
Proof.
  unfold Raw.read_row, has_column. repeat case_bool_decide; simpl.
  - split; [by intros [= <-]|by intros (_ & _ & ->)].
  - split; [done|]. by intros (_ & ? & _).
  - split; [done|]. by intros (? & _).
  - split; [done|]. by intros (? & _).
Qed.

Lemma raw_read_row_Raise {row : Type} (df : GeoDataFrame row) id_column
    (ident : option code) (bound : option geom) a e :
  Raw.read_row df id_column ident bound a = Raw.Raise e
  ↔ ((id_column ∉ columns df) ∧ e = Raw.KeyError id_column)
    ∨ (id_column ∈ columns df ∧ ("geometry" ∉ columns df)
       ∧ e = Raw.AttributeError "geometry").
Proof.
  unfold Raw.read_row, has_column. repeat case_bool_decide; simpl.
  - split; [done|]. by intros [[? _]|(_ & ? & _)].
  - split; [intros [= <-]; by right|]. by intros [[? _]|(_ & _ & ->)].
  - split; [intros [= <-]; by left|]. by intros [[_ ->]|(? & _)].
  - split; [intros [= <-]; by left|]. by intros [[_ ->]|(? & _)].
Qed.

(** *** The three loop bodies *)

Lemma raw_columns_tested {row : Type} (df : GeoDataFrame row) (k1 k2 : string) :
  negb (has_column k1 df) || negb (has_column k2 df) = false
  ↔ k1 ∈ columns df ∧ k2 ∈ columns df.
Proof.
  unfold has_column. repeat case_bool_decide; simpl; split; try done; tauto.
Qed.

Lemma raw_link_district_cases gd a d :
  (Raw.link_district gd a d = Raw.Ok d
   ∧ ∀ r, ¬ Raw.district_row_selected gd a d r)
  ∨ ∃ r, Raw.district_row_selected gd a d r
         ∧ Raw.link_district gd a d
           = Raw.bind (Raw.read_row gd "dt_adcode" (Raw.dt_adcode r)
                         (Raw.dt_geometry r) (fields d))
               (fun a' => Raw.Ok (Region a' (children d))).
Proof.
  unfold Raw.link_district, Raw.district_row_selected.
  destruct (negb _ || negb _) eqn:E.
  { left. split; [done|]. intros r (H1 & H2 & _).
    by rewrite (proj2 (raw_columns_tested gd _ _) (conj H1 H2)) in E. }
  apply raw_columns_tested in E as [H1 H2].
  rewrite list_filter_filter.
  rewrite (list_filter_iff _
             (fun r => Raw.cell_equals (Raw.dt_ct_adcode r) (adcode a)
                       ∧ normalize_name (Some (Raw.dt_name r))
                         = normalize_name (Some (name (fields d)))))
    by (intros r; tauto).
  match goal with
  | |- context [filter ?P (rows gd)] =>
    destruct (filter_cases P (rows gd)) as [[-> Hno]|(r & rest & -> & Hr)]
  end.
  - left. split; [done|]. intros r (_ & _ & Hr).
    by eapply first_row_not_no_row.
  - right. by exists r.
Qed.

Lemma raw_link_city_cases gc gd a c :
  (Raw.link_city gc gd a c = Raw.Ok c
   ∧ ∀ r, ¬ Raw.city_row_selected gc a c r)
  ∨ ∃ r, Raw.city_row_selected gc a c r
         ∧ Raw.link_city gc gd a c
           = Raw.bind (Raw.read_row gc "ct_adcode" (Raw.ct_adcode r)
                         (Raw.ct_geometry r) (fields c))
               (fun a' =>
                  Raw.bind (Raw.for_children (Raw.link_district gd a')
                              (children c))
                    (fun cs => Raw.Ok (Region a' cs))).
Proof.
  unfold Raw.link_city, Raw.city_row_selected.
  destruct (negb _ || negb _) eqn:E.
  { left. split; [done|]. intros r (H1 & H2 & _).
    by rewrite (proj2 (raw_columns_tested gc _ _) (conj H1 H2)) in E. }
  apply raw_columns_tested in E as [H1 H2].
  rewrite list_filter_filter.
  rewrite (list_filter_iff _
             (fun r => Raw.cell_equals (Raw.ct_pr_adcode r) (adcode a)
                       ∧ normalize_name (Some (Raw.ct_name r))
                         = normalize_name (Some (name (fields c)))))
    by (intros r; tauto).
  match goal with
  | |- context [filter ?P (rows gc)] =>
    destruct (filter_cases P (rows gc)) as [[-> Hno]|(r & rest & -> & Hr)]
  end.
  - left. split; [done|]. intros r (_ & _ & Hr).
    by eapply first_row_not_no_row.
  - right. by exists r.
Qed.

Lemma raw_link_province_cases gp gc gd p :
  (Raw.link_province gp gc gd p = Raw.Ok p
   ∧ ∀ r, ¬ Raw.province_row_selected gp p r)
  ∨ ∃ r, Raw.province_row_selected gp p r
         ∧ Raw.link_province gp gc gd p
           = Raw.bind (Raw.read_row gp "pr_adcode" (Raw.pr_adcode r)
                         (Raw.pr_geometry r) (fields p))
               (fun a' =>
                  Raw.bind (Raw.for_children (Raw.link_city gc gd a')
                              (children p))
                    (fun cs => Raw.Ok (Region a' cs))).
Proof.
  unfold Raw.link_province, Raw.province_row_selected, has_column.
  case_bool_decide as H1; simpl.
  2:{ left. split; [done|]. by intros r (? & _). }
  match goal with
  | |- context [filter ?P (rows gp)] =>
    destruct (filter_cases P (rows gp)) as [[-> Hno]|(r & rest & -> & Hr)]
  end.
  - left. split; [done|]. intros r (_ & Hr).
    by eapply first_row_not_no_row.
  - right. by exists r.
Qed.

(** *** What a call that returns has done *)




Lemma raw_link_data_cases md shp_data :
  (Raw.link_data md shp_data = Raw.Ok md
   ∧ (md = [] ∨ Raw.essential_shp_loaded_and_not_empty shp_data = false))
  ∨ ∃ gp gc gd,
      Raw.province shp_data = Some gp ∧ Raw.city shp_data = Some gc
      ∧ Raw.district shp_data = Some gd
      ∧ empty gp = false ∧ empty gc = false ∧ empty gd = false
      ∧ md ≠ []
      ∧ Raw.link_data md shp_data
        = Raw.for_each (Raw.link_province gp gc gd) md.
Proof.
  unfold Raw.link_data. case_bool_decide as Hmd; [left; by split; [|left]|].
  unfold Raw.essential_shp_loaded_and_not_empty.
  destruct (Raw.province shp_data) as [gp|]; [|left; by split; [|right]].
  destruct (Raw.city shp_data) as [gc|];
    [|left; split; [|right]; cbn; by rewrite ?andb_false_r].
  destruct (Raw.district shp_data) as [gd|];
    [|left; split; [|right]; cbn; by rewrite ?andb_false_r].
  cbn. destruct (empty gp) eqn:Ep; [left; by split; [|right]|].
  destruct (empty gc) eqn:Ec; [left; by split; [|right]|].
  destruct (empty gd) eqn:Ed; [left; by split; [|right]|].
  right. by exists gp, gc, gd.
Qed.

(** *** The frame *)


Lemma raw_assign_frame a x g : Raw.same_frame a (Raw.assign a x g).
Proof. done. Qed.








(** *** When a call returns *)

Lemma raw_read_row_present {row : Type} (df : GeoDataFrame row) id_column
    (ident : option code) (bound : option geom) a :
  id_column ∈ columns df → "geometry" ∈ columns df →
  Raw.read_row df id_column ident bound a
  = Raw.Ok (Raw.assign a ident bound).
Proof. intros H1 H2. by apply raw_read_row_Ok. Qed.

Lemma raw_read_row_absent {row : Type} (df : GeoDataFrame row) id_column
    (ident : option code) (bound : option geom) a :
  id_column ∉ columns df →
  Raw.read_row df id_column ident bound a
  = Raw.Raise (Raw.KeyError id_column).
Proof. intros H. apply raw_read_row_Raise. by left. Qed.

Lemma raw_for_children_total
    (f : AdministrativeRegion code geom → Raw.result (AdministrativeRegion code geom))
    cs :
  (∀ x, ∃ y, f x = Raw.Ok y) → ∃ cs', Raw.for_children f cs = Raw.Ok cs'.
Proof.
  intros H. destruct cs as [l|]; [|by exists None].
  destruct (raw_for_each_total f l) as [l' Hl']; [by intros x _|].
  exists (Some l'). cbn [Raw.for_children]. by rewrite Hl'.
Qed.

Lemma raw_link_district_total gd a d :
  "dt_adcode" ∈ columns gd → "geometry" ∈ columns gd →
  ∃ d', Raw.link_district gd a d = Raw.Ok d'.
Proof.
  intros H1 H2.
  destruct (raw_link_district_cases gd a d) as [[-> _]|(r & _ & ->)];
    [by eexists|].
  rewrite raw_read_row_present by done. by eexists.
Qed.

Lemma raw_link_city_total gc gd a c :
  "ct_adcode" ∈ columns gc → "geometry" ∈ columns gc →
  "dt_adcode" ∈ columns gd → "geometry" ∈ columns gd →
  ∃ c', Raw.link_city gc gd a c = Raw.Ok c'.
Proof.
  intros H1 H2 H3 H4.
  destruct (raw_link_city_cases gc gd a c) as [[-> _]|(r & _ & ->)];
    [by eexists|].
  rewrite raw_read_row_present by done. cbn [Raw.bind].
  destruct (raw_for_children_total
              (Raw.link_district gd
                 (Raw.assign (fields c) (Raw.ct_adcode r) (Raw.ct_geometry r)))
              (children c)) as [cs ->].
  { intros x. by apply raw_link_district_total. }
  by eexists.
Qed.

Lemma raw_link_province_total gp gc gd p :
  "pr_adcode" ∈ columns gp → "geometry" ∈ columns gp →
  "ct_adcode" ∈ columns gc → "geometry" ∈ columns gc →
  "dt_adcode" ∈ columns gd → "geometry" ∈ columns gd →
  ∃ p', Raw.link_province gp gc gd p = Raw.Ok p'.
Proof.
  intros H1 H2 H3 H4 H5 H6.
  destruct (raw_link_province_cases gp gc gd p) as [[-> _]|(r & _ & ->)];
    [by eexists|].
  rewrite raw_read_row_present by done. cbn [Raw.bind].
  destruct (raw_for_children_total
              (Raw.link_city gc gd
                 (Raw.assign (fields p) (Raw.pr_adcode r) (Raw.pr_geometry r)))
              (children p)) as [cs ->].
  { intros x. by apply raw_link_city_total. }
  by eexists.
Qed.


(** A chapter for which a row is selected ends the call when the table
    has no identifier column. *)
Lemma raw_link_province_KeyError gp gc gd p r :
  Raw.province_row_selected gp p r → "pr_adcode" ∉ columns gp →
  Raw.link_province gp gc gd p = Raw.Raise (Raw.KeyError "pr_adcode").
Proof.
  intros Hr Hno.
  destruct (raw_link_province_cases gp gc gd p) as [[_ H]|(r' & _ & ->)].
  - by destruct (H r).
  - by rewrite raw_read_row_absent.
Qed.

Lemma raw_for_each_province_KeyError gp gc gd md :
  "pr_adcode" ∉ columns gp →
  (∃ p r, p ∈ md ∧ Raw.province_row_selected gp p r) →
  Raw.for_each (Raw.link_province gp gc gd) md
  = Raw.Raise (Raw.KeyError "pr_adcode").
Proof.
  intros Hno. induction md as [|p0 md IH]; intros (p & r & Hp & Hr).
  { by apply elem_of_nil in Hp. }
  cbn [Raw.for_each].
  destruct (raw_link_province_cases gp gc gd p0) as [[-> H0]|(r0 & Hr0 & _)].
  - cbn [Raw.bind]. rewrite IH; [done|].
    apply elem_of_cons in Hp as [->|Hp]; [by destruct (H0 r)|].
    by exists p, r.
  - by rewrite (raw_link_province_KeyError gp gc gd p0 r0).
Qed.

(** *** Where identifier and boundary come from *)











(** *** main_data_processing *)

Lemma raw_main_data_processing_cases {country_row : Type} file
    (country : option (GeoDataFrame country_row)) shp_data :
  (Raw.main_data_processing file country shp_data = Raw.Ok None
   ∧ (file = None
      ∨ (∃ lines, file = Some lines ∧ omap chapter_title lines = [])
      ∨ loaded_and_not_empty country = false
      ∨ Raw.essential_shp_loaded_and_not_empty shp_data = false))
  ∨ ∃ lines md gp gc gd,
      file = Some lines ∧ parse_markdown lines = Some md
      ∧ omap chapter_title lines ≠ []
      ∧ Raw.tables_loaded country shp_data gp gc gd
      ∧ Raw.main_data_processing file country shp_data
        = Raw.bind (Raw.for_each (Raw.link_province gp gc gd) md)
            (fun md' => Raw.Ok (Some md')).
Proof.
  unfold Raw.main_data_processing.
  destruct file as [lines|]; [|left; split; [done|by left]].
  destruct (parse_markdown_total (code:=code) (geom:=geom) lines) as [md Hmd].
  rewrite Hmd. cbn [default from_option id].
  pose proof (parse_markdown_nil lines md Hmd) as Hnil.
  destruct md as [|p md0] eqn:Emd.
  { left. split; [done|]. right. left. exists lines. split; [done|].
    by apply Hnil. }
  rewrite <- Emd in *.
  assert (md ≠ []) as Hne by by rewrite Emd.
  destruct (loaded_and_not_empty country) eqn:E0;
    [|left; split; [done|]; right; right; by left].
  unfold Raw.essential_shp_loaded_and_not_empty.
  destruct (loaded_and_not_empty (Raw.province shp_data)) eqn:E1;
    [|left; split; [done|]; right; right; by right].
  destruct (loaded_and_not_empty (Raw.city shp_data)) eqn:E2;
    [|left; split; [done|]; right; right; by right].
  destruct (loaded_and_not_empty (Raw.district shp_data)) eqn:E3;
    [|left; split; [done|]; right; right; by right].
  cbn [negb orb]. right.
  apply loaded_and_not_empty_true in E1 as (gp & Hp & Ep).
  apply loaded_and_not_empty_true in E2 as (gc & Hc & Ec).
  apply loaded_and_not_empty_true in E3 as (gd & Hd & Ed).
  exists lines, md, gp, gc, gd. split; [done|]. split; [done|].
  split; [by rewrite <- Hnil|]. split; [done|].
  destruct (raw_link_data_cases md shp_data)
    as [[_ [?|Hno]]|(gp' & gc' & gd' & ? & ? & ? & _ & _ & _ & _ & ->)].
  - done.
  - unfold Raw.essential_shp_loaded_and_not_empty in Hno.
    rewrite Hp, Hc, Hd in Hno. cbn in Hno. by rewrite Ep, Ec, Ed in Hno.
  - by simplify_eq.
Qed.

(** X8: main_data_processing gives a forest exactly when the file is
    there and has a chapter heading, each of the four tables is loaded
    and not empty, and the loop of link_data over the chapters runs to
    its end; the forest is what the loop made of the parsed one.  It
    ends with the exception of the loop when the loop raises, and
    returns None in all other cases.  The loop runs to its end when the
    three tables have their identifier and boundary columns; it raises
    KeyError when the top-tier table has a name column but no identifier
    column and a row is selected for some chapter. *)
Theorem main_data_processing_result {country_row : Type} file
    (country : option (GeoDataFrame country_row)) shp_data :
  (∀ result,
     Raw.main_data_processing file country shp_data = Raw.Ok (Some result) ↔
     ∃ lines md gp gc gd,
       file = Some lines ∧ parse_markdown lines = Some md
       ∧ omap chapter_title lines ≠ []
       ∧ Raw.tables_loaded country shp_data gp gc gd
       ∧ Raw.for_each (Raw.link_province gp gc gd) md = Raw.Ok result)
  ∧ (∀ e,
       Raw.main_data_processing file country shp_data = Raw.Raise e ↔
       ∃ lines md gp gc gd,
         file = Some lines ∧ parse_markdown lines = Some md
         ∧ omap chapter_title lines ≠ []
         ∧ Raw.tables_loaded country shp_data gp gc gd
         ∧ Raw.for_each (Raw.link_province gp gc gd) md = Raw.Raise e)
  ∧ (Raw.readable shp_data →
     ∀ e, Raw.main_data_processing file country shp_data ≠ Raw.Raise e)
  ∧ (∀ lines md gp gc gd,
       file = Some lines → parse_markdown lines = Some md →
       Raw.tables_loaded country shp_data gp gc gd →
       "pr_adcode" ∉ columns gp →
       (∃ p r, p ∈ md ∧ Raw.province_row_selected gp p r) →
       Raw.main_data_processing file country shp_data
       = Raw.Raise (Raw.KeyError "pr_adcode")).
Proof.
  pose proof (raw_main_data_processing_cases file country shp_data)
    as [[E Hwhy]|(lines & md & gp & gc & gd & Hf & Hmd & Hne & Ht & E)].
  - assert (∀ lines md gp gc gd,
              file = Some lines → parse_markdown lines = Some md →
              omap chapter_title lines ≠ [] →
              Raw.tables_loaded country shp_data gp gc gd → False) as Hcontra.
    { intros lines md gp gc gd Hf Hmd Hne (E0 & Hp & Hc & Hd & Ep & Ec & Ed).
      destruct Hwhy as [?|[(l & ? & ?)|[?|Hno]]]; simplify_eq.
      - congruence.
      - unfold Raw.essential_shp_loaded_and_not_empty in Hno.
        rewrite Hp, Hc, Hd in Hno. cbn in Hno. by rewrite Ep, Ec, Ed in Hno. }
    rewrite E. split; [|split; [|split]].
    + intros result. split; [done|].
      intros (lines & md & gp & gc & gd & Hf & Hmd & Hne & Ht & _).
      by destruct (Hcontra lines md gp gc gd).
    + intros e. split; [done|].
      intros (lines & md & gp & gc & gd & Hf & Hmd & Hne & Ht & _).
      by destruct (Hcontra lines md gp gc gd).
    + done.
    + intros lines md gp gc gd Hf Hmd Ht Hno (p & r & Hp & Hr).
      destruct (Hcontra lines md gp gc gd); try done.
      rewrite <- (parse_markdown_nil lines md Hmd). intros ->.
      by apply elem_of_nil in Hp.
  - assert (∀ lines' md' gp' gc' gd',
              file = Some lines' → parse_markdown lines' = Some md' →
              Raw.tables_loaded country shp_data gp' gc' gd' →
              lines' = lines ∧ md' = md ∧ gp' = gp ∧ gc' = gc ∧ gd' = gd)
      as Hsame.
    { intros lines' md' gp' gc' gd' Hf' Hmd' (_ & Hp' & Hc' & Hd' & _).
      destruct Ht as (_ & Hp & Hc & Hd & _). by simplify_eq. }
    rewrite E. split; [|split; [|split]].
    + intros result. rewrite raw_bind_Ok. split.
      * intros (md' & Hl & [= <-]). by exists lines, md, gp, gc, gd.
      * intros (lines' & md' & gp' & gc' & gd' & Hf' & Hmd' & _ & Ht' & Hl).
        destruct (Hsame _ _ _ _ _ Hf' Hmd' Ht') as (-> & -> & -> & -> & ->).
        by exists result.
    + intros e. rewrite raw_bind_Raise. split.
      * intros [Hl|(md' & _ & ?)]; [|done].
        by exists lines, md, gp, gc, gd.
      * intros (lines' & md' & gp' & gc' & gd' & Hf' & Hmd' & _ & Ht' & Hl).
        destruct (Hsame _ _ _ _ _ Hf' Hmd' Ht') as (-> & -> & -> & -> & ->).
        by left.
    + intros (Rp & Rc & Rd) e.
      destruct Ht as (_ & Hp & Hc & Hd & _).
      destruct (Rp gp Hp), (Rc gc Hc), (Rd gd Hd).
      destruct (raw_for_each_total (Raw.link_province gp gc gd) md) as [md' ->].
      { intros p _. by apply raw_link_province_total. }
      done.
    + intros lines' md' gp' gc' gd' Hf' Hmd' Ht' Hno Hsel.
      destruct (Hsame _ _ _ _ _ Hf' Hmd' Ht') as (-> & -> & -> & -> & ->).
      by rewrite raw_for_each_province_KeyError.
Qed.

(** *** Complete tables

    On tables with every cell filled and every column there, the loop
    that may raise returns what [link_data] of the sections above
    computes. *)

Lemma filter_fmap_related {A B : Type} (f : A → B) (P : B → Prop) (Q : A → Prop)
    `{Pdec : !∀ y, Decision (P y)} `{Qdec : !∀ x, Decision (Q x)} (l : list A) :
  (∀ x, P (f x) ↔ Q x) → filter P (f <$> l) = f <$> filter Q l.
Proof.
  intros H. induction l as [|x l IH]; [done|].
  cbn [fmap list_fmap]. rewrite !filter_cons.
  destruct (decide (Q x)) as [Hx|Hx].
  - rewrite decide_True by by apply H. cbn [fmap list_fmap]. by f_equal.
  - rewrite decide_False by by rewrite H. done.
Qed.

Lemma raw_for_each_fmap {A B : Type} (f : A → Raw.result B) (g : A → B) l :
  (∀ x, f x = Raw.Ok (g x)) → Raw.for_each f l = Raw.Ok (g <$> l).
Proof.
  intros H. induction l as [|x l IH]; [done|].
  cbn [Raw.for_each]. by rewrite H, IH.
Qed.

Lemma raw_for_children_fmap
    (f : AdministrativeRegion code geom → Raw.result (AdministrativeRegion code geom))
    (g : AdministrativeRegion code geom → AdministrativeRegion code geom) cs :
  (∀ x, f x = Raw.Ok (g x)) →
  Raw.for_children f cs = Raw.Ok (fmap (M:=list) g <$> cs).
Proof.
  intros H. destruct cs as [l|]; [|done].
  cbn [Raw.for_children]. by rewrite (raw_for_each_fmap f g).
Qed.

Lemma raw_frame_empty {row row' : Type} (f : row → row') (df : GeoDataFrame row) :
  empty (raw_frame f df) = empty df.
Proof. unfold empty, raw_frame. cbn [rows columns]. by destruct (rows df). Qed.

Lemma raw_frame_loaded {row row' : Type} (f : row → row')
    (t : option (GeoDataFrame row)) :
  loaded_and_not_empty (raw_frame f <$> t) = loaded_and_not_empty t.
Proof. destruct t as [df|]; [|done]. cbn. by rewrite raw_frame_empty. Qed.

Lemma raw_link_district_complete (td : GeoDataFrame (district_row code geom)) a d :
  "dt_adcode" ∈ columns td → "geometry" ∈ columns td →
  Raw.link_district (raw_frame raw_district_row td) a d
  = Raw.Ok (link_district td a d).
Proof.
  intros H1 H2. unfold Raw.link_district, link_district.
  change (has_column ?k (raw_frame raw_district_row td)) with (has_column k td).
  destruct (negb _ || negb _); [done|].
  change (rows (raw_frame raw_district_row td))
    with (raw_district_row <$> rows td).
  rewrite (filter_fmap_related raw_district_row _
             (fun r => Some (dt_ct_adcode r) = adcode a)).
  2:{ intros r. unfold Raw.cell_equals. cbn. split; [by intros [_ ?]|].
      intros H. split; [by eexists|done]. }
  rewrite (filter_fmap_related raw_district_row _
             (fun r => normalize_name (Some (dt_name r))
                       = normalize_name (Some (name (fields d)))))
    by done.
  destruct (filter _ (filter _ (rows td))) as [|r rest]; [done|].
  cbn [fmap list_fmap]. by rewrite raw_read_row_present.
Qed.

Lemma raw_link_city_complete (tc : GeoDataFrame (city_row code geom))
    (td : GeoDataFrame (district_row code geom)) a c :
  "ct_adcode" ∈ columns tc → "geometry" ∈ columns tc →
  "dt_adcode" ∈ columns td → "geometry" ∈ columns td →
  Raw.link_city (raw_frame raw_city_row tc) (raw_frame raw_district_row td) a c
  = Raw.Ok (link_city tc td a c).
Proof.
  intros H1 H2 H3 H4. unfold Raw.link_city, link_city.
  change (has_column ?k (raw_frame raw_city_row tc)) with (has_column k tc).
  destruct (negb _ || negb _); [done|].
  change (rows (raw_frame raw_city_row tc)) with (raw_city_row <$> rows tc).
  rewrite (filter_fmap_related raw_city_row _
             (fun r => Some (ct_pr_adcode r) = adcode a)).
  2:{ intros r. unfold Raw.cell_equals. cbn. split; [by intros [_ ?]|].
      intros H. split; [by eexists|done]. }
  rewrite (filter_fmap_related raw_city_row _
             (fun r => normalize_name (Some (ct_name r))
                       = normalize_name (Some (name (fields c)))))
    by done.
  destruct (filter _ (filter _ (rows tc))) as [|r rest]; [done|].
  cbn [fmap list_fmap]. rewrite raw_read_row_present by done.
  cbn [Raw.bind].
  rewrite (raw_for_children_fmap _
             (link_district td
                (assign (fields c) (ct_adcode r) (ct_geometry r)))).
  - done.
  - intros x. by apply raw_link_district_complete.
Qed.

Lemma raw_link_province_complete (tp : GeoDataFrame (province_row code geom))
    (tc : GeoDataFrame (city_row code geom))
    (td : GeoDataFrame (district_row code geom)) p :
  "pr_adcode" ∈ columns tp → "geometry" ∈ columns tp →
  "ct_adcode" ∈ columns tc → "geometry" ∈ columns tc →
  "dt_adcode" ∈ columns td → "geometry" ∈ columns td →
  Raw.link_province (raw_frame raw_province_row tp) (raw_frame raw_city_row tc)
    (raw_frame raw_district_row td) p
  = Raw.Ok (link_province tp tc td p).
Proof.
  intros H1 H2 H3 H4 H5 H6. unfold Raw.link_province, link_province.
  change (has_column ?k (raw_frame raw_province_row tp)) with (has_column k tp).
  destruct (negb _); [done|].
  change (rows (raw_frame raw_province_row tp))
    with (raw_province_row <$> rows tp).
  rewrite (filter_fmap_related raw_province_row _
             (fun r => normalize_name (Some (pr_name r))
                       = normalize_name (Some (name (fields p)))))
    by done.
  destruct (filter _ (rows tp)) as [|r rest]; [done|].
  cbn [fmap list_fmap]. rewrite raw_read_row_present by done.
  cbn [Raw.bind].
  rewrite (raw_for_children_fmap _
             (link_city tc td
                (assign (fields p) (pr_adcode r) (pr_geometry r)))).
  - done.
  - intros x. by apply raw_link_city_complete.
Qed.

(** On complete tables [Raw.link_data] returns, and returns the forest
    of [link_data]. *)
Lemma raw_link_data_complete md (shp : ShpData code geom) :
  Raw.readable (raw_tables shp) →
  Raw.link_data md (raw_tables shp) = Raw.Ok (link_data md shp).
Proof.
  intros (Rp & Rc & Rd). unfold Raw.link_data, link_data.
  unfold Raw.essential_shp_loaded_and_not_empty,
    essential_shp_loaded_and_not_empty, raw_tables in *.
  cbn [Raw.province Raw.city Raw.district] in *.
  rewrite !raw_frame_loaded.
  destruct (bool_decide (md = []) || negb _); [done|].
  destruct (province shp) as [tp|]; [|done].
  destruct (city shp) as [tc|]; [|done].
  destruct (district shp) as [td|]; [|done].
  cbn [fmap option_fmap option_map].
  destruct (Rp _ eq_refl), (Rc _ eq_refl), (Rd _ eq_refl).
  apply raw_for_each_fmap. intros p. by apply raw_link_province_complete.
Qed.

Lemma raw_main_data_processing_complete {country_row : Type} file
    (country : option (GeoDataFrame country_row)) (shp : ShpData code geom) :
  Raw.readable (raw_tables shp) →
  Raw.main_data_processing file country (raw_tables shp)
  = Raw.Ok (main_data_processing file country shp).
Proof.
  intros Hr. unfold Raw.main_data_processing, main_data_processing.
  destruct (match file with Some lines => default [] (parse_markdown lines)
                          | None => [] end) as [|p md]; [done|].
  unfold raw_tables at 1 2 3. cbn [Raw.province Raw.city Raw.district].
  rewrite !raw_frame_loaded.
  destruct (negb _ || negb _ || negb _ || negb _); [done|].
  by rewrite raw_link_data_complete.
Qed.

End RawFacts.

(** ** The further properties at work *)

Lemma text_before_first_chapter_witness :
  parse_markdown (code:=Z) (geom:=Z)
    ([terminated "前言"; terminated "## 一、广州市"]
     ++ terminated "# 第1章 广东省" :: [terminated "正文"])
  = Some [Region (Attrs (lit "广东省") 1%Z None None None []
                    (strip (join_lines
                              (strip_newlines
                                 <$> [terminated "前言"; terminated "## 一、广州市"]
                                     ++ [terminated "正文"])))
                    None)
            (Some [])].
Proof.
  apply (text_before_first_chapter
           [terminated "前言"; terminated "## 一、广州市"]
           (terminated "# 第1章 广东省") (lit "广东省") [terminated "正文"]).
  - repeat (constructor; [split; by vm_compute|]). constructor.
  - by vm_compute.
  - repeat constructor; by vm_compute.
Defined.

Lemma browse_tree_complete_witness :
  item_data <$> flat_map all_rows (populate_browse_tree sample_forest [])
  = Some <$> nodes sample_forest
  ∧ item_text <$> flat_map all_rows (populate_browse_tree sample_forest [])
    = name ∘ fields <$> nodes sample_forest.
Proof.
  apply (browse_tree_complete sample_forest []); [done|].
  repeat constructor; vm_compute; lia.
Defined.

Lemma browse_tree_of_loaded_data_witness :
  item_data <$> flat_map all_rows
                  (populate_browse_tree (@scenario_forest Z Z) [])
  = Some <$> nodes (@scenario_forest Z Z)
  ∧ item_text <$> flat_map all_rows
                    (populate_browse_tree (@scenario_forest Z Z) [])
    = name ∘ fields <$> nodes (@scenario_forest Z Z).
Proof.
  apply (browse_tree_of_loaded_data (Some scenario_lines)
           (Some (Frame ["name"; "geometry"]%string [tt])) sample_tables
           (@scenario_forest Z Z) []).
  by vm_compute.
Defined.

(** *** On sample tables *)







Lemma main_data_processing_result_witness :
  Raw.main_data_processing (Some scenario_lines)
    (Some (Frame ["name"; "geometry"]%string [tt])) headless_tables
  = Raw.Raise (Raw.KeyError "pr_adcode").
Proof.
  destruct (main_data_processing_result (Some scenario_lines)
              (Some (Frame ["name"; "geometry"]%string [tt])) headless_tables)
    as (_ & _ & _ & Hraises).
  eapply (Hraises scenario_lines scenario_forest).
  - done.
  - by vm_compute.
  - unfold Raw.tables_loaded. split; [by vm_compute|].
    do 3 (split; [reflexivity|]). split; [|split]; by vm_compute.
  - apply (bool_decide_unpack _). by vm_compute.
  - eexists _, _. split; [left|]. split.
    + apply (bool_decide_unpack _). by vm_compute.
    + apply first_row_here. by vm_compute.
Defined.
